(** * wplace-compress: the two-tier placement codec

    A shallow embedding of [src/compress.ts]: the interval builder
    ([rowsToV1]), the progression compactor ([v1ToV2IfPossible]), the
    orchestrator ([compactFromRows]), the decoder ([expandCompact]) and the
    point query resolver ([queryOneCompact]).

    Conventions of the embedding.
    - A JavaScript [number] that holds an integer is a [Z]; all arithmetic of
      the codec ([+], [-], [*], [Math.floor] of a quotient) is exact on the
      safe-integer range, which is where tile coordinates and identifiers
      live.
    - A JavaScript string is a [string]; the template literals of the source
      are concatenations with the decimal rendering of the numbers.
    - A [Map] is an association list in insertion order: [Map.set] on a key
      that is present replaces the value in place, on a new key it appends.
    - [Array.prototype.sort] is a stable sort driven by a comparator that
      returns a number; [a || b] on numbers is [b] when [a] is [0].
    - [String.prototype.localeCompare] is supplied by the host: it is a
      parameter of the development (class [Collation]).  The one law a
      proof may ask of it is the one the language asks, that it is a
      consistent comparator ([CollationOrder]); that it tells two names
      apart is never assumed of the host, it is stated of the names of an
      input where a statement needs it ([apartNames]). *)

From Stdlib Require Import ZArith List Bool String Ascii Lia.
From Stdlib Require Import Permutation Sorted Decimal DecimalString DecimalZ.
Import ListNotations.

#[local] Open Scope string_scope.
#[local] Open Scope list_scope.
#[local] Open Scope Z_scope.

(** ** JavaScript primitives used by the codec *)

(** [a || b] on numbers: the first operand when it is truthy (non-zero). *)
Definition jsOr (a b : Z) : Z := if a =? 0 then b else a.

Notation "a '|||' b" := (jsOr a b) (at level 50, left associativity).

(** [String(z)] for an integer [z], as a template literal renders it. *)
Definition numToString (z : Z) : string := NilZero.string_of_int (Z.to_int z).

(** [Number(s)] on the decimal integer literals.  Every string the codec
    passes to [Number] was rendered by [numToString] (lemma
    [Number_numToString]); on other strings JavaScript yields [NaN], which
    the integer model has no value for and which is read here as [0]. *)
Definition Number (s : string) : Z :=
  match NilZero.int_of_string s with
  | Some d => Z.of_int d
  | None => 0
  end.

(** [s.split(sep)] for a one-character separator. *)
Fixpoint split (sep : ascii) (s : string) : list string :=
  match s with
  | EmptyString => [EmptyString]
  | String ch s' =>
      if Ascii.eqb ch sep then EmptyString :: split sep s'
      else match split sep s' with
           | [] => [String ch EmptyString]
           | h :: t => String ch h :: t
           end
  end.

(** Stable sort by a numeric comparator: [x] goes before the first element
    it does not compare greater than, so equal elements keep their input
    order. *)
Section SortBy.
Context {A : Type} (cmp : A -> A -> Z).

Fixpoint insertSorted (x : A) (l : list A) : list A :=
  match l with
  | [] => [x]
  | y :: l' => if cmp x y <=? 0 then x :: l else y :: insertSorted x l'
  end.

Definition sortBy (l : list A) : list A := fold_right insertSorted [] l.

(** The same insertion seen from the element that arrives: [x], newer than
    the elements of [l], goes before the first of them it compares less
    than. *)
Fixpoint insertLast (x : A) (l : list A) : list A :=
  match l with
  | [] => [x]
  | y :: l' => if cmp x y <? 0 then x :: l else y :: insertLast x l'
  end.
End SortBy.

(** [for (let x = lo; x <= hi; x++)]: the values the loop variable takes. *)
Definition zrange (lo hi : Z) : list Z :=
  map (fun j => lo + Z.of_nat j) (List.seq 0 (Z.to_nat (hi - lo + 1))).

(** [for (let i = 0; i < k; i++)]. *)
Definition upto (k : Z) : list Z := zrange 0 (k - 1).

(** A [Map<string, V>] in insertion order. *)
Definition JsMap (V : Type) : Type := list (string * V).

Fixpoint mapGet {V : Type} (k : string) (m : JsMap V) : option V :=
  match m with
  | [] => None
  | (k', v) :: m' => if String.eqb k k' then Some v else mapGet k m'
  end.

Fixpoint mapSet {V : Type} (k : string) (v : V) (m : JsMap V) : JsMap V :=
  match m with
  | [] => [(k, v)]
  | (k', v') :: m' =>
      if String.eqb k k' then (k, v) :: m' else (k', v') :: mapSet k v m'
  end.

(** The outcome of a call that may [throw]. *)
Inductive Result (A : Type) : Type :=
| Ok (a : A)
| Throw (msg : string).
Arguments Ok {A} a.
Arguments Throw {A} msg.

(** The host's [localeCompare]. *)
Class Collation : Type := { localeCompare : string -> string -> Z }.

(** ** Data model (the [type] declarations of the source) *)

Module Coord.
Record t : Type := mk { tileX : Z; tileY : Z }.
End Coord.

Module RawRow.
Record t : Type := mk {
  id : Z;
  cityId : Z;
  name : string;
  number : Z;
  countryId : Z;
  coord : Coord.t
}.
End RawRow.

Module V1Entry.
Record t : Type := mk { id : Z; n : Z; y : Z; xs : Z; xe : Z }.
End V1Entry.

Module V1Blob.
Record t : Type := mk { c : Z; n : string; id : Z; e : list V1Entry.t }.
End V1Blob.

Module V2Run.
Record t : Type := mk { x0 : Z; k : Z; id0 : Z; n0 : Z }.
End V2Run.

Module V2Blob.
Record t : Type := mk {
  c : Z; n : string; id : Z; y : Z; s : Z; seq : list V2Run.t
}.
End V2Blob.

(** [V1Blob | V2Blob], the element type of the encoder's output. *)
Inductive Blob : Type :=
| BlobV1 (b : V1Blob.t)
| BlobV2 (b : V2Blob.t).

(** ** Interval builder: [rowsToV1] *)

(** The value type of the [groups] map. *)
Module Group.
Record t : Type := mk {
  c : Z; n : string; id : Z; bucket : JsMap (list Z)
}.
End Group.

Definition metaKeyOf (r : RawRow.t) : string :=
  (numToString (RawRow.cityId r) ++ "|" ++ RawRow.name r ++ "|"
     ++ numToString (RawRow.countryId r))%string.

Definition bucketKeyOf (r : RawRow.t) : string :=
  (numToString (RawRow.id r) ++ "|" ++ numToString (RawRow.number r) ++ "|"
     ++ numToString (Coord.tileY (RawRow.coord r)))%string.

(** Lines 109-112: [g.bucket.get(key) ?? []], [push], [set]. *)
Definition bucketStep (bucket : JsMap (list Z)) (r : RawRow.t)
  : JsMap (list Z) :=
  let key := bucketKeyOf r in
  let arr := match mapGet key bucket with Some a => a | None => [] end in
  mapSet key (arr ++ [Coord.tileX (RawRow.coord r)]) bucket.

(** One iteration of the loop of lines 102-113.  The group object is shared
    between the map and the local [g]; mutating its bucket is replacing the
    group at its position in the map. *)
Definition groupStep (groups : JsMap Group.t) (r : RawRow.t)
  : JsMap Group.t :=
  let metaKey := metaKeyOf r in
  let g := match mapGet metaKey groups with
           | Some g => g
           | None => Group.mk (RawRow.cityId r) (RawRow.name r)
                       (RawRow.countryId r) []
           end in
  mapSet metaKey
    (Group.mk (Group.c g) (Group.n g) (Group.id g)
       (bucketStep (Group.bucket g) r))
    groups.

Definition groupRows (rows : list RawRow.t) : JsMap Group.t :=
  fold_left groupStep rows [].

(** Lines 125-137: the run-merging loop over the sorted columns, with
    [start] and [prev] as loop state; [mk start prev] is the entry pushed. *)
Fixpoint mergeLoop (mk : Z -> Z -> V1Entry.t) (start prev : Z)
  (rest : list Z) : list V1Entry.t :=
  match rest with
  | [] => [mk start prev]
  | cur :: rest' =>
      if cur =? prev + 1 then mergeLoop mk start cur rest'
      else mk start prev :: mergeLoop mk cur cur rest'
  end.

(** [xs[0]] is [undefined] on an empty array and nothing is pushed. *)
Definition mergeRuns (mk : Z -> Z -> V1Entry.t) (xs : list Z)
  : list V1Entry.t :=
  match xs with
  | [] => []
  | x0 :: rest => mergeLoop mk x0 x0 rest
  end.

Definition cmpNum (a b : Z) : Z := a - b.

(** Lines 119-137 for one [[k, xsArr]] of the bucket. *)
Definition bucketEntries (kv : string * list Z) : list V1Entry.t :=
  let parts := split "|"%char (fst kv) in
  let rid := Number (nth 0 parts "") in
  let n := Number (nth 1 parts "") in
  let y := Number (nth 2 parts "") in
  let xs := sortBy cmpNum (snd kv) in
  mergeRuns (fun start prev => V1Entry.mk rid n y start prev) xs.

Definition cmpEntry (a b : V1Entry.t) : Z :=
  (V1Entry.id a - V1Entry.id b) ||| (V1Entry.n a - V1Entry.n b)
    ||| (V1Entry.y a - V1Entry.y b) ||| (V1Entry.xs a - V1Entry.xs b)
    ||| (V1Entry.xe a - V1Entry.xe b).

Definition groupToBlob (g : Group.t) : V1Blob.t :=
  V1Blob.mk (Group.c g) (Group.n g) (Group.id g)
    (sortBy cmpEntry (flat_map bucketEntries (Group.bucket g))).

Section Encoder.
Context {C : Collation}.

Definition cmpBlob (a b : V1Blob.t) : Z :=
  (V1Blob.c a - V1Blob.c b) ||| (V1Blob.id a - V1Blob.id b)
    ||| localeCompare (V1Blob.n a) (V1Blob.n b).

Definition rowsToV1 (rows : list RawRow.t) : list V1Blob.t :=
  sortBy cmpBlob (map (fun kg => groupToBlob (snd kg)) (groupRows rows)).
End Encoder.

(** ** Progression compactor: [v1ToV2IfPossible] *)

(** Lines 150-153: the precondition loop; [false] is its [return null]. *)
Fixpoint tier2Candidate (y s : Z) (es : list V1Entry.t) : bool :=
  match es with
  | [] => true
  | e :: es' =>
      if negb (V1Entry.y e =? y) then false
      else if negb (V1Entry.xe e - V1Entry.xs e + 1 =? s) then false
      else tier2Candidate y s es'
  end.

Definition cmpXs (a b : V1Entry.t) : Z := V1Entry.xs a - V1Entry.xs b.

Section Runs.
(** [es] is the sorted copy of the entries; [d] stands for [es[i]] at an
    index out of range, which the loops never reach. *)
Variables (es : list V1Entry.t) (d : V1Entry.t) (s : Z).

(** Lines 158-162: [flush(fromIdx, toIdx)] pushes one run. *)
Definition flush (runs : list V2Run.t) (fromIdx toIdx : nat)
  : list V2Run.t :=
  let first := nth fromIdx es d in
  let k := Z.of_nat toIdx - Z.of_nat fromIdx + 1 in
  runs ++ [V2Run.mk (V1Entry.xs first) k (V1Entry.id first)
             (V1Entry.n first)].

(** Lines 165-173: the body of the loop at index [i], on the state
    [(runs, runStartIdx)]. *)
Definition runStep (st : list V2Run.t * nat) (i : nat)
  : list V2Run.t * nat :=
  let prev := nth (i - 1) es d in
  let cur := nth i es d in
  let xsOK := V1Entry.xs cur =? V1Entry.xs prev + s in
  let idOK := V1Entry.id cur =? V1Entry.id prev + 1 in
  let nOK := V1Entry.n cur =? V1Entry.n prev + 1 in
  if negb (xsOK && idOK && nOK) then (flush (fst st) (snd st) (i - 1), i)
  else st.

(** Lines 155-175: [for (let i = 1; i < es.length; i++)] and the last
    [flush]. *)
Definition progressionRuns : list V2Run.t :=
  let st := fold_left runStep (List.seq 1 (List.length es - 1)) ([], 0%nat) in
  flush (fst st) (snd st) (List.length es - 1).
End Runs.

(** The stride [s] is always passed by the callers (its default is [4]). *)
Definition v1ToV2IfPossible (v1 : V1Blob.t) (s : Z) : option V2Blob.t :=
  match V1Blob.e v1 with
  | [] => Some (V2Blob.mk (V1Blob.c v1) (V1Blob.n v1) (V1Blob.id v1) 0 s [])
  | e0 :: _ =>
      let y := V1Entry.y e0 in
      if tier2Candidate y s (V1Blob.e v1) then
        let es := sortBy cmpXs (V1Blob.e v1) in
        let runs := progressionRuns es e0 s in
        if (Z.of_nat (List.length runs) =? 1)
           || (Z.of_nat (List.length runs) * 2
               <=? Z.of_nat (List.length (V1Blob.e v1)))
        then Some (V2Blob.mk (V1Blob.c v1) (V1Blob.n v1) (V1Blob.id v1) y s
                     runs)
        else None
      else None
  end.

(** ** Orchestrator: [compactFromRows] *)

Section Orchestrator.
Context {C : Collation}.

Definition compactFromRows (rows : list RawRow.t) (preferS : Z)
  : list Blob :=
  map (fun b => match v1ToV2IfPossible b preferS with
                | Some v2 => BlobV2 v2
                | None => BlobV1 b
                end)
    (rowsToV1 rows).
End Orchestrator.

(** ** The compact document as the decoder and the resolver receive it *)

(** A parsed blob object: its scalar properties as the type declares them,
    and the properties [seq] and [e] when they hold an array ([None] when
    the property is absent or is not an array). *)
Module JsBlob.
Record t : Type := mk {
  c : Z; n : string; id : Z; y : Z; s : Z;
  seq : option (list V2Run.t);
  e : option (list V1Entry.t)
}.
End JsBlob.

(** An element of the document: an object, or a falsy value. *)
Inductive JsValue : Type :=
| JsObj (o : JsBlob.t)
| JsNull.

(** [Compact]: one blob, or an array of blobs. *)
Inductive Compact : Type :=
| Single (blob : JsValue)
| Many (blobs : list JsValue).

(** [Array.isArray(compact) ? compact : [compact]]. *)
Definition blobsOf (compact : Compact) : list JsValue :=
  match compact with
  | Single blob => [blob]
  | Many blobs => blobs
  end.

(** The encoder's blobs as objects; a Tier-1 object has neither [y] nor [s],
    and nothing reads them. *)
Definition toJs (b : Blob) : JsValue :=
  match b with
  | BlobV1 b1 =>
      JsObj (JsBlob.mk (V1Blob.c b1) (V1Blob.n b1) (V1Blob.id b1) 0 0 None
               (Some (V1Blob.e b1)))
  | BlobV2 b2 =>
      JsObj (JsBlob.mk (V2Blob.c b2) (V2Blob.n b2) (V2Blob.id b2)
               (V2Blob.y b2) (V2Blob.s b2) (Some (V2Blob.seq b2)) None)
  end.

(** [compact.length === 1 ? compact[0] : compact] of [doCompressFile]. *)
Definition payload (compact : list Blob) : Compact :=
  match compact with
  | [b] => Single (toJs b)
  | _ => Many (map toJs compact)
  end.

(** [x && Array.isArray(x.seq)] and [x && Array.isArray(x.e)]. *)
Definition isV2 (x : JsValue) : bool :=
  match x with
  | JsObj o => match JsBlob.seq o with Some _ => true | None => false end
  | JsNull => false
  end.

Definition isV1 (x : JsValue) : bool :=
  match x with
  | JsObj o => match JsBlob.e o with Some _ => true | None => false end
  | JsNull => false
  end.

(** The blob read at the type its guard established.  The last branches are
    never taken behind the guards. *)
Definition asV2 (x : JsValue) : V2Blob.t :=
  match x with
  | JsObj o =>
      V2Blob.mk (JsBlob.c o) (JsBlob.n o) (JsBlob.id o) (JsBlob.y o)
        (JsBlob.s o)
        (match JsBlob.seq o with Some a => a | None => [] end)
  | JsNull => V2Blob.mk 0 "" 0 0 0 []
  end.

Definition asV1 (x : JsValue) : V1Blob.t :=
  match x with
  | JsObj o =>
      V1Blob.mk (JsBlob.c o) (JsBlob.n o) (JsBlob.id o)
        (match JsBlob.e o with Some a => a | None => [] end)
  | JsNull => V1Blob.mk 0 "" 0 []
  end.

(** ** Decoder: [expandCompact] *)

(** Lines 202-218: the rows pushed for a Tier-2 blob. *)
Definition expandV2 (b : V2Blob.t) : list RawRow.t :=
  flat_map (fun r =>
    flat_map (fun i =>
      let xs := V2Run.x0 r + i * V2Blob.s b in
      let xe := xs + (V2Blob.s b - 1) in
      map (fun x =>
             RawRow.mk (V2Run.id0 r + i) (V2Blob.c b) (V2Blob.n b)
               (V2Run.n0 r + i) (V2Blob.id b) (Coord.mk x (V2Blob.y b)))
        (zrange xs xe))
      (upto (V2Run.k r)))
    (V2Blob.seq b).

(** Lines 220-232: the rows pushed for a Tier-1 blob. *)
Definition expandV1 (b : V1Blob.t) : list RawRow.t :=
  flat_map (fun entry =>
    map (fun x =>
           RawRow.mk (V1Entry.id entry) (V1Blob.c b) (V1Blob.n b)
             (V1Entry.n entry) (V1Blob.id b)
             (Coord.mk x (V1Entry.y entry)))
      (zrange (V1Entry.xs entry) (V1Entry.xe entry)))
    (V1Blob.e b).

(** Lines 200-236: the loop over the blobs, [rows] being the array built so
    far. *)
Fixpoint expandLoop (arr : list JsValue) (rows : list RawRow.t)
  : Result (list RawRow.t) :=
  match arr with
  | [] => Ok rows
  | blob :: arr' =>
      if isV2 blob then expandLoop arr' (rows ++ expandV2 (asV2 blob))
      else if isV1 blob then expandLoop arr' (rows ++ expandV1 (asV1 blob))
      else Throw "Unknown compact blob shape"
  end.

Section Decoder.
Context {C : Collation}.

Definition cmpRow (a b : RawRow.t) : Z :=
  (RawRow.cityId a - RawRow.cityId b)
    ||| (RawRow.countryId a - RawRow.countryId b)
    ||| localeCompare (RawRow.name a) (RawRow.name b)
    ||| (Coord.tileY (RawRow.coord a) - Coord.tileY (RawRow.coord b))
    ||| (Coord.tileX (RawRow.coord a) - Coord.tileX (RawRow.coord b))
    ||| (RawRow.id a - RawRow.id b)
    ||| (RawRow.number a - RawRow.number b).

Definition expandCompact (compact : Compact) : Result (list RawRow.t) :=
  match expandLoop (blobsOf compact) [] with
  | Ok rows => Ok (sortBy cmpRow rows)
  | Throw msg => Throw msg
  end.
End Decoder.

(** ** Point query resolver: [queryOneCompact] *)

Module QueryHit.
Record t : Type := mk {
  cityId : Z; name : string; countryId : Z; id : Z; number : Z;
  y : Z; xs : Z; xe : Z; format : string
}.
End QueryHit.

(** [Math.floor(dx / s)].  With [s = 0] the quotient is [Infinity] or [NaN]
    and there is no integer to return. *)
Definition floorQuot (dx s : Z) : option Z :=
  if s =? 0 then None else Some (dx / s).

(** Lines 274-296: the loop over the runs of a Tier-2 blob.  When [s = 0]
    the run is passed over: [Infinity >= r.k] takes the [continue], and with
    [NaN] the test [x >= xs && x <= xe] is false. *)
Fixpoint queryRuns (b : V2Blob.t) (x y : Z) (seq : list V2Run.t)
  : option QueryHit.t :=
  match seq with
  | [] => None
  | r :: seq' =>
      if x <? V2Run.x0 r then queryRuns b x y seq'
      else
        let dx := x - V2Run.x0 r in
        match floorQuot dx (V2Blob.s b) with
        | None => queryRuns b x y seq'
        | Some q =>
            if (q <? 0) || (q >=? V2Run.k r) then queryRuns b x y seq'
            else
              let xs := V2Run.x0 r + q * V2Blob.s b in
              let xe := xs + (V2Blob.s b - 1) in
              if (x >=? xs) && (x <=? xe) then
                Some (QueryHit.mk (V2Blob.c b) (V2Blob.n b) (V2Blob.id b)
                        (V2Run.id0 r + q) (V2Run.n0 r + q) y xs xe "V2")
              else queryRuns b x y seq'
        end
  end.

(** Lines 299-314: the scan of the entries of a Tier-1 blob. *)
Fixpoint queryEntries (b : V1Blob.t) (x y : Z) (es : list V1Entry.t)
  : option QueryHit.t :=
  match es with
  | [] => None
  | e :: es' =>
      if negb (V1Entry.y e =? y) then queryEntries b x y es'
      else if (x >=? V1Entry.xs e) && (x <=? V1Entry.xe e) then
        Some (QueryHit.mk (V1Blob.c b) (V1Blob.n b) (V1Blob.id b)
                (V1Entry.id e) (V1Entry.n e) (V1Entry.y e) (V1Entry.xs e)
                (V1Entry.xe e) "V1")
      else queryEntries b x y es'
  end.

(** Lines 270-317: the loop over the blobs; falling out of it returns
    [null]. *)
Fixpoint queryLoop (arr : list JsValue) (x y : Z) : option QueryHit.t :=
  match arr with
  | [] => None
  | blob :: arr' =>
      if isV2 blob then
        let b := asV2 blob in
        if negb (y =? V2Blob.y b) then queryLoop arr' x y
        else match queryRuns b x y (V2Blob.seq b) with
             | Some hit => Some hit
             | None => queryLoop arr' x y
             end
      else if isV1 blob then
        let b := asV1 blob in
        match queryEntries b x y (V1Blob.e b) with
        | Some hit => Some hit
        | None => queryLoop arr' x y
        end
      else queryLoop arr' x y
  end.

(** The function has no [throw]: every call returns, a hit or [null]. *)
Definition queryOneCompact (compact : Compact) (x y : Z)
  : Result (option QueryHit.t) :=
  Ok (queryLoop (blobsOf compact) x y).

(** ** A collation to run the codec with *)

(** The order of the code units, as [-1], [0] or [1]. *)
Definition codeUnitCompare (a b : string) : Z :=
  match String.compare a b with
  | Lt => -1
  | Eq => 0
  | Gt => 1
  end.

Definition codeUnits : Collation := {| localeCompare := codeUnitCompare |}.

(** A collation that passes over the control character U+007F, as the
    default collation of the host does, and follows the code units
    otherwise: it returns [0] on ["A"] against ["A"] followed by U+007F. *)
Fixpoint stripDel (s : string) : string :=
  match s with
  | EmptyString => EmptyString
  | String ch s' =>
      if Ascii.eqb ch "127"%char then stripDel s'
      else String ch (stripDel s')
  end.

Definition ignoringDel : Collation :=
  {| localeCompare := fun a b => codeUnitCompare (stripDel a) (stripDel b) |}.


(** ** Comparators *)

(** What [Array.prototype.sort] asks of a comparator to give a defined
    order: swapping the arguments flips the sign, and "not greater" is
    transitive. *)
Class Consistent {A : Type} (cmp : A -> A -> Z) : Prop := {
  cmp_flip : forall a b, Z.sgn (cmp b a) = - Z.sgn (cmp a b);
  cmp_trans : forall a b c, cmp a b <= 0 -> cmp b c <= 0 -> cmp a c <= 0
}.

(** A comparator that tells any two distinct values apart. *)
Definition Separating {A : Type} (cmp : A -> A -> Z) : Prop :=
  forall a b, cmp a b = 0 -> a = b.

(** The law of a collation: what the language asks of every
    [localeCompare]. *)
Class CollationOrder (C : Collation) : Prop :=
  collation_consistent :: Consistent localeCompare.

(** Telling names apart.  The language does not ask it of [localeCompare]:
    a host returns [0] on two spellings of one name, and then the groups of
    the two spellings are sorted by nothing but their order of arrival.  It
    is a condition on the names of an input, never a law of the collation:
    no two distinct names among [names] compare equal. *)
Definition apartNames {C : Collation} (names : list string) : Prop :=
  forall a b, In a names -> In b names -> localeCompare a b = 0 -> a = b.

(** The order a comparator sorts into. *)
Definition notAfter {A : Type} (cmp : A -> A -> Z) (a b : A) : Prop :=
  cmp a b <= 0.


(** ** Keys *)

(** Whether the separator of the key strings occurs in a string. *)
Fixpoint hasBar (s : string) : bool :=
  match s with
  | EmptyString => false
  | String ch s' => Ascii.eqb ch "|"%char || hasBar s'
  end.

(** The group key and the sub-key as tuples, next to the strings the source
    builds of them. *)
Definition metaOf (r : RawRow.t) : Z * string * Z :=
  (RawRow.cityId r, RawRow.name r, RawRow.countryId r).

Definition subOf (r : RawRow.t) : Z * Z * Z :=
  (RawRow.id r, RawRow.number r, Coord.tileY (RawRow.coord r)).

(** ** Grouping in closed form *)

(** Both maps of [rowsToV1] are filled by the same scheme: look the key up,
    start a value if it is new, update the value with the row, store it.
    [stepBy] is that scheme; [groupedBy] is what folding it over the rows
    comes to: one binding per key, in the order of first occurrence, whose
    value has seen the rows of its key in input order. *)
Section GroupBy.
Context {R G : Type} (key : R -> string) (init : R -> G)
  (upd : G -> R -> G).

Definition stepBy (m : JsMap G) (r : R) : JsMap G :=
  mapSet (key r)
    (upd (match mapGet (key r) m with Some g => g | None => init r end) r)
    m.

Definition sameKey (r r' : R) : bool := String.eqb (key r') (key r).

Fixpoint firstBy (rows : list R) : list R :=
  match rows with
  | [] => []
  | r :: rs => r :: filter (fun r' => negb (sameKey r r')) (firstBy rs)
  end.

Definition groupedBy (rows : list R) : JsMap G :=
  map (fun r => (key r, fold_left upd (filter (sameKey r) rows) (init r)))
    (firstBy rows).
End GroupBy.

(** The two maps of [rowsToV1] in closed form. *)

(** The columns collected under the sub-key [k], in input order. *)
Definition columnsAt (k : string) (rs : list RawRow.t) : list Z :=
  map (fun r => Coord.tileX (RawRow.coord r))
    (filter (fun r => String.eqb (bucketKeyOf r) k) rs).

(** The bucket built from the rows [rs] of one group. *)
Definition bucketsOf (rs : list RawRow.t) : JsMap (list Z) :=
  map (fun k => (k, columnsAt k rs))
    (map bucketKeyOf (firstBy bucketKeyOf rs)).

(** The sorted entries of the group whose rows are [rs]. *)
Definition entriesOf (rs : list RawRow.t) : list V1Entry.t :=
  sortBy cmpEntry (flat_map bucketEntries (bucketsOf rs)).

(** The rows of [rows] in the group of [r], and the blob of that group. *)
Definition groupMembers (rows : list RawRow.t) (r : RawRow.t)
  : list RawRow.t :=
  filter (sameKey metaKeyOf r) rows.

Definition groupOf (rows : list RawRow.t) (r : RawRow.t) : V1Blob.t :=
  V1Blob.mk (RawRow.cityId r) (RawRow.name r) (RawRow.countryId r)
    (entriesOf (groupMembers rows r)).

(** The blobs before [blobs.sort], in the insertion order of the map. *)
Definition groupBlobs (rows : list RawRow.t) : list V1Blob.t :=
  map (groupOf rows) (firstBy metaKeyOf rows).

(** ** Expansion *)

(** The rows the decoder pushes for one entry of a Tier-1 blob with the
    metadata [c], [n], [id] (the body of the loop of lines 221-232). *)
Definition entryRows (c : Z) (n : string) (id : Z) (entry : V1Entry.t)
  : list RawRow.t :=
  map (fun x =>
         RawRow.mk (V1Entry.id entry) c n (V1Entry.n entry) id
           (Coord.mk x (V1Entry.y entry)))
    (zrange (V1Entry.xs entry) (V1Entry.xe entry)).

(** The rows pushed for a blob of the encoder's output, and for a whole
    output, before the final sort. *)
Definition expandBlob (b : Blob) : list RawRow.t :=
  match b with
  | BlobV1 b1 => expandV1 b1
  | BlobV2 b2 => expandV2 b2
  end.

(** ** Progression runs, as the design describes them *)

(** The step from [prev] to [cur] keeps a run going: the start column
    advances by the stride, the identifier and the number by one. *)
Definition stepOK (s : Z) (prev cur : V1Entry.t) : bool :=
  (V1Entry.xs cur =? V1Entry.xs prev + s)
  && (V1Entry.id cur =? V1Entry.id prev + 1)
  && (V1Entry.n cur =? V1Entry.n prev + 1).

(** Walking the sorted entries: [first] opened the current run, which has
    [count] members so far, the last of them [prev].  A step that does not
    qualify closes the run and opens the next one. *)
Fixpoint runsFrom (s : Z) (first : V1Entry.t) (count : Z)
  (prev : V1Entry.t) (rest : list V1Entry.t) : list V2Run.t :=
  match rest with
  | [] =>
      [V2Run.mk (V1Entry.xs first) count (V1Entry.id first)
         (V1Entry.n first)]
  | cur :: rest' =>
      if stepOK s prev cur then runsFrom s first (count + 1) cur rest'
      else V2Run.mk (V1Entry.xs first) count (V1Entry.id first)
             (V1Entry.n first)
           :: runsFrom s cur 1 cur rest'
  end.

Definition maximalRuns (s : Z) (es : list V1Entry.t) : list V2Run.t :=
  match es with
  | [] => []
  | e :: rest => runsFrom s e 1 e rest
  end.

(** The steps of the sorted sequence that do not qualify. *)
Fixpoint breaks (s : Z) (es : list V1Entry.t) : nat :=
  match es with
  | prev :: ((cur :: _) as rest) =>
      (if stepOK s prev cur then 0 else 1) + breaks s rest
  | _ => 0
  end.

(** The Tier-2 preconditions on a group, for a row [y] and a stride [s]. *)
Definition tier2Shape (y s : Z) (e : V1Entry.t) : Prop :=
  V1Entry.y e = y /\ V1Entry.xe e - V1Entry.xs e + 1 = s.

(** The rows of the [i]-th member of a run of the blob [b]. *)
Definition memberRows (b : V2Blob.t) (r : V2Run.t) (i : Z) : list RawRow.t :=
  let xs := V2Run.x0 r + i * V2Blob.s b in
  let xe := xs + (V2Blob.s b - 1) in
  map (fun x =>
         RawRow.mk (V2Run.id0 r + i) (V2Blob.c b) (V2Blob.n b)
           (V2Run.n0 r + i) (V2Blob.id b) (Coord.mk x (V2Blob.y b)))
    (zrange xs xe).

(** ** The canonical order, as the design states it *)

(** Ascending by [(cityId, countryId, name, tileY, tileX, id, number)]:
    the first key that differs decides. *)
Definition canonLe {C : Collation} (a b : RawRow.t) : Prop :=
  RawRow.cityId a < RawRow.cityId b \/
  RawRow.cityId a = RawRow.cityId b /\
  (RawRow.countryId a < RawRow.countryId b \/
   RawRow.countryId a = RawRow.countryId b /\
   (localeCompare (RawRow.name a) (RawRow.name b) < 0 \/
    localeCompare (RawRow.name a) (RawRow.name b) = 0 /\
    (Coord.tileY (RawRow.coord a) < Coord.tileY (RawRow.coord b) \/
     Coord.tileY (RawRow.coord a) = Coord.tileY (RawRow.coord b) /\
     (Coord.tileX (RawRow.coord a) < Coord.tileX (RawRow.coord b) \/
      Coord.tileX (RawRow.coord a) = Coord.tileX (RawRow.coord b) /\
      (RawRow.id a < RawRow.id b \/
       RawRow.id a = RawRow.id b /\
       RawRow.number a <= RawRow.number b))))).

(** Sorting a record sequence into the canonical order. *)
Definition canonicalSort {C : Collation} (rows : list RawRow.t)
  : list RawRow.t :=
  sortBy cmpRow rows.

(** ** Sample inputs *)

Definition sampleRow (id number x y : Z) : RawRow.t :=
  RawRow.mk id 1 "A" number 9 (Coord.mk x y).

(** One place on four adjacent tiles of row 5. *)
Definition scenario : list RawRow.t :=
  [sampleRow 1 1 0 5; sampleRow 1 1 1 5; sampleRow 1 1 2 5;
   sampleRow 1 1 3 5].

(** Two places on the same tile. *)
Definition overlapping : list RawRow.t :=
  [sampleRow 1 1 0 5; sampleRow 2 2 0 5].

(** The same record given twice. *)
Definition duplicated : list RawRow.t :=
  [sampleRow 1 1 0 5; sampleRow 1 1 0 5].

(** The key string of a blob, as [groupStep] renders it of a row. *)
Definition blobKeyOf (b : V1Blob.t) : string :=
  (numToString (V1Blob.c b) ++ "|" ++ V1Blob.n b ++ "|"
     ++ numToString (V1Blob.id b))%string.

(** Groups on row 5 with intervals of width 4: three entries in
    progression and a fourth apart; and two entries that do not progress. *)
Definition stridedGroup : V1Blob.t :=
  V1Blob.mk 1 "A" 9
    [V1Entry.mk 1 1 5 0 3; V1Entry.mk 2 2 5 4 7; V1Entry.mk 3 3 5 8 11;
     V1Entry.mk 9 9 5 20 23].

Definition scatteredGroup : V1Blob.t :=
  V1Blob.mk 1 "A" 9 [V1Entry.mk 1 1 5 0 3; V1Entry.mk 5 5 5 8 11].

(** A group on two rows, and a group with no entries. *)
Definition twoRowGroup : V1Blob.t :=
  V1Blob.mk 1 "A" 9 [V1Entry.mk 1 1 5 0 3; V1Entry.mk 2 2 6 4 7].

Definition emptyGroup : V1Blob.t := V1Blob.mk 1 "A" 9 [].

(** ** Sample documents *)

(** An object with neither an array [seq] nor an array [e]. *)
Definition shapeless : JsValue := JsObj (JsBlob.mk 1 "A" 9 0 0 None None).

(** The Tier-1 blob of [scenario]. *)
Definition scenarioV1 : V1Blob.t :=
  V1Blob.mk 1 "A" 9 [V1Entry.mk 1 1 5 0 3].

(** An object that carries both arrays: the run covers columns 0-3 of row 5
    for place 1, the entry columns 0-3 of row 5 for place 7. *)
Definition twoShaped : JsBlob.t :=
  JsBlob.mk 1 "A" 9 5 4 (Some [V2Run.mk 0 1 1 1])
    (Some [V1Entry.mk 7 7 5 0 3]).

(** The object [o] with its [e] property replaced. *)
Definition withE (o : JsBlob.t) (e' : option (list V1Entry.t)) : JsBlob.t :=
  JsBlob.mk (JsBlob.c o) (JsBlob.n o) (JsBlob.id o) (JsBlob.y o)
    (JsBlob.s o) (JsBlob.seq o) e'.

(** ** The decoder loop in closed form *)

(** A blob one of the guards accepts, and the rows the loop pushes for it. *)
Definition knownShape (blob : JsValue) : bool := isV2 blob || isV1 blob.

Definition pushedRows (blob : JsValue) : list RawRow.t :=
  if isV2 blob then expandV2 (asV2 blob) else expandV1 (asV1 blob).

(** ** Coverage of a column by the entries of a group *)

Definition Coord_eq_dec (a b : Coord.t) : {a = b} + {a <> b}.
Proof. decide equality; apply Z.eq_dec. Defined.

Definition RawRow_eq_dec (a b : RawRow.t) : {a = b} + {a <> b}.
Proof.
  decide equality;
    first [apply Z.eq_dec | apply string_dec | apply Coord_eq_dec].
Defined.

(** The entry [e] is for the place [(id, n)] on row [y] and its interval
    holds column [x]. *)
Definition entryCovers (id n y x : Z) (e : V1Entry.t) : bool :=
  (V1Entry.id e =? id) && (V1Entry.n e =? n) && (V1Entry.y e =? y)
  && (V1Entry.xs e <=? x) && (x <=? V1Entry.xe e).

(** How many of the entries [es] cover the tile of the record [r]. *)
Definition coverCount (es : list V1Entry.t) (r : RawRow.t) : nat :=
  List.length
    (filter
       (entryCovers (RawRow.id r) (RawRow.number r)
          (Coord.tileY (RawRow.coord r)) (Coord.tileX (RawRow.coord r)))
       es).

(** The blob [b] is the group of the record [r]. *)
Definition blobOfRow (b : V1Blob.t) (r : RawRow.t) : Prop :=
  metaOf r = (V1Blob.c b, V1Blob.n b, V1Blob.id b).

(** Every tile of the input is covered by exactly one entry of its
    group. *)
Definition coveredOnce {C : Collation} (rows : list RawRow.t) : Prop :=
  forall b r,
    In b (rowsToV1 rows) -> In r rows -> blobOfRow b r ->
    coverCount (V1Blob.e b) r = 1%nat.

(** ** Queries against decoded records *)

(** The record [r] lies on the tile [(x, y)]. *)
Definition covers (r : RawRow.t) (x y : Z) : Prop :=
  Coord.tileX (RawRow.coord r) = x /\ Coord.tileY (RawRow.coord r) = y.

(** The hit [h] carries the [(id, number)] of the record [r]. *)
Definition samePlace (h : QueryHit.t) (r : RawRow.t) : Prop :=
  QueryHit.id h = RawRow.id r /\ QueryHit.number h = RawRow.number r.

(** The hit [h] describes the record [r]: its [(id, number)] and its
    group. *)
Definition hitMatches (h : QueryHit.t) (r : RawRow.t) : Prop :=
  samePlace h r
  /\ QueryHit.cityId h = RawRow.cityId r /\ QueryHit.name h = RawRow.name r
  /\ QueryHit.countryId h = RawRow.countryId r.

(** The tile [x] lies in the [i]-th member of the run [r] of the blob. *)
Definition inMember (b : V2Blob.t) (r : V2Run.t) (i x : Z) : Prop :=
  0 <= i < V2Run.k r
  /\ V2Run.x0 r + i * V2Blob.s b <= x
     <= V2Run.x0 r + i * V2Blob.s b + (V2Blob.s b - 1).

(** What the resolver finds in one blob of the encoder's output. *)
Definition queryBlob (b : Blob) (x y : Z) : option QueryHit.t :=
  match b with
  | BlobV1 b1 => queryEntries b1 x y (V1Blob.e b1)
  | BlobV2 b2 =>
      if y =? V2Blob.y b2 then queryRuns b2 x y (V2Blob.seq b2) else None
  end.

(** Query/decode agreement read record by record: the hit at [(x, y)]
    carries the [(id, number)] of every decoded record on that tile, and
    there is no hit when no decoded record is on it. *)
Definition queryMatchesEveryRecord {C : Collation} (rows : list RawRow.t)
  (s x y : Z) : Prop :=
  let doc := payload (compactFromRows rows s) in
  forall decoded,
    expandCompact doc = Ok decoded ->
    (forall r, In r decoded -> covers r x y ->
               exists h, queryOneCompact doc x y = Ok (Some h)
                         /\ samePlace h r)
    /\ ((forall r, In r decoded -> ~ covers r x y) ->
        queryOneCompact doc x y = Ok None).

(** ** Names that compare equal *)

(** The name ["A"] followed by U+007F, and records of the two spellings. *)
Definition delName : string :=
  String "A"%char (String "127"%char EmptyString).

Definition namedRow (name : string) (x : Z) : RawRow.t :=
  RawRow.mk 1 1 name 1 9 (Coord.mk x 5).

Definition twoSpellings : list RawRow.t :=
  [namedRow "A" 0; namedRow delName 1; namedRow "A" 1].

Definition twoSpellingsShuffled : list RawRow.t :=
  [namedRow delName 1; namedRow "A" 0; namedRow "A" 1].

(** The round trip read on sequences: the decoded records and the input
    records are the same sequence once both are sorted. *)
Definition roundTripsInOrder {C : Collation} (rows : list RawRow.t)
  (s : Z) : Prop :=
  forall decoded,
    expandCompact (payload (compactFromRows rows s)) = Ok decoded ->
    canonicalSort decoded = canonicalSort rows.

(** Two documents that hold the same records decode to the same
    sequence. *)
Definition sameRecordsSameOutput {C : Collation} (doc doc' : Compact)
  : Prop :=
  forall out out',
    expandCompact doc = Ok out -> expandCompact doc' = Ok out' ->
    Permutation out out' -> out' = out.

(** Encoding a reordering of the records gives the identical document. *)
Definition shuffleInvariant {C : Collation} (rows rows' : list RawRow.t)
  (s : Z) : Prop :=
  Permutation rows rows' -> compactFromRows rows' s = compactFromRows rows s.

(** ** The interval builder on records that may lack fields *)

(** [rowsToV1] as it runs on what [JSON.parse] returns: an object in which
    any of the required properties may be absent.  An absent property reads
    as [undefined] ([None]); a template literal renders it as the text
    ["undefined"], [Number] of that text is [NaN], and reading a property
    of an absent [coord] throws a [TypeError].

    Which pairs [sort] passes to its comparator, and in which order, is
    the engine's choice; the comparator of the blobs can throw, so the
    engine is a parameter here ([SortEngine]), with the laws the proofs
    use ([SortLaws]). *)
Module Loose.

Inductive jsnum : Type :=
| Num (z : Z)
| NaN.

Module Coord.
Record t : Type := mk { tileX : option Z; tileY : option Z }.
End Coord.

Module RawRow.
Record t : Type := mk {
  id : option Z;
  cityId : option Z;
  name : option string;
  number : option Z;
  countryId : option Z;
  coord : option Coord.t
}.
End RawRow.

Module V1Entry.
Record t : Type := mk {
  id : jsnum; n : jsnum; y : jsnum; xs : option Z; xe : option Z
}.
End V1Entry.

Module V1Blob.
Record t : Type := mk {
  c : option Z; n : option string; id : option Z; e : list V1Entry.t
}.
End V1Blob.

Module Group.
Record t : Type := mk {
  c : option Z; n : option string; id : option Z;
  bucket : JsMap (list (option Z))
}.
End Group.

(** A value inside a template literal. *)
Definition tplNum (v : option Z) : string :=
  match v with
  | Some z => numToString z
  | None => "undefined"
  end.

Definition tplStr (v : option string) : string :=
  match v with
  | Some s => s
  | None => "undefined"
  end.

Definition typeError : string :=
  "TypeError: Cannot read properties of undefined".

(** A required property is absent. *)
Definition malformed (r : RawRow.t) : Prop :=
  RawRow.id r = None \/ RawRow.cityId r = None \/ RawRow.name r = None
  \/ RawRow.number r = None \/ RawRow.countryId r = None
  \/ match RawRow.coord r with
     | None => True
     | Some co => Coord.tileX co = None \/ Coord.tileY co = None
     end.

(** One iteration of the loop of lines 102-113: the group is looked up, and
    stored if it is new, before [r.coord.tileY] is read. *)
Definition groupStep (groups : JsMap Group.t) (r : RawRow.t)
  : Result (JsMap Group.t) :=
  let metaKey :=
    (tplNum (RawRow.cityId r) ++ "|" ++ tplStr (RawRow.name r) ++ "|"
       ++ tplNum (RawRow.countryId r))%string in
  let g := match mapGet metaKey groups with
           | Some g => g
           | None => Group.mk (RawRow.cityId r) (RawRow.name r)
                       (RawRow.countryId r) []
           end in
  match RawRow.coord r with
  | None => Throw typeError
  | Some co =>
      let key :=
        (tplNum (RawRow.id r) ++ "|" ++ tplNum (RawRow.number r) ++ "|"
           ++ tplNum (Coord.tileY co))%string in
      let arr := match mapGet key (Group.bucket g) with
                 | Some a => a
                 | None => []
                 end in
      Ok (mapSet metaKey
            (Group.mk (Group.c g) (Group.n g) (Group.id g)
               (mapSet key (arr ++ [Coord.tileX co]) (Group.bucket g)))
            groups)
  end.

(** The loop of lines 102-113 from the map [groups] on. *)
Fixpoint groupLoop (rows : list RawRow.t) (groups : JsMap Group.t)
  : Result (JsMap Group.t) :=
  match rows with
  | [] => Ok groups
  | r :: rows' =>
      match groupStep groups r with
      | Ok groups' => groupLoop rows' groups'
      | Throw msg => Throw msg
      end
  end.

(** [Number(s)]: the decimal integer literals and the empty string are
    numbers, the text ["undefined"] is not. *)
Definition Number (s : string) : jsnum :=
  match s with
  | EmptyString => Num 0
  | _ => match NilZero.int_of_string s with
         | Some d => Num (Z.of_int d)
         | None => NaN
         end
  end.

(** [xsArr.slice().sort((a, b) => a - b)]: [sort] moves the [undefined]
    elements to the end without comparing them. *)
Definition definedOnes (l : list (option Z)) : list Z :=
  flat_map (fun v => match v with Some z => [z] | None => [] end) l.

Definition undefinedOnes (l : list (option Z)) : list (option Z) :=
  filter (fun v => match v with Some _ => false | None => true end) l.

Definition sortColumns (l : list (option Z)) : list (option Z) :=
  map Some (sortBy cmpNum (definedOnes l)) ++ undefinedOnes l.

(** [cur === prev + 1]. *)
Definition isNext (cur prev : option Z) : bool :=
  match cur, prev with
  | Some c, Some p => c =? p + 1
  | _, _ => false
  end.

(** Lines 125-137; the last push is guarded by [start !== undefined]. *)
Fixpoint mergeLoop (mk : option Z -> option Z -> V1Entry.t)
  (start prev : option Z) (rest : list (option Z)) : list V1Entry.t :=
  match rest with
  | [] => match start with
          | Some _ => [mk start prev]
          | None => []
          end
  | cur :: rest' =>
      if isNext cur prev then mergeLoop mk start cur rest'
      else mk start prev :: mergeLoop mk cur cur rest'
  end.

Definition mergeRuns (mk : option Z -> option Z -> V1Entry.t)
  (xs : list (option Z)) : list V1Entry.t :=
  mergeLoop mk (hd None xs) (hd None xs) (tl xs).

Definition bucketEntries (kv : string * list (option Z))
  : list V1Entry.t :=
  let parts := split "|"%char (fst kv) in
  let rid := Number (nth 0 parts "") in
  let n := Number (nth 1 parts "") in
  let y := Number (nth 2 parts "") in
  let xs := sortColumns (snd kv) in
  mergeRuns (fun start prev => V1Entry.mk rid n y start prev) xs.

(** Arithmetic of the comparators. *)
Definition toNumber (v : option Z) : jsnum :=
  match v with
  | Some z => Num z
  | None => NaN
  end.

Definition sub (a b : jsnum) : jsnum :=
  match a, b with
  | Num x, Num y => Num (x - y)
  | _, _ => NaN
  end.

Definition truthy (a : jsnum) : bool :=
  match a with
  | Num z => negb (z =? 0)
  | NaN => false
  end.

Definition or (a b : jsnum) : jsnum := if truthy a then a else b.

(** [sort] reads a comparator result [NaN] as [+0]. *)
Definition order (v : jsnum) : Z :=
  match v with
  | Num z => z
  | NaN => 0
  end.

Definition cmpEntry (a b : V1Entry.t) : jsnum :=
  or (or (or (or (sub (V1Entry.id a) (V1Entry.id b))
                (sub (V1Entry.n a) (V1Entry.n b)))
            (sub (V1Entry.y a) (V1Entry.y b)))
        (sub (toNumber (V1Entry.xs a)) (toNumber (V1Entry.xs b))))
    (sub (toNumber (V1Entry.xe a)) (toNumber (V1Entry.xe b))).

(** [Array.prototype.sort(comparefn)] on an array without holes or
    [undefined] elements: the sorted array, or what the comparator threw. *)
Class SortEngine : Type :=
  arraySort :
    forall A : Type, (A -> A -> Result jsnum) -> list A -> Result (list A).

(** What the proofs ask of [sort]: an array of at most one element is
    returned without a call of the comparator; what [sort] throws, the
    comparator threw on two elements of the array; what it returns is a
    rearrangement of the array; and on elements that the comparator orders
    consistently and without throwing it is the stable sort.  The last
    three are the language's; the first holds of the engine the script
    runs on, which returns an array shorter than two as it is. *)
Class SortLaws (E : SortEngine) : Prop := {
  sort_short :
    forall (A : Type) (cmp : A -> A -> Result jsnum) (l : list A),
      (List.length l <= 1)%nat -> arraySort A cmp l = Ok l;
  sort_throws :
    forall (A : Type) (cmp : A -> A -> Result jsnum) (l : list A) msg,
      arraySort A cmp l = Throw msg ->
      exists a b, In a l /\ In b l /\ cmp a b = Throw msg;
  sort_perm :
    forall (A : Type) (cmp : A -> A -> Result jsnum) (l l' : list A),
      arraySort A cmp l = Ok l' -> Permutation l' l;
  sort_stable :
    forall (A : Type) (cmp : A -> A -> Result jsnum) (f : A -> A -> Z)
           (l : list A),
      Consistent f ->
      (forall a b, In a l -> In b l ->
                   exists v, cmp a b = Ok v /\ order v = f a b) ->
      arraySort A cmp l = Ok (sortBy f l)
}.

(** An engine: it takes the elements in array order and puts each among
    the sorted elements before it, in front of the first one it compares
    less than, calling [comparefn(new, old)].  On two elements this is the
    one call [comparefn(a[1], a[0])] of the engine the source runs on. *)
Section Insertion.
Context {A : Type} (cmp : A -> A -> Result jsnum).

Fixpoint place (p : A) (sorted : list A) : Result (list A) :=
  match sorted with
  | [] => Ok [p]
  | y :: sorted' =>
      match cmp p y with
      | Throw msg => Throw msg
      | Ok v =>
          if order v <? 0 then Ok (p :: sorted)
          else match place p sorted' with
               | Ok r => Ok (y :: r)
               | Throw msg => Throw msg
               end
      end
  end.

Fixpoint insertAll (l sorted : list A) : Result (list A) :=
  match l with
  | [] => Ok sorted
  | p :: l' =>
      match place p sorted with
      | Ok sorted' => insertAll l' sorted'
      | Throw msg => Throw msg
      end
  end.
End Insertion.

Definition insertion : SortEngine := fun A cmp l => insertAll cmp l [].

Section Encoder.
Context {C : Collation} {E : SortEngine}.

(** Lines 116-139 for one group.  The comparator of [entries.sort] is
    arithmetic alone and throws nothing. *)
Definition groupToBlob (g : Group.t) : Result V1Blob.t :=
  match arraySort _ (fun a b => Ok (cmpEntry a b))
          (flat_map bucketEntries (Group.bucket g)) with
  | Ok entries =>
      Ok (V1Blob.mk (Group.c g) (Group.n g) (Group.id g) entries)
  | Throw msg => Throw msg
  end.

(** Lines 115-140: the loop over [groups.values()]. *)
Fixpoint blobsLoop (gs : list Group.t) : Result (list V1Blob.t) :=
  match gs with
  | [] => Ok []
  | g :: gs' =>
      match groupToBlob g with
      | Throw msg => Throw msg
      | Ok b =>
          match blobsLoop gs' with
          | Ok bs => Ok (b :: bs)
          | Throw msg => Throw msg
          end
      end
  end.

(** [a.c - b.c || a.id - b.id || a.n.localeCompare(b.n)]: the last operand
    is evaluated when the first two are falsy, and reads a property of
    [a.n]. *)
Definition cmpBlob (a b : V1Blob.t) : Result jsnum :=
  let k := or (sub (toNumber (V1Blob.c a)) (toNumber (V1Blob.c b)))
              (sub (toNumber (V1Blob.id a)) (toNumber (V1Blob.id b))) in
  if truthy k then Ok k
  else match V1Blob.n a with
       | None => Throw typeError
       | Some na => Ok (Num (localeCompare na (tplStr (V1Blob.n b))))
       end.

Definition rowsToV1 (rows : list RawRow.t) : Result (list V1Blob.t) :=
  match groupLoop rows [] with
  | Throw msg => Throw msg
  | Ok groups =>
      match blobsLoop (map snd groups) with
      | Throw msg => Throw msg
      | Ok blobs => arraySort _ cmpBlob blobs
      end
  end.

(** The encode path refuses every input that holds a malformed record. *)
Definition validatesInput (rows : list RawRow.t) : Prop :=
  (exists r, In r rows /\ malformed r) ->
  exists msg, rowsToV1 rows = Throw msg.
End Encoder.

(** What a record that has a [coord] is encoded as when it is alone: the
    missing numbers of the sub-key read [NaN], the missing parts of the
    group key are left [undefined], and without [tileX] there is no
    interval. *)
Definition loneBlob (r : RawRow.t) (co : Coord.t) : V1Blob.t :=
  V1Blob.mk (RawRow.cityId r) (RawRow.name r) (RawRow.countryId r)
    (match Coord.tileX co with
     | Some x =>
         [V1Entry.mk (toNumber (RawRow.id r)) (toNumber (RawRow.number r))
            (toNumber (Coord.tileY co)) (Some x) (Some x)]
     | None => []
     end).

(** A record with every property, and the same record without its [id]. *)
Definition complete : RawRow.t :=
  RawRow.mk (Some 1) (Some 1) (Some "A") (Some 1) (Some 9)
    (Some (Coord.mk (Some 0) (Some 5))).

Definition withoutId : RawRow.t :=
  RawRow.mk None (Some 1) (Some "A") (Some 1) (Some 9)
    (Some (Coord.mk (Some 0) (Some 5))).

Definition withoutCoord : RawRow.t :=
  RawRow.mk (Some 2) (Some 1) (Some "A") (Some 2) (Some 9) None.

Definition withoutTileX : RawRow.t :=
  RawRow.mk (Some 1) (Some 1) (Some "A") (Some 1) (Some 9)
    (Some (Coord.mk None (Some 5))).

Definition withoutName : RawRow.t :=
  RawRow.mk (Some 1) (Some 1) None (Some 1) (Some 9)
    (Some (Coord.mk (Some 0) (Some 5))).

End Loose.

(** A well-formed record as an object with every property present. *)
Definition looseRow (r : RawRow.t) : Loose.RawRow.t :=
  Loose.RawRow.mk (Some (RawRow.id r)) (Some (RawRow.cityId r))
    (Some (RawRow.name r)) (Some (RawRow.number r))
    (Some (RawRow.countryId r))
    (Some (Loose.Coord.mk (Some (Coord.tileX (RawRow.coord r)))
             (Some (Coord.tileY (RawRow.coord r))))).

Definition looseEntry (e : V1Entry.t) : Loose.V1Entry.t :=
  Loose.V1Entry.mk (Loose.Num (V1Entry.id e)) (Loose.Num (V1Entry.n e))
    (Loose.Num (V1Entry.y e)) (Some (V1Entry.xs e)) (Some (V1Entry.xe e)).

Definition looseBlob (b : V1Blob.t) : Loose.V1Blob.t :=
  Loose.V1Blob.mk (Some (V1Blob.c b)) (Some (V1Blob.n b))
    (Some (V1Blob.id b)) (map looseEntry (V1Blob.e b)).

(** Back from the loose values: an absent number read as [0], an absent
    name as the text ["undefined"].  On the image of [looseEntry] and
    [looseBlob] these undo them. *)
Definition tightNum (v : Loose.jsnum) : Z := Loose.order v.

Definition tightOpt (v : option Z) : Z :=
  match v with
  | Some z => z
  | None => 0
  end.

Definition tightEntry (e : Loose.V1Entry.t) : V1Entry.t :=
  V1Entry.mk (tightNum (Loose.V1Entry.id e)) (tightNum (Loose.V1Entry.n e))
    (tightNum (Loose.V1Entry.y e)) (tightOpt (Loose.V1Entry.xs e))
    (tightOpt (Loose.V1Entry.xe e)).

Definition tightBlob (b : Loose.V1Blob.t) : V1Blob.t :=
  V1Blob.mk (tightOpt (Loose.V1Blob.c b)) (Loose.tplStr (Loose.V1Blob.n b))
    (tightOpt (Loose.V1Blob.id b)) (map tightEntry (Loose.V1Blob.e b)).


(** Every group was started by a record and carries that record's name. *)
Definition namedGroups (groups : JsMap Loose.Group.t) : Prop :=
  Forall (fun kg => Loose.Group.n (snd kg) <> None) groups.

(** A map of the typed model as a map of the loose one. *)
Definition looseMap {V W : Type} (f : V -> W) (m : JsMap V) : JsMap W :=
  map (fun kv => (fst kv, f (snd kv))) m.

Definition looseGroup (g : Group.t) : Loose.Group.t :=
  Loose.Group.mk (Some (Group.c g)) (Some (Group.n g)) (Some (Group.id g))
    (looseMap (map Some) (Group.bucket g)).

(** ** Shape of the interval builder's output *)

(** The group key a blob carries. *)
Definition blobMeta (b : V1Blob.t) : Z * string * Z :=
  (V1Blob.c b, V1Blob.n b, V1Blob.id b).

(** Strictly ascending by [(c, id, n)], the keys of [blobs.sort]. *)
Definition blobLt {C : Collation} (a b : V1Blob.t) : Prop :=
  V1Blob.c a < V1Blob.c b \/
  V1Blob.c a = V1Blob.c b /\
  (V1Blob.id a < V1Blob.id b \/
   V1Blob.id a = V1Blob.id b /\
   localeCompare (V1Blob.n a) (V1Blob.n b) < 0).

(** Ascending by [(id, n, y, xs, xe)], the keys of [entries.sort]. *)
Definition entryLe (a b : V1Entry.t) : Prop :=
  V1Entry.id a < V1Entry.id b \/
  V1Entry.id a = V1Entry.id b /\
  (V1Entry.n a < V1Entry.n b \/
   V1Entry.n a = V1Entry.n b /\
   (V1Entry.y a < V1Entry.y b \/
    V1Entry.y a = V1Entry.y b /\
    (V1Entry.xs a < V1Entry.xs b \/
     V1Entry.xs a = V1Entry.xs b /\ V1Entry.xe a <= V1Entry.xe b))).

(** The record an entry of the blob [b] stands for at column [x]. *)
Definition recordAt (b : V1Blob.t) (e : V1Entry.t) (x : Z) : RawRow.t :=
  RawRow.mk (V1Entry.id e) (V1Blob.c b) (V1Blob.n b) (V1Entry.n e)
    (V1Blob.id b) (Coord.mk x (V1Entry.y e)).

(** Two intervals with at least one free column between them. *)
Definition apart (a b : V1Entry.t) : Prop :=
  V1Entry.xe a + 1 < V1Entry.xs b.

(** Two entries for the same place on the same row. *)
Definition sameSub (a b : V1Entry.t) : Prop :=
  V1Entry.id a = V1Entry.id b /\ V1Entry.n a = V1Entry.n b
  /\ V1Entry.y a = V1Entry.y b.

(** ** Shape of the progression compactor's output *)

(** The number of entries the runs stand for. *)
Definition runTotal (sq : list V2Run.t) : Z :=
  fold_right (fun r acc => V2Run.k r + acc) 0 sq.

(** The run [r] starts at the entry [e]. *)
Definition startsAt (r : V2Run.t) (e : V1Entry.t) : Prop :=
  V2Run.x0 r = V1Entry.xs e /\ V2Run.id0 r = V1Entry.id e
  /\ V2Run.n0 r = V1Entry.n e.

(** The group key of a blob of either tier. *)
Definition metaOfBlob (b : Blob) : Z * string * Z :=
  match b with
  | BlobV1 b1 => blobMeta b1
  | BlobV2 b2 => (V2Blob.c b2, V2Blob.n b2, V2Blob.id b2)
  end.

(** What the decoder and the resolver can rely on in a blob. *)
Definition wellFormedBlob (s : Z) (b : Blob) : Prop :=
  match b with
  | BlobV1 b1 =>
      V1Blob.e b1 <> []
      /\ Forall (fun e => V1Entry.xs e <= V1Entry.xe e) (V1Blob.e b1)
  | BlobV2 b2 =>
      V2Blob.s b2 = s /\ 1 <= s /\ V2Blob.seq b2 <> []
      /\ Forall (fun r => 1 <= V2Run.k r) (V2Blob.seq b2)
  end.

(** ** Documents of any provenance *)

(** The blob the loops of the decoder and of the resolver read in an element
    of the document: [seq] is tested first, then [e]; [None] when the
    element has neither array. *)
Definition readBlob (x : JsValue) : option Blob :=
  if isV2 x then Some (BlobV2 (asV2 x))
  else if isV1 x then Some (BlobV1 (asV1 x))
  else None.

(** The blobs read in a document, in document order. *)
Definition readable (arr : list JsValue) : list Blob :=
  flat_map (fun x => match readBlob x with Some b => [b] | None => [] end)
    arr.

(** The interval of the hit holds column [x] of row [y]. *)
Definition hitHolds (h : QueryHit.t) (x y : Z) : Prop :=
  QueryHit.xs h <= x <= QueryHit.xe h /\ QueryHit.y h = y.

(** The hit [h] names the group of the blob [b] and the tier it was read
    in; a Tier-2 hit is on the blob's row and as wide as its stride. *)
Definition hitFrom (h : QueryHit.t) (b : Blob) : Prop :=
  (QueryHit.cityId h, QueryHit.name h, QueryHit.countryId h) = metaOfBlob b
  /\ match b with
     | BlobV1 _ => QueryHit.format h = "V1"%string
     | BlobV2 b2 =>
         QueryHit.format h = "V2"%string
         /\ QueryHit.y h = V2Blob.y b2
         /\ QueryHit.xe h - QueryHit.xs h + 1 = V2Blob.s b2
     end.

(** A run of one interval of width 4, and a Tier-2 blob with stride 0. *)
Definition zeroStride : V2Blob.t :=
  V2Blob.mk 1 "A" 9 5 0 [V2Run.mk 0 3 1 1].

(** ** The worker pool: [runWithLimit] *)

(** [runWithLimit(items, limit, fn)] starts [max(1, limit)] workers over one
    shared counter [i].  A worker takes [idx = i++], leaves its loop when
    [idx >= items.length], and otherwise calls [fn(items[idx], idx)] and
    waits for the promise; a rejection is caught and goes to
    [console.error], and the worker takes the next index.

    When a promise settles is the environment's choice.  A schedule is the
    list of the workers resumed, in order; between two resumptions no code
    of the pool runs.  [fn] is an [async] function, as in the three callers:
    a call returns a promise and does not throw.  The limit is an integer.

    Reading [items[idx]] gives [None] exactly when [idx >= items.length]. *)
Module Pool.
Section Pool.
Context {T : Type}.
Variables (items : list T) (rejects : T -> nat -> bool).

(** A worker is suspended at [await fn(it, idx)], or past its loop. *)
Inductive worker : Type :=
| Awaiting (it : T) (idx : nat)
| Exited.

(** The counter [i], the array [workers], and what has happened so far:
    the calls made, the calls whose promise has settled, and the calls whose
    rejection was logged, each oldest first. *)
Record state : Type := mk {
  cursor : nat;
  workers : list worker;
  started : list (T * nat);
  settled : list (T * nat);
  logged : list (T * nat)
}.

Definition init : state := mk 0 [] [] [] [].

(** The head of the loop body, up to the [await]. *)
Definition enter (st : state) : state * worker :=
  let idx := cursor st in
  match nth_error items idx with
  | None =>
      (mk (S idx) (workers st) (started st) (settled st) (logged st), Exited)
  | Some it =>
      (mk (S idx) (workers st) (started st ++ [(it, idx)]) (settled st)
         (logged st),
       Awaiting it idx)
  end.

(** [workers.push(worker())]. *)
Definition spawn (st : state) : state :=
  let (st', w) := enter st in
  mk (cursor st') (workers st' ++ [w]) (started st') (settled st')
    (logged st').

(** [Math.max(1, limit)]. *)
Definition workerCount (limit : Z) : nat := Z.to_nat (Z.max 1 limit).

(** The state when [runWithLimit] reaches [await Promise.all(workers)]. *)
Definition start (limit : Z) : state :=
  Nat.iter (workerCount limit) spawn init.

Fixpoint setWorker (w : nat) (wk : worker) (ws : list worker)
  : list worker :=
  match ws, w with
  | [], _ => []
  | _ :: ws', O => wk :: ws'
  | x :: ws', S w' => x :: setWorker w' wk ws'
  end.

(** The promise the worker [w] waits for settles: the worker logs a
    rejection and goes round its loop.  [None] when that worker is not
    waiting. *)
Definition resume (st : state) (w : nat) : option state :=
  match nth_error (workers st) w with
  | Some (Awaiting it idx) =>
      let st1 :=
        mk (cursor st) (workers st) (started st)
          (settled st ++ [(it, idx)])
          (if rejects it idx then logged st ++ [(it, idx)] else logged st) in
      let (st2, wk) := enter st1 in
      Some (mk (cursor st2) (setWorker w wk (workers st2)) (started st2)
              (settled st2) (logged st2))
  | _ => None
  end.

Fixpoint run (st : state) (sched : list nat) : option state :=
  match sched with
  | [] => Some st
  | w :: sched' =>
      match resume st w with
      | Some st' => run st' sched'
      | None => None
      end
  end.

Definition exited (w : worker) : bool :=
  match w with
  | Exited => true
  | Awaiting _ _ => false
  end.

(** [Promise.all(workers)] is fulfilled: every worker has left its loop. *)
Definition finished (st : state) : bool := forallb exited (workers st).

(** The calls in flight. *)
Definition inflight (ws : list worker) : list (T * nat) :=
  flat_map (fun w => match w with
                     | Awaiting it idx => [(it, idx)]
                     | Exited => []
                     end) ws.

(** Every item with its index, in order. *)
Definition allCalls : list (T * nat) :=
  combine items (List.seq 0 (List.length items)).

Definition rejected (c : T * nat) : bool := rejects (fst c) (snd c).

(** What holds of the pool at every moment. *)
Definition invariant (st : state) : Prop :=
  started st = firstn (cursor st) allCalls
  /\ Permutation (inflight (workers st) ++ settled st) (started st)
  /\ cursor st
     = (List.length (workers st) + List.length (settled st))%nat
  /\ logged st = filter rejected (settled st).

(** With one worker: what has settled, then the call in flight. *)
Definition oneAtATime (st : state) : Prop :=
  exists w, workers st = [w] /\ started st = settled st ++ inflight [w].
End Pool.
End Pool.

(** Three files, the second of which fails. *)
Definition sampleFiles : list string := ["a.jsonl"; "b.jsonl"; "c.jsonl"].

Definition secondFails (file : string) (idx : nat) : bool := Nat.eqb idx 1.

(** ** Size of the encoding *)

(** The intervals of a Tier-1 blob, the runs of a Tier-2 blob. *)
Definition unitCount (b : Blob) : nat :=
  match b with
  | BlobV1 b1 => List.length (V1Blob.e b1)
  | BlobV2 b2 => List.length (V2Blob.seq b2)
  end.

Definition unitsOf (bs : list Blob) : nat := list_sum (map unitCount bs).

(** The pool over [sampleFiles] with two workers, after the calls on
    [b.jsonl] and [a.jsonl] have settled in that order, and after the call
    on [c.jsonl] has settled too. *)
Definition twoSettled : @Pool.state string :=
  Pool.mk 4 [Pool.Exited; Pool.Awaiting "c.jsonl" 2%nat]
    [("a.jsonl", 0%nat); ("b.jsonl", 1%nat); ("c.jsonl", 2%nat)]
    [("b.jsonl", 1%nat); ("a.jsonl", 0%nat)]
    [("b.jsonl", 1%nat)].

Definition allSettled : @Pool.state string :=
  Pool.mk 5 [Pool.Exited; Pool.Exited]
    [("a.jsonl", 0%nat); ("b.jsonl", 1%nat); ("c.jsonl", 2%nat)]
    [("b.jsonl", 1%nat); ("a.jsonl", 0%nat); ("c.jsonl", 2%nat)]
    [("b.jsonl", 1%nat)].

(** The pool over [sampleFiles] with one worker, after two calls have
    settled. *)
Definition oneByOne : @Pool.state string :=
  Pool.mk 3 [Pool.Awaiting "c.jsonl" 2%nat]
    [("a.jsonl", 0%nat); ("b.jsonl", 1%nat); ("c.jsonl", 2%nat)]
    [("a.jsonl", 0%nat); ("b.jsonl", 1%nat)]
    [("b.jsonl", 1%nat)].
(** * Properties *)

(** ** Comparators and the stable sort *)

Section SortTheory.
Context {A : Type} (cmp : A -> A -> Z).

Lemma insertSorted_perm (x : A) (l : list A) :
  Permutation (insertSorted cmp x l) (x :: l).
Proof.
  induction l as [|y l IH]; simpl.
  - apply Permutation_refl.
  - destruct (cmp x y <=? 0).
    + apply Permutation_refl.
    + eapply perm_trans; [apply perm_skip, IH | apply perm_swap].
Qed.

Lemma sortBy_perm (l : list A) : Permutation (sortBy cmp l) l.
Proof.
  induction l as [|x l IH]; simpl.
  - constructor.
  - eapply perm_trans; [apply insertSorted_perm | now apply perm_skip].
Qed.

Lemma sortBy_In (l : list A) (x : A) : In x (sortBy cmp l) <-> In x l.
Proof.
  split; apply Permutation_in; [|apply Permutation_sym]; apply sortBy_perm.
Qed.

Lemma sortBy_length (l : list A) :
  List.length (sortBy cmp l) = List.length l.
Proof. apply Permutation_length, sortBy_perm. Qed.

Context {HC : Consistent cmp}.

Lemma cmp_refl (a : A) : cmp a a = 0.
Proof. pose proof (cmp_flip a a). lia. Qed.

Lemma cmp_total (a b : A) : cmp a b <= 0 \/ cmp b a <= 0.
Proof. pose proof (cmp_flip a b). lia. Qed.

Lemma cmp_gt_flip (a b : A) : 0 < cmp a b -> cmp b a <= 0.
Proof. pose proof (cmp_flip a b). lia. Qed.

Lemma cmp_zero_flip (a b : A) : cmp a b = 0 -> cmp b a = 0.
Proof. pose proof (cmp_flip a b). lia. Qed.

Lemma insertSorted_sorted (x : A) (l : list A) :
  StronglySorted (notAfter cmp) l ->
  StronglySorted (notAfter cmp) (insertSorted cmp x l).
Proof.
  induction 1 as [|y l Hs IH Hy]; simpl.
  - repeat constructor.
  - destruct (cmp x y <=? 0) eqn:E.
    + apply Z.leb_le in E. constructor.
      * now constructor.
      * constructor; [exact E|].
        eapply Forall_impl; [|exact Hy].
        intros z Hz. eapply cmp_trans; eauto.
    + apply Z.leb_gt in E. constructor; [exact IH|].
      eapply Permutation_Forall;
        [apply Permutation_sym, insertSorted_perm|].
      constructor; [now apply cmp_gt_flip | exact Hy].
Qed.

Lemma sortBy_sorted (l : list A) : StronglySorted (notAfter cmp) (sortBy cmp l).
Proof.
  induction l as [|x l IH]; simpl.
  - constructor.
  - now apply insertSorted_sorted.
Qed.

(** A sorted list is left as it is. *)
Lemma sortBy_sorted_id (l : list A) :
  StronglySorted (notAfter cmp) l -> sortBy cmp l = l.
Proof.
  induction 1 as [|x l Hs IH Hx]; simpl; [reflexivity|].
  rewrite IH. destruct l as [|y l]; simpl; [reflexivity|].
  inversion Hx as [|? ? Hxy _]; subst.
  unfold notAfter in Hxy. apply Z.leb_le in Hxy. now rewrite Hxy.
Qed.

Lemma sortBy_idem (l : list A) : sortBy cmp (sortBy cmp l) = sortBy cmp l.
Proof. apply sortBy_sorted_id, sortBy_sorted. Qed.

(** Two sorted arrangements of the same elements coincide when the
    comparator separates the elements that occur. *)
Lemma sorted_perm_eq (l1 l2 : list A) :
  (forall a b, In a l1 -> In b l1 -> cmp a b = 0 -> a = b) ->
  StronglySorted (notAfter cmp) l1 -> StronglySorted (notAfter cmp) l2 ->
  Permutation l1 l2 -> l1 = l2.
Proof.
  revert l2. induction l1 as [|a l1 IH]; intros l2 Hsep H1 H2 HP.
  - now apply Permutation_nil in HP.
  - destruct l2 as [|b l2].
    + now apply Permutation_sym, Permutation_nil in HP.
    + inversion H1 as [|? ? H1' Ha]; subst.
      inversion H2 as [|? ? H2' Hb]; subst.
      assert (Hab : a = b).
      { assert (Hin_b : In b (a :: l1))
          by (eapply Permutation_in; [apply Permutation_sym, HP|now left]).
        assert (Hin_a : In a (b :: l2))
          by (eapply Permutation_in; [apply HP|now left]).
        destruct Hin_b as [->|Hin_b]; [reflexivity|].
        destruct Hin_a as [->|Hin_a]; [reflexivity|].
        rewrite Forall_forall in Ha, Hb.
        pose proof (Ha _ Hin_b) as Hle1. pose proof (Hb _ Hin_a) as Hle2.
        unfold notAfter in Hle1, Hle2.
        pose proof (cmp_flip a b).
        apply Hsep; [now left | now right | lia]. }
      subst b. f_equal.
      apply IH; auto.
      * intros x y Hx Hy. apply Hsep; now right.
      * now apply Permutation_cons_inv in HP.
Qed.

Lemma sortBy_perm_eq (l l' : list A) :
  (forall a b, In a l -> In b l -> cmp a b = 0 -> a = b) ->
  Permutation l l' -> sortBy cmp l = sortBy cmp l'.
Proof.
  intros Hsep HP. apply sorted_perm_eq.
  - intros a b Ha Hb. apply Hsep; now apply sortBy_In.
  - apply sortBy_sorted.
  - apply sortBy_sorted.
  - eapply perm_trans; [apply sortBy_perm|].
    eapply perm_trans; [exact HP|apply Permutation_sym, sortBy_perm].
Qed.
End SortTheory.

(** Sorting the sorted parts of a list is sorting the list: a stable sort
    by a consistent comparator composes with itself. *)
Section StableSort.
Context {A : Type} (cmp : A -> A -> Z) {HC : Consistent cmp}.

Lemma cmp_flip_lt (a b : A) : 0 < cmp a b <-> cmp b a < 0.
Proof.
  pose proof (cmp_flip (cmp := cmp) a b).
  pose proof (Z.sgn_spec (cmp a b)). pose proof (Z.sgn_spec (cmp b a)).
  lia.
Qed.

Lemma insertSorted_cons (x y : A) (l : list A) :
  insertSorted cmp x (y :: l) =
  if cmp x y <=? 0 then x :: y :: l else y :: insertSorted cmp x l.
Proof. reflexivity. Qed.

(** An element and one that sorts strictly before it are inserted in
    either order. *)
Lemma insertSorted_comm (t a : A) (l : list A) :
  0 < cmp a t ->
  insertSorted cmp t (insertSorted cmp a l) =
  insertSorted cmp a (insertSorted cmp t l).
Proof.
  intros Hat. pose proof (proj1 (cmp_flip_lt a t) Hat) as Hta.
  induction l as [|u l IH].
  - cbn [insertSorted].
    destruct (Z.leb_spec (cmp t a) 0), (Z.leb_spec (cmp a t) 0);
      try lia; reflexivity.
  - rewrite (insertSorted_cons a u), (insertSorted_cons t u).
    destruct (Z.leb_spec (cmp a u) 0) as [Hau|Hau],
      (Z.leb_spec (cmp t u) 0) as [Htu|Htu].
    + rewrite !insertSorted_cons.
      destruct (Z.leb_spec (cmp t a) 0), (Z.leb_spec (cmp a t) 0);
        try lia.
      now destruct (Z.leb_spec (cmp a u) 0); [|lia].
    + exfalso.
      pose proof (cmp_trans (cmp := cmp) t a u). lia.
    + rewrite !insertSorted_cons.
      destruct (Z.leb_spec (cmp t u) 0), (Z.leb_spec (cmp a t) 0);
        try lia.
      now destruct (Z.leb_spec (cmp a u) 0); [lia|].
    + rewrite !insertSorted_cons.
      destruct (Z.leb_spec (cmp t u) 0), (Z.leb_spec (cmp a u) 0);
        try lia.
      now rewrite IH.
Qed.

Lemma insertSorted_fold (a : A) (base l : list A) :
  fold_right (insertSorted cmp) base (insertSorted cmp a l) =
  insertSorted cmp a (fold_right (insertSorted cmp) base l).
Proof.
  induction l as [|t l IH]; [reflexivity|].
  rewrite insertSorted_cons.
  destruct (Z.leb_spec (cmp a t) 0) as [Hat|Hat]; [reflexivity|].
  cbn [fold_right]. rewrite IH. now apply insertSorted_comm.
Qed.

Lemma sortBy_app (l1 l2 : list A) :
  sortBy cmp (l1 ++ l2) = fold_right (insertSorted cmp) (sortBy cmp l2) l1.
Proof. unfold sortBy. apply fold_right_app. Qed.

Lemma sortBy_fold (base l : list A) :
  fold_right (insertSorted cmp) base (sortBy cmp l) =
  fold_right (insertSorted cmp) base l.
Proof.
  induction l as [|a l IH]; [reflexivity|].
  change (sortBy cmp (a :: l)) with (insertSorted cmp a (sortBy cmp l)).
  rewrite insertSorted_fold, IH. reflexivity.
Qed.

Lemma sortBy_app_sorted (l1 l2 : list A) :
  sortBy cmp (sortBy cmp l1 ++ sortBy cmp l2) = sortBy cmp (l1 ++ l2).
Proof.
  rewrite !sortBy_app, sortBy_idem by exact HC. apply sortBy_fold.
Qed.

Lemma insertLast_cons (x y : A) (l : list A) :
  insertLast cmp x (y :: l) =
  if cmp x y <? 0 then x :: y :: l else y :: insertLast cmp x l.
Proof. reflexivity. Qed.

Lemma insertLast_perm (x : A) (l : list A) :
  Permutation (insertLast cmp x l) (x :: l).
Proof.
  induction l as [|y l IH]; [reflexivity|].
  rewrite insertLast_cons. destruct (cmp x y <? 0); [reflexivity|].
  eapply perm_trans; [apply perm_skip, IH|apply perm_swap].
Qed.

(** An older element and a newer one are inserted in either order. *)
Lemma insertSorted_insertLast (a x : A) (l : list A) :
  insertSorted cmp a (insertLast cmp x l) =
  insertLast cmp x (insertSorted cmp a l).
Proof.
  pose proof (cmp_flip_lt a x) as Fax.
  pose proof (cmp_flip_lt x a) as Fxa.
  induction l as [|y l IH].
  - cbn [insertLast insertSorted].
    destruct (Z.leb_spec (cmp a x) 0), (Z.ltb_spec (cmp x a) 0);
      try lia; reflexivity.
  - pose proof (cmp_flip_lt x y) as Fxy.
    pose proof (cmp_flip_lt y x) as Fyx.
    pose proof (cmp_flip_lt a y) as Fay.
    pose proof (cmp_flip_lt y a) as Fya.
    pose proof (cmp_trans (cmp := cmp) a x y) as T1.
    pose proof (cmp_trans (cmp := cmp) a y x) as T2.
    pose proof (cmp_trans (cmp := cmp) x a y) as T3.
    pose proof (cmp_trans (cmp := cmp) x y a) as T4.
    pose proof (cmp_trans (cmp := cmp) y a x) as T5.
    pose proof (cmp_trans (cmp := cmp) y x a) as T6.
    repeat (rewrite ?insertSorted_cons, ?insertLast_cons;
            match goal with
            | |- context [?u <=? 0] => destruct (Z.leb_spec u 0)
            | |- context [?u <? 0] => destruct (Z.ltb_spec u 0)
            end);
      try reflexivity; try lia.
    now rewrite IH.
Qed.

Lemma sortBy_snoc (l : list A) (x : A) :
  sortBy cmp (l ++ [x]) = insertLast cmp x (sortBy cmp l).
Proof.
  rewrite sortBy_app. cbn [sortBy fold_right insertSorted].
  induction l as [|a l IH]; [reflexivity|].
  cbn [fold_right]. rewrite IH. apply insertSorted_insertLast.
Qed.

(** Sorting by insertion of each element among those before it. *)
Lemma insertLast_sorts (l l0 : list A) :
  fold_left (fun sorted p => insertLast cmp p sorted) l (sortBy cmp l0)
  = sortBy cmp (l0 ++ l).
Proof.
  revert l0. induction l as [|p l IH]; intros l0.
  - now rewrite app_nil_r.
  - cbn [fold_left]. rewrite <- sortBy_snoc, IH, <- app_assoc.
    reflexivity.
Qed.
End StableSort.


(** Comparators built the way the source builds them. *)

Lemma jsOr_zero (a b : Z) : a ||| b = 0 <-> a = 0 /\ b = 0.
Proof. unfold jsOr. destruct (Z.eqb_spec a 0); lia. Qed.

Lemma jsOr_sgn (a b : Z) :
  Z.sgn (a ||| b) = if a =? 0 then Z.sgn b else Z.sgn a.
Proof. unfold jsOr. now destruct (a =? 0). Qed.

Lemma jsOr_lt (a b : Z) : a ||| b < 0 <-> a < 0 \/ a = 0 /\ b < 0.
Proof. unfold jsOr. destruct (Z.eqb_spec a 0); lia. Qed.

Lemma jsOr_le (a b : Z) : a ||| b <= 0 <-> a < 0 \/ a = 0 /\ b <= 0.
Proof. unfold jsOr. destruct (Z.eqb_spec a 0); lia. Qed.

#[export] Instance Consistent_key {A : Type} (key : A -> Z) :
  Consistent (fun a b => key a - key b).
Proof. split; intros; lia. Qed.

#[export] Instance Consistent_on {A B : Type} (f : A -> B)
  (cmp : B -> B -> Z) {HC : Consistent cmp} :
  Consistent (fun a b => cmp (f a) (f b)).
Proof.
  split; intros.
  - apply cmp_flip.
  - eapply cmp_trans; eauto.
Qed.

#[export] Instance Consistent_lex {A : Type} (f g : A -> A -> Z)
  {Hf : Consistent f} {Hg : Consistent g} :
  Consistent (fun a b => f a b ||| g a b).
Proof.
  split.
  - intros a b. rewrite !jsOr_sgn.
    pose proof (cmp_flip (cmp := f) a b) as Hfl.
    destruct (Z.eqb_spec (f a b) 0), (Z.eqb_spec (f b a) 0); try lia.
    apply cmp_flip.
  - intros a b c. unfold jsOr.
    pose proof (cmp_flip (cmp := f) a b) as Fab.
    pose proof (cmp_flip (cmp := f) b c) as Fbc.
    pose proof (cmp_flip (cmp := f) a c) as Fac.
    pose proof (cmp_trans (cmp := f) a b c) as T1.
    pose proof (cmp_trans (cmp := f) c a b) as T2.
    pose proof (cmp_trans (cmp := f) b c a) as T3.
    pose proof (cmp_trans (cmp := g) a b c) as Tg.
    destruct (Z.eqb_spec (f a b) 0), (Z.eqb_spec (f b c) 0),
      (Z.eqb_spec (f a c) 0); lia.
Qed.

(** ** The key strings *)

Lemma Number_numToString (z : Z) : Number (numToString z) = z.
Proof.
  unfold Number, numToString. rewrite NilZero.isi.
  - apply DecimalZ.of_to.
  - destruct z; simpl; try discriminate.
    intros [= H]. now apply DecimalPos.Unsigned.to_uint_nonnil in H.
  - destruct z; simpl; try discriminate.
    intros [= H]. now apply DecimalPos.Unsigned.to_uint_nonnil in H.
Qed.

Lemma numToString_inj (a b : Z) : numToString a = numToString b -> a = b.
Proof.
  intros H. rewrite <- (Number_numToString a), <- (Number_numToString b).
  now rewrite H.
Qed.

Lemma hasBar_uint (d : Decimal.uint) :
  hasBar (NilEmpty.string_of_uint d) = false.
Proof. induction d; simpl; auto. Qed.

Lemma hasBar_numToString (z : Z) : hasBar (numToString z) = false.
Proof.
  unfold numToString.
  destruct (Z.to_int z) as [d|d]; simpl;
    destruct d; simpl; auto using hasBar_uint.
Qed.

Lemma hasBar_append (a b : string) :
  hasBar (a ++ b) = hasBar a || hasBar b.
Proof.
  induction a as [|ch a IH]; simpl; [reflexivity|].
  now rewrite IH, orb_assoc.
Qed.

Lemma split_noBar (a : string) : hasBar a = false -> split "|" a = [a].
Proof.
  induction a as [|ch a IH]; simpl; [reflexivity|].
  intros H. apply orb_false_iff in H as [Hc Ha].
  now rewrite Hc, IH.
Qed.

Lemma split_bar (a b : string) :
  hasBar a = false -> split "|" (a ++ String "|" b) = a :: split "|" b.
Proof.
  induction a as [|ch a IH]; simpl; [reflexivity|].
  intros H. apply orb_false_iff in H as [Hc Ha].
  now rewrite Hc, IH.
Qed.

(** The text before the first separator and the text after it. *)
Lemma bar_prefix_inj (a1 a2 t1 t2 : string) :
  hasBar a1 = false -> hasBar a2 = false ->
  (a1 ++ String "|" t1 = a2 ++ String "|" t2)%string -> a1 = a2 /\ t1 = t2.
Proof.
  revert a2. induction a1 as [|c1 a1 IH]; intros [|c2 a2]; simpl;
    intros H1 H2 E.
  - now inversion E.
  - inversion E; subst. now rewrite Ascii.eqb_refl in H2.
  - inversion E; subst. now rewrite Ascii.eqb_refl in H1.
  - apply orb_false_iff in H1 as [_ H1]. apply orb_false_iff in H2 as [_ H2].
    inversion E; subst. destruct (IH a2 H1 H2) as [-> ->]; auto.
Qed.

(** The text after the last separator and the text before it. *)
Lemma bar_suffix_inj (n1 n2 b1 b2 : string) :
  hasBar b1 = false -> hasBar b2 = false ->
  (n1 ++ String "|" b1 = n2 ++ String "|" b2)%string -> n1 = n2 /\ b1 = b2.
Proof.
  intros H1 H2. revert n2.
  induction n1 as [|c1 n1 IH]; intros [|c2 n2]; simpl; intros E.
  - now inversion E.
  - inversion E as [[Hc Hb]]. exfalso.
    rewrite Hb, hasBar_append in H1. simpl in H1.
    rewrite orb_true_r in H1. discriminate.
  - inversion E as [[Hc Hb]]. exfalso.
    rewrite <- Hb, hasBar_append in H2. simpl in H2.
    rewrite orb_true_r in H2. discriminate.
  - inversion E; subst. destruct (IH n2) as [-> ->]; auto.
Qed.

Lemma metaKeyOf_inj (r1 r2 : RawRow.t) :
  metaKeyOf r1 = metaKeyOf r2 <-> metaOf r1 = metaOf r2.
Proof.
  unfold metaKeyOf, metaOf. split.
  - intros E. simpl in E.
    apply bar_prefix_inj in E as [Ec E]; try apply hasBar_numToString.
    apply bar_suffix_inj in E as [En Ei]; try apply hasBar_numToString.
    apply numToString_inj in Ec, Ei. congruence.
  - intros [= -> -> ->]. reflexivity.
Qed.

Lemma split_bucketKeyOf (r : RawRow.t) :
  split "|" (bucketKeyOf r) =
  [numToString (RawRow.id r); numToString (RawRow.number r);
   numToString (Coord.tileY (RawRow.coord r))].
Proof.
  unfold bucketKeyOf. simpl.
  rewrite split_bar by apply hasBar_numToString.
  rewrite split_bar by apply hasBar_numToString.
  now rewrite split_noBar by apply hasBar_numToString.
Qed.

Lemma bucketKeyOf_inj (r1 r2 : RawRow.t) :
  bucketKeyOf r1 = bucketKeyOf r2 <-> subOf r1 = subOf r2.
Proof.
  unfold subOf. split.
  - intros E. pose proof (f_equal (split "|") E) as S.
    rewrite !split_bucketKeyOf in S. inversion S as [[Ha Hb Hc]].
    apply numToString_inj in Ha, Hb, Hc. congruence.
  - unfold bucketKeyOf. intros [= -> -> ->]. reflexivity.
Qed.

(** ** Grouping in closed form *)

Lemma mapGet_None_mapSet {V : Type} (k : string) (v : V) (m : JsMap V) :
  mapGet k m = None -> mapSet k v m = m ++ [(k, v)].
Proof.
  induction m as [|[k' v'] m IH]; simpl; [reflexivity|].
  destruct (String.eqb k k'); [discriminate|].
  intros H. now rewrite IH.
Qed.

Section KeyTheory.
Context {R : Type} (key : R -> string).

#[local] Abbreviation same := (sameKey key).
#[local] Abbreviation firsts := (firstBy key).

Lemma sameKey_true (r r' : R) : same r r' = true <-> key r' = key r.
Proof. unfold sameKey. apply String.eqb_eq. Qed.

Lemma sameKey_sym (r r' : R) : same r r' = same r' r.
Proof. unfold sameKey. apply String.eqb_sym. Qed.

Lemma firstBy_snoc (l : list R) (r : R) :
  firsts (l ++ [r]) =
  if existsb (same r) l then firsts l else firsts l ++ [r].
Proof.
  induction l as [|x l IH]; simpl; [reflexivity|].
  rewrite IH. destruct (existsb (same r) l).
  - now rewrite orb_true_r.
  - rewrite orb_false_r, filter_app. simpl.
    rewrite (sameKey_sym x r).
    destruct (same r x); simpl; now rewrite ?app_nil_r.
Qed.

Lemma firstBy_In (l : list R) (r : R) : In r (firsts l) -> In r l.
Proof.
  revert r. induction l as [|x l IH]; simpl; intros r; [tauto|].
  intros [->|H]; [now left|].
  apply filter_In in H as [H _]. right. now apply IH.
Qed.

Lemma firstBy_covers (l : list R) (r : R) :
  In r l -> exists r0, In r0 (firsts l) /\ key r0 = key r.
Proof.
  induction l as [|x l IH]; simpl; [tauto|].
  intros [->|H].
  - exists r. auto.
  - destruct (IH H) as (r0 & Hin & Hk).
    destruct (same x r0) eqn:E.
    + exists x. split; [now left|].
      apply sameKey_true in E. congruence.
    + exists r0. split; [|exact Hk].
      right. apply filter_In. now rewrite E.
Qed.

Lemma NoDup_map_filter {B : Type} (f : R -> B) (p : R -> bool)
  (l : list R) :
  NoDup (map f l) -> NoDup (map f (filter p l)).
Proof.
  induction l as [|x l IH]; simpl; intros H; [constructor|].
  inversion H as [|? ? Hx Hl]; subst.
  destruct (p x); simpl; auto.
  constructor; auto.
  intros Hin. apply Hx. apply in_map_iff in Hin as (z & Hz & Hi).
  apply filter_In in Hi as [Hi _]. apply in_map_iff. eauto.
Qed.

Lemma firstBy_NoDup (l : list R) : NoDup (map key (firsts l)).
Proof.
  induction l as [|x l IH]; simpl; constructor.
  - intros Hin. apply in_map_iff in Hin as (z & Hz & Hi).
    apply filter_In in Hi as [_ Hi].
    apply negb_true_iff in Hi.
    assert (same x z = true) by now apply sameKey_true.
    congruence.
  - now apply NoDup_map_filter.
Qed.

Lemma existsb_same (l : list R) (r : R) :
  existsb (same r) l = true <-> exists x, In x l /\ key x = key r.
Proof.
  rewrite existsb_exists. split; intros (x & Hx & H); exists x;
    (split; [exact Hx|]); now apply sameKey_true.
Qed.

Lemma filter_same_snoc (l : list R) (r r1 : R) :
  filter (same r1) (l ++ [r]) =
  filter (same r1) l ++ (if same r1 r then [r] else []).
Proof. rewrite filter_app. reflexivity. Qed.

Lemma filter_same_none (l : list R) (r : R) :
  existsb (same r) l = false -> filter (same r) l = [].
Proof.
  induction l as [|x l IH]; simpl; [reflexivity|].
  intros H. apply orb_false_iff in H as [Hx Hl].
  rewrite Hx. now apply IH.
Qed.

End KeyTheory.

Section GroupByTheory.
Context {R G : Type} (key : R -> string) (init : R -> G)
  (upd : G -> R -> G).

#[local] Abbreviation same := (sameKey key).
#[local] Abbreviation firsts := (firstBy key).

(** Maps of the shape [groupedBy] gives: the list [l0] of the rows that
    stand for the keys, each bound to [f] of it. *)
Lemma mapGet_bound (f : R -> G) (l0 : list R) (r0 : R) :
  NoDup (map key l0) -> In r0 l0 ->
  mapGet (key r0) (map (fun r => (key r, f r)) l0) = Some (f r0).
Proof.
  induction l0 as [|x l IH]; simpl; [tauto|].
  intros Hnd Hin. inversion Hnd as [|? ? Hx Hl]; subst.
  destruct (String.eqb_spec (key r0) (key x)) as [E|E].
  - destruct Hin as [->|Hin]; [reflexivity|].
    exfalso. apply Hx. rewrite <- E. now apply in_map.
  - destruct Hin as [->|Hin]; [congruence|]. now apply IH.
Qed.

Lemma mapGet_unbound (f : R -> G) (l0 : list R) (k : string) :
  (forall r, In r l0 -> key r <> k) ->
  mapGet k (map (fun r => (key r, f r)) l0) = None.
Proof.
  induction l0 as [|x l IH]; simpl; [reflexivity|].
  intros H. destruct (String.eqb_spec k (key x)) as [E|E].
  - exfalso. apply (H x); auto.
  - apply IH. intros r Hr. apply H. now right.
Qed.

Lemma mapSet_bound (f f' : R -> G) (l0 : list R) (r0 : R) (v : G) :
  NoDup (map key l0) -> In r0 l0 -> f' r0 = v ->
  (forall r, In r l0 -> key r <> key r0 -> f' r = f r) ->
  mapSet (key r0) v (map (fun r => (key r, f r)) l0) =
  map (fun r => (key r, f' r)) l0.
Proof.
  induction l0 as [|x l IH]; simpl; [tauto|].
  intros Hnd Hin Hv Hf. inversion Hnd as [|? ? Hx Hl]; subst.
  destruct (String.eqb_spec (key r0) (key x)) as [E|E].
  - assert (r0 = x) as ->.
    { destruct Hin as [->|Hin]; [reflexivity|].
      exfalso. apply Hx. rewrite <- E. now apply in_map. }
    f_equal. apply map_ext_in. intros r Hr.
    rewrite Hf; auto.
    intros Hk. apply Hx. rewrite <- Hk. now apply in_map.
  - destruct Hin as [->|Hin]; [congruence|].
    rewrite (Hf x) by (auto; congruence).
    f_equal. apply IH; auto.
Qed.

(** Folding the step over the rows gives the closed form. *)
Lemma fold_stepBy (rows : list R) :
  fold_left (stepBy key init upd) rows [] = groupedBy key init upd rows.
Proof.
  induction rows as [|r rows IH] using rev_ind; [reflexivity|].
  rewrite fold_left_app. simpl. rewrite IH. clear IH.
  unfold stepBy, groupedBy. rewrite firstBy_snoc.
  destruct (existsb (same r) rows) eqn:E.
  - apply existsb_same in E as (x & Hx & Hk).
    destruct (firstBy_covers key rows x Hx) as (r0 & Hr0 & Hk0).
    assert (Hkey : key r = key r0) by congruence.
    rewrite Hkey.
    rewrite mapGet_bound by (auto using firstBy_NoDup).
    apply mapSet_bound; auto using firstBy_NoDup.
    + rewrite filter_same_snoc.
      assert (same r0 r = true) as -> by now apply sameKey_true.
      now rewrite fold_left_app.
    + intros r1 Hr1 Hne. rewrite filter_same_snoc.
      assert (same r1 r = false) as ->.
      { apply not_true_is_false. rewrite sameKey_true. congruence. }
      now rewrite app_nil_r.
  - assert (Hnone : forall r1, In r1 (firsts rows) -> key r1 <> key r).
    { intros r1 Hr1 Hk.
      assert (existsb (same r) rows = true); [|congruence].
      apply existsb_same. exists r1.
      split; [now apply (firstBy_In key)|exact Hk]. }
    rewrite mapGet_unbound by exact Hnone.
    rewrite mapGet_None_mapSet by (now apply mapGet_unbound).
    rewrite map_app. simpl. f_equal.
    + apply map_ext_in. intros r1 Hr1. f_equal.
      rewrite filter_same_snoc.
      assert (same r1 r = false) as ->.
      { apply not_true_is_false. rewrite sameKey_true.
        intros Hk. now apply (Hnone r1). }
      now rewrite app_nil_r.
    + rewrite filter_same_snoc, filter_same_none by exact E.
      assert (same r r = true) as -> by now apply sameKey_true.
      reflexivity.
Qed.
End GroupByTheory.

(** ** [rowsToV1] in closed form *)

Lemma fold_push {R : Type} (f : R -> Z) (l : list R) (acc : list Z) :
  fold_left (fun arr r => arr ++ [f r]) l acc = acc ++ map f l.
Proof.
  revert acc. induction l as [|x l IH]; intros acc; simpl.
  - now rewrite app_nil_r.
  - rewrite IH, <- app_assoc. reflexivity.
Qed.

Lemma fold_bucketStep (rs : list RawRow.t) :
  fold_left bucketStep rs [] = bucketsOf rs.
Proof.
  change bucketStep with
    (stepBy bucketKeyOf (fun _ : RawRow.t => @nil Z)
       (fun arr r => arr ++ [Coord.tileX (RawRow.coord r)])).
  rewrite fold_stepBy. unfold groupedBy, bucketsOf.
  rewrite map_map. apply map_ext. intros r.
  now rewrite fold_push.
Qed.

Lemma fold_groupUpd (rs : list RawRow.t) (g : Group.t) :
  fold_left
    (fun g r =>
       Group.mk (Group.c g) (Group.n g) (Group.id g)
         (bucketStep (Group.bucket g) r))
    rs g =
  Group.mk (Group.c g) (Group.n g) (Group.id g)
    (fold_left bucketStep rs (Group.bucket g)).
Proof.
  revert g. induction rs as [|r rs IH]; intros g; simpl.
  - now destruct g.
  - now rewrite IH.
Qed.

Lemma groupRows_closed (rows : list RawRow.t) :
  groupRows rows =
  map (fun r =>
         (metaKeyOf r,
          Group.mk (RawRow.cityId r) (RawRow.name r) (RawRow.countryId r)
            (bucketsOf (groupMembers rows r))))
    (firstBy metaKeyOf rows).
Proof.
  unfold groupRows.
  change groupStep with
    (stepBy metaKeyOf
       (fun r => Group.mk (RawRow.cityId r) (RawRow.name r)
                   (RawRow.countryId r) [])
       (fun g r =>
          Group.mk (Group.c g) (Group.n g) (Group.id g)
            (bucketStep (Group.bucket g) r))).
  rewrite fold_stepBy. unfold groupedBy. apply map_ext. intros r.
  rewrite fold_groupUpd. simpl. now rewrite fold_bucketStep.
Qed.

Lemma rowsToV1_closed {C : Collation} (rows : list RawRow.t) :
  rowsToV1 rows = sortBy cmpBlob (groupBlobs rows).
Proof.
  unfold rowsToV1, groupBlobs. rewrite groupRows_closed, map_map.
  reflexivity.
Qed.

(** ** Partition of the rows by key *)

Lemma Permutation_filter {A : Type} (p : A -> bool) (l l' : list A) :
  Permutation l l' -> Permutation (filter p l) (filter p l').
Proof.
  induction 1 as [|x l l' _ IH|x y l|l l' l'' _ IH1 _ IH2]; simpl.
  - constructor.
  - destruct (p x); [now constructor | exact IH].
  - destruct (p x), (p y); try apply Permutation_refl. apply perm_swap.
  - eapply perm_trans; eauto.
Qed.

Lemma Permutation_of_eq {A : Type} (l l' : list A) :
  l = l' -> Permutation l l'.
Proof. intros ->. apply Permutation_refl. Qed.

Lemma Permutation_flat_map_pointwise {A B : Type} (f g : A -> list B)
  (l : list A) :
  (forall x, In x l -> Permutation (f x) (g x)) ->
  Permutation (flat_map f l) (flat_map g l).
Proof.
  induction l as [|x l IH]; simpl; intros H; [constructor|].
  apply Permutation_app; [apply H; now left|].
  apply IH. intros y Hy. apply H. now right.
Qed.

Lemma Permutation_flat_map_split {A B : Type} (f g : A -> list B)
  (l : list A) :
  Permutation (flat_map (fun x => f x ++ g x) l)
    (flat_map f l ++ flat_map g l).
Proof.
  induction l as [|x l IH]; simpl; [constructor|].
  rewrite <- !app_assoc. apply Permutation_app_head.
  eapply perm_trans; [apply Permutation_app_head, IH|].
  rewrite !app_assoc. apply Permutation_app_tail, Permutation_app_comm.
Qed.

Section PartitionTheory.
Context {R : Type} (key : R -> string).

#[local] Abbreviation same := (sameKey key).

Lemma pick_none (l0 : list R) (x : R) :
  (forall r0, In r0 l0 -> key r0 <> key x) ->
  flat_map (fun r0 => if same r0 x then [x] else []) l0 = [].
Proof.
  induction l0 as [|a l0 IH]; simpl; intros H; [reflexivity|].
  assert (same a x = false) as ->.
  { apply not_true_is_false. rewrite sameKey_true.
    intros E. apply (H a); auto. }
  apply IH. intros r0 Hr0. apply H. now right.
Qed.

Lemma pick_one (l0 : list R) (x : R) :
  NoDup (map key l0) -> (exists r0, In r0 l0 /\ key r0 = key x) ->
  flat_map (fun r0 => if same r0 x then [x] else []) l0 = [x].
Proof.
  induction l0 as [|a l0 IH]; simpl; intros Hnd (r0 & Hin & Hk);
    [tauto|].
  inversion Hnd as [|? ? Ha Hl]; subst.
  destruct (same a x) eqn:E.
  - apply sameKey_true in E. rewrite pick_none; [reflexivity|].
    intros r1 Hr1 Hk1. apply Ha. rewrite <- E, <- Hk1. now apply in_map.
  - simpl. apply IH; auto. exists r0. split; auto.
    destruct Hin as [->|Hin]; auto.
    apply not_true_iff_false in E. rewrite sameKey_true in E. congruence.
Qed.

(** The rows of each key, taken key by key, are the rows. *)
Lemma partition_perm (l0 l : list R) :
  NoDup (map key l0) ->
  (forall x, In x l -> exists r0, In r0 l0 /\ key r0 = key x) ->
  Permutation (flat_map (fun r0 => filter (same r0) l) l0) l.
Proof.
  intros Hnd. induction l as [|x l IH]; intros Hcov.
  - simpl. clear. induction l0; simpl; auto.
  - eapply perm_trans.
    + apply (Permutation_flat_map_pointwise _
               (fun r0 => (if same r0 x then [x] else [])
                          ++ filter (same r0) l)).
      intros r0 _. simpl. destruct (same r0 x); apply Permutation_refl.
    + eapply perm_trans; [apply Permutation_flat_map_split|].
      rewrite pick_one; auto.
      * simpl. apply perm_skip, IH.
        intros y Hy. apply Hcov. now right.
      * apply Hcov. now left.
Qed.

Lemma firstBy_partition (l : list R) :
  Permutation (flat_map (fun r0 => filter (same r0) l) (firstBy key l)) l.
Proof.
  apply partition_perm.
  - apply firstBy_NoDup.
  - intros x Hx. now apply firstBy_covers.
Qed.

(** The keys in order of first occurrence, under a reordering of the
    rows. *)
Lemma firstBy_keys_perm (l l' : list R) :
  Permutation l l' ->
  Permutation (map key (firstBy key l)) (map key (firstBy key l')).
Proof.
  intros HP. apply NoDup_Permutation; try apply firstBy_NoDup.
  assert (H : forall l1 l2 : list R, Permutation l1 l2 -> forall k,
            In k (map key (firstBy key l1)) ->
            In k (map key (firstBy key l2))).
  { intros l1 l2 P k Hk. apply in_map_iff in Hk as (r & <- & Hr).
    apply firstBy_In in Hr.
    apply (Permutation_in _ P) in Hr.
    destruct (firstBy_covers key l2 r Hr) as (r0 & Hr0 & E).
    rewrite <- E. now apply in_map. }
  intros k. split; apply H; auto using Permutation_sym.
Qed.
End PartitionTheory.

(** ** Loop ranges *)

Lemma zrange_empty (lo hi : Z) : hi < lo -> zrange lo hi = [].
Proof.
  intros H. unfold zrange.
  replace (Z.to_nat (hi - lo + 1)) with 0%nat by lia. reflexivity.
Qed.

Lemma zrange_one (a : Z) : zrange a a = [a].
Proof.
  unfold zrange. replace (a - a + 1) with 1 by lia. simpl.
  f_equal. lia.
Qed.

Lemma zrange_snoc (lo hi : Z) :
  lo <= hi + 1 -> zrange lo (hi + 1) = zrange lo hi ++ [hi + 1].
Proof.
  intros H. unfold zrange.
  replace (Z.to_nat (hi + 1 - lo + 1)) with (S (Z.to_nat (hi - lo + 1)))
    by lia.
  rewrite seq_S, map_app. simpl. f_equal. f_equal. lia.
Qed.

Lemma zrange_In (lo hi x : Z) : In x (zrange lo hi) <-> lo <= x <= hi.
Proof.
  unfold zrange. rewrite in_map_iff. split.
  - intros (j & <- & Hj). apply in_seq in Hj. lia.
  - intros H. exists (Z.to_nat (x - lo)). split; [lia|].
    apply in_seq. lia.
Qed.

Lemma upto_In (k i : Z) : In i (upto k) <-> 0 <= i < k.
Proof. unfold upto. rewrite zrange_In. lia. Qed.

(** ** What the entries of a bucket expand to *)

Lemma map_flat_map {A B D : Type} (g : B -> D) (f : A -> list B)
  (l : list A) :
  map g (flat_map f l) = flat_map (fun x => map g (f x)) l.
Proof.
  induction l as [|x l IH]; simpl; [reflexivity|].
  now rewrite map_app, IH.
Qed.

Lemma flat_map_ext_on {A B : Type} (f g : A -> list B) (l : list A) :
  (forall x, In x l -> f x = g x) -> flat_map f l = flat_map g l.
Proof.
  induction l as [|x l IH]; simpl; intros H; [reflexivity|].
  rewrite H by now left. f_equal. apply IH. intros y Hy. apply H. now right.
Qed.

Section MergeRuns.
Variables (rid n y : Z).

#[local] Abbreviation mk := (V1Entry.mk rid n y).

(** The loop emits intervals whose columns, read in order, are the
    current run followed by the columns still to come. *)
Lemma mergeLoop_columns (start prev : Z) (rest : list Z) :
  start <= prev ->
  flat_map (fun e => zrange (V1Entry.xs e) (V1Entry.xe e))
    (mergeLoop mk start prev rest) =
  zrange start prev ++ rest.
Proof.
  revert start prev. induction rest as [|cur rest IH]; intros start prev H.
  - simpl. now rewrite app_nil_r.
  - simpl. destruct (Z.eqb_spec cur (prev + 1)) as [->|Hne].
    + rewrite IH by lia. rewrite zrange_snoc by lia.
      now rewrite <- app_assoc.
    + simpl. rewrite IH by lia. now rewrite zrange_one.
Qed.

Lemma mergeRuns_columns (xs : list Z) :
  flat_map (fun e => zrange (V1Entry.xs e) (V1Entry.xe e))
    (mergeRuns mk xs) = xs.
Proof.
  destruct xs as [|x0 rest]; simpl; [reflexivity|].
  rewrite mergeLoop_columns by lia. now rewrite zrange_one.
Qed.

Lemma mergeLoop_fields (start prev : Z) (rest : list Z) (e : V1Entry.t) :
  In e (mergeLoop mk start prev rest) ->
  V1Entry.id e = rid /\ V1Entry.n e = n /\ V1Entry.y e = y.
Proof.
  revert start prev. induction rest as [|cur rest IH]; intros start prev;
    simpl.
  - intros [<-|[]]. auto.
  - destruct (cur =? prev + 1); [apply IH|].
    intros [<-|H]; [auto|]. eapply IH; eauto.
Qed.

Lemma mergeRuns_fields (xs : list Z) (e : V1Entry.t) :
  In e (mergeRuns mk xs) ->
  V1Entry.id e = rid /\ V1Entry.n e = n /\ V1Entry.y e = y.
Proof. destruct xs; simpl; [tauto|apply mergeLoop_fields]. Qed.

(** Decoding the entries of one bucket gives one row per collected
    column, duplicates included. *)
Lemma mergeRuns_rows (c : Z) (nm : string) (cid : Z) (xs : list Z) :
  flat_map (entryRows c nm cid) (mergeRuns mk xs) =
  map (fun x => RawRow.mk rid c nm n cid (Coord.mk x y)) xs.
Proof.
  rewrite <- (mergeRuns_columns xs) at 2.
  rewrite map_flat_map.
  apply flat_map_ext_on. intros e He. unfold entryRows.
  destruct (mergeRuns_fields xs e He) as (-> & -> & ->). reflexivity.
Qed.
End MergeRuns.

Lemma bucketEntries_keyed (r0 : RawRow.t) (xs : list Z) :
  bucketEntries (bucketKeyOf r0, xs) =
  mergeRuns
    (V1Entry.mk (RawRow.id r0) (RawRow.number r0)
       (Coord.tileY (RawRow.coord r0)))
    (sortBy cmpNum xs).
Proof.
  unfold bucketEntries. simpl fst. rewrite split_bucketKeyOf. simpl nth.
  now rewrite !Number_numToString.
Qed.

Lemma flat_map_flat_map {A B D : Type} (f : B -> list D) (g : A -> list B)
  (l : list A) :
  flat_map f (flat_map g l) = flat_map (fun x => flat_map f (g x)) l.
Proof.
  induction l as [|x l IH]; simpl; [reflexivity|].
  now rewrite flat_map_app, IH.
Qed.

Lemma flat_map_map {A B D : Type} (f : B -> list D) (g : A -> B)
  (l : list A) :
  flat_map f (map g l) = flat_map (fun x => f (g x)) l.
Proof. induction l as [|x l IH]; simpl; [reflexivity|]. now rewrite IH. Qed.

(** A row is rebuilt from its group key, its sub-key and its column. *)
Lemma row_rebuilt (r r0 : RawRow.t) (c : Z) (nm : string) (cid : Z) :
  metaOf r = (c, nm, cid) -> subOf r = subOf r0 ->
  RawRow.mk (RawRow.id r0) c nm (RawRow.number r0) cid
    (Coord.mk (Coord.tileX (RawRow.coord r))
       (Coord.tileY (RawRow.coord r0))) = r.
Proof.
  destruct r as [i ci nm' nu co [x y]], r0 as [i0 ci0 nm0 nu0 co0 [x0 y0]].
  unfold metaOf, subOf. simpl. intros [= -> -> ->] [= -> -> ->].
  reflexivity.
Qed.

(** The entries of a group decode to the rows of the group. *)
Lemma entriesOf_rows (c : Z) (nm : string) (cid : Z) (rs : list RawRow.t) :
  (forall r, In r rs -> metaOf r = (c, nm, cid)) ->
  Permutation (flat_map (entryRows c nm cid) (entriesOf rs)) rs.
Proof.
  intros Hmeta. unfold entriesOf.
  eapply perm_trans;
    [apply Permutation_flat_map, sortBy_perm|].
  rewrite flat_map_flat_map. unfold bucketsOf.
  rewrite !flat_map_map.
  eapply perm_trans; [|apply (firstBy_partition bucketKeyOf)].
  apply Permutation_flat_map_pointwise. intros r0 _.
  rewrite bucketEntries_keyed, mergeRuns_rows.
  eapply perm_trans; [apply Permutation_map, sortBy_perm|].
  unfold columnsAt. rewrite map_map.
  apply Permutation_of_eq. unfold sameKey.
  erewrite map_ext_in; [apply map_id|].
  intros r Hr. apply filter_In in Hr as [Hr Hk].
  apply String.eqb_eq, bucketKeyOf_inj in Hk.
  apply row_rebuilt; auto.
Qed.

Lemma groupMembers_meta (rows : list RawRow.t) (r0 r : RawRow.t) :
  In r (groupMembers rows r0) -> metaOf r = metaOf r0.
Proof.
  unfold groupMembers. intros H. apply filter_In in H as [_ H].
  apply sameKey_true in H. now apply metaKeyOf_inj.
Qed.

Lemma expandV1_entryRows (b : V1Blob.t) :
  expandV1 b =
  flat_map (entryRows (V1Blob.c b) (V1Blob.n b) (V1Blob.id b)) (V1Blob.e b).
Proof. reflexivity. Qed.

Lemma expandV1_groupOf (rows : list RawRow.t) (r0 : RawRow.t) :
  Permutation (expandV1 (groupOf rows r0)) (groupMembers rows r0).
Proof.
  rewrite expandV1_entryRows. simpl. apply entriesOf_rows.
  intros r Hr. now apply groupMembers_meta in Hr.
Qed.

(** The blobs of the interval builder decode to the rows they were built
    from, each row as many times as it was given. *)
Lemma groupBlobs_rows (rows : list RawRow.t) :
  Permutation (flat_map expandV1 (groupBlobs rows)) rows.
Proof.
  unfold groupBlobs. rewrite flat_map_map.
  eapply perm_trans; [|apply (firstBy_partition metaKeyOf)].
  apply Permutation_flat_map_pointwise. intros r0 _.
  apply expandV1_groupOf.
Qed.

Lemma rowsToV1_rows {C : Collation} (rows : list RawRow.t) :
  Permutation (flat_map expandV1 (rowsToV1 rows)) rows.
Proof.
  rewrite rowsToV1_closed.
  eapply perm_trans; [apply Permutation_flat_map, sortBy_perm|].
  apply groupBlobs_rows.
Qed.

(** ** The progression loop *)

Lemma skipn_cons_nth {A : Type} (l : list A) (i : nat) (d : A) :
  (i < List.length l)%nat -> skipn i l = nth i l d :: skipn (S i) l.
Proof.
  revert i. induction l as [|a l IH]; intros i H; simpl in *; [lia|].
  destruct i as [|i]; [reflexivity|]. apply IH. lia.
Qed.

Section RunsLoop.
Variables (es : list V1Entry.t) (d : V1Entry.t) (s : Z).

Lemma runStep_stepOK (st : list V2Run.t * nat) (i : nat) :
  runStep es d s st i =
  if stepOK s (nth (i - 1) es d) (nth i es d) then st
  else (flush es d (fst st) (snd st) (i - 1), i).
Proof.
  unfold runStep, stepOK.
  now destruct (_ && _ && _).
Qed.

(** The loop from index [i] on, entered with the runs pushed so far and
    the start [j] of the open run. *)
Lemma runLoop_from (m : nat) :
  forall (i j : nat) (runs : list V2Run.t),
    (i + m = List.length es)%nat -> (1 <= i)%nat -> (j < i)%nat ->
    let st := fold_left (runStep es d s) (List.seq i m) (runs, j) in
    flush es d (fst st) (snd st) (List.length es - 1) =
    runs ++ runsFrom s (nth j es d) (Z.of_nat i - Z.of_nat j)
              (nth (i - 1) es d) (skipn i es).
Proof.
  induction m as [|m IH]; intros i j runs Hlen Hi Hj; cbv zeta.
  - simpl. rewrite skipn_all2 by lia. simpl. unfold flush.
    do 3 f_equal. lia.
  - simpl fold_left. rewrite runStep_stepOK.
    rewrite (skipn_cons_nth es i d) by lia. simpl runsFrom.
    replace (S i - 1)%nat with i in IH by lia.
    destruct (stepOK s (nth (i - 1) es d) (nth i es d)).
    + specialize (IH (S i) j runs). cbv zeta in IH.
      replace (S i - 1)%nat with i in IH by lia.
      rewrite IH by lia. do 2 f_equal. lia.
    + specialize (IH (S i) i (flush es d runs j (i - 1))).
      cbv zeta in IH. simpl fst. simpl snd.
      replace (S i - 1)%nat with i in IH by lia.
      rewrite IH by lia. unfold flush. rewrite <- app_assoc. cbn [app].
      replace (Z.of_nat (S i) - Z.of_nat i) with 1 by lia.
      replace (Z.of_nat (i - 1) - Z.of_nat j + 1)
        with (Z.of_nat i - Z.of_nat j) by lia.
      reflexivity.
Qed.
End RunsLoop.

(** The index loop of the source computes the maximal runs. *)
Lemma progressionRuns_maximalRuns (e0 : V1Entry.t) (rest : list V1Entry.t)
  (d : V1Entry.t) (s : Z) :
  progressionRuns (e0 :: rest) d s = maximalRuns s (e0 :: rest).
Proof.
  unfold progressionRuns.
  pose proof (runLoop_from (e0 :: rest) d s (List.length rest) 1 0 []) as H.
  cbv zeta in H. simpl List.length in *.
  replace (S (List.length rest) - 1)%nat with (List.length rest) by lia.
  replace (S (List.length rest) - 1)%nat with (List.length rest) in H by lia.
  rewrite H by lia. reflexivity.
Qed.

(** ** What the runs expand to *)

Lemma upto_snoc (k : Z) : 0 <= k -> upto (k + 1) = upto k ++ [k].
Proof.
  intros H. unfold upto.
  replace (k + 1 - 1) with (k - 1 + 1) by lia.
  rewrite zrange_snoc by lia. do 2 f_equal. lia.
Qed.

Lemma upto_one : upto 1 = [0].
Proof. reflexivity. Qed.

Lemma expandV2_memberRows (b : V2Blob.t) :
  expandV2 b =
  flat_map (fun r => flat_map (memberRows b r) (upto (V2Run.k r)))
    (V2Blob.seq b).
Proof. reflexivity. Qed.

Lemma tier2Candidate_shape (y s : Z) (es : list V1Entry.t) :
  tier2Candidate y s es = true <-> Forall (tier2Shape y s) es.
Proof.
  induction es as [|e es IH]; simpl.
  - split; auto.
  - unfold tier2Shape at 1.
    destruct (Z.eqb_spec (V1Entry.y e) y) as [Hy|Hy]; simpl.
    + destruct (Z.eqb_spec (V1Entry.xe e - V1Entry.xs e + 1) s) as [Hw|Hw];
        simpl.
      * rewrite IH. split; [now constructor|].
        intros H. now inversion H.
      * split; [discriminate|]. intros H. inversion H as [|? ? [_ Hc] _].
        unfold tier2Shape in *. contradiction.
    + split; [discriminate|]. intros H. inversion H as [|? ? [Hc _] _].
      contradiction.
Qed.

Section RunRows.
Variables (c : Z) (nm : string) (cid : Z) (y s : Z).

#[local] Abbreviation blobOf sq := (V2Blob.mk c nm cid y s sq).
#[local] Abbreviation runOf first count :=
  (V2Run.mk (V1Entry.xs first) count (V1Entry.id first)
     (V1Entry.n first)).

(** A member of a run is the entry it stands for. *)
Lemma memberRows_entry (sq : list V2Run.t) (first cur : V1Entry.t)
  (count i : Z) :
  tier2Shape y s cur ->
  V1Entry.xs cur = V1Entry.xs first + i * s ->
  V1Entry.id cur = V1Entry.id first + i ->
  V1Entry.n cur = V1Entry.n first + i ->
  memberRows (blobOf sq) (runOf first count) i = entryRows c nm cid cur.
Proof.
  intros [Hy Hw] Hx Hi Hn. unfold memberRows, entryRows. simpl.
  rewrite Hy, Hi, Hn, <- Hx.
  replace (V1Entry.xs cur + (s - 1)) with (V1Entry.xe cur) by lia.
  reflexivity.
Qed.

Lemma runsFrom_rows (sq : list V2Run.t) (rest : list V1Entry.t) :
  forall (first prev : V1Entry.t) (count : Z),
    1 <= count ->
    V1Entry.xs prev = V1Entry.xs first + (count - 1) * s ->
    V1Entry.id prev = V1Entry.id first + (count - 1) ->
    V1Entry.n prev = V1Entry.n first + (count - 1) ->
    Forall (tier2Shape y s) rest ->
    flat_map
      (fun r => flat_map (memberRows (blobOf sq) r) (upto (V2Run.k r)))
      (runsFrom s first count prev rest) =
    flat_map (memberRows (blobOf sq) (runOf first count)) (upto count)
      ++ flat_map (entryRows c nm cid) rest.
Proof.
  induction rest as [|cur rest IH];
    intros first prev count Hc Hx Hi Hn Hall.
  - simpl. reflexivity.
  - inversion Hall as [|? ? Hcur Hrest]; subst.
    cbn [runsFrom]. destruct (stepOK s prev cur) eqn:E.
    + unfold stepOK in E.
      apply andb_true_iff in E as [E En].
      apply andb_true_iff in E as [Ex Ei].
      apply Z.eqb_eq in Ex, Ei, En.
      rewrite (IH first cur (count + 1)); auto; try lia.
      rewrite upto_snoc by lia. rewrite flat_map_app.
      rewrite <- app_assoc. cbn [flat_map]. rewrite app_nil_r.
      f_equal. f_equal.
      apply memberRows_entry; auto; lia.
    + cbn [flat_map]. cbn [V2Run.k]. f_equal.
      rewrite (IH cur cur 1); auto; try lia.
      rewrite upto_one. cbn [flat_map]. rewrite app_nil_r.
      f_equal. apply memberRows_entry; auto; lia.
Qed.

Lemma maximalRuns_rows (sq : list V2Run.t) (es : list V1Entry.t) :
  Forall (tier2Shape y s) es ->
  expandV2 (blobOf (maximalRuns s es)) =
  flat_map (entryRows c nm cid) es.
Proof.
  intros Hall. rewrite expandV2_memberRows. cbn [V2Blob.seq].
  destruct es as [|e rest]; [reflexivity|].
  inversion Hall as [|? ? He Hrest]; subst.
  cbn [maximalRuns]. rewrite runsFrom_rows; auto; try lia.
  rewrite upto_one. cbn [flat_map]. rewrite app_nil_r. f_equal.
  apply memberRows_entry; auto; lia.
Qed.
End RunRows.

Lemma sortBy_cons_inv {A : Type} (cmp : A -> A -> Z) (x : A) (l : list A) :
  exists x' l', sortBy cmp (x :: l) = x' :: l'.
Proof.
  destruct (sortBy cmp (x :: l)) as [|x' l'] eqn:E; eauto.
  apply (f_equal (@List.length _)) in E.
  rewrite sortBy_length in E. discriminate.
Qed.

(** The compactor, with the runs of its loop read as the maximal runs. *)
Lemma v1ToV2_unfold (v1 : V1Blob.t) (s : Z) :
  v1ToV2IfPossible v1 s =
  match V1Blob.e v1 with
  | [] => Some (V2Blob.mk (V1Blob.c v1) (V1Blob.n v1) (V1Blob.id v1) 0 s [])
  | e0 :: _ =>
      if tier2Candidate (V1Entry.y e0) s (V1Blob.e v1) then
        let runs := maximalRuns s (sortBy cmpXs (V1Blob.e v1)) in
        if (Z.of_nat (List.length runs) =? 1)
           || (Z.of_nat (List.length runs) * 2
               <=? Z.of_nat (List.length (V1Blob.e v1)))
        then Some (V2Blob.mk (V1Blob.c v1) (V1Blob.n v1) (V1Blob.id v1)
                     (V1Entry.y e0) s runs)
        else None
      else None
  end.
Proof.
  unfold v1ToV2IfPossible. destruct (V1Blob.e v1) as [|e0 rest]; auto.
  destruct (sortBy_cons_inv cmpXs e0 rest) as (e1 & rest1 & Hs).
  rewrite Hs, progressionRuns_maximalRuns. reflexivity.
Qed.

(** A group taken to Tier-2 decodes to the rows of its Tier-1 form. *)
Lemma v1ToV2_rows (v1 : V1Blob.t) (s : Z) (v2 : V2Blob.t) :
  v1ToV2IfPossible v1 s = Some v2 ->
  Permutation (expandV2 v2) (expandV1 v1).
Proof.
  rewrite v1ToV2_unfold, expandV1_entryRows.
  destruct (V1Blob.e v1) as [|e0 rest].
  - intros [= <-]. constructor.
  - destruct (tier2Candidate _ _ _) eqn:Et; [|discriminate].
    apply tier2Candidate_shape in Et. cbv zeta.
    destruct (_ || _); [|discriminate]. intros [= <-].
    rewrite maximalRuns_rows.
    + apply Permutation_flat_map, (sortBy_perm cmpXs (e0 :: rest)).
    + exact [].
    + eapply Permutation_Forall;
        [apply Permutation_sym, (sortBy_perm cmpXs (e0 :: rest))|].
      exact Et.
Qed.

Lemma compactFromRows_rows {C : Collation} (rows : list RawRow.t) (s : Z) :
  Permutation (flat_map expandBlob (compactFromRows rows s)) rows.
Proof.
  unfold compactFromRows. rewrite flat_map_map.
  eapply perm_trans; [|apply rowsToV1_rows].
  apply Permutation_flat_map_pointwise. intros b _.
  destruct (v1ToV2IfPossible b s) as [v2|] eqn:E; simpl.
  - now apply v1ToV2_rows in E.
  - apply Permutation_refl.
Qed.

(** ** The comparators of the codec *)

#[export] Instance Consistent_cmpNum : Consistent cmpNum.
Proof. split; unfold cmpNum; intros; lia. Qed.

#[export] Instance Consistent_cmpXs : Consistent cmpXs.
Proof. split; unfold cmpXs; intros; lia. Qed.

#[export] Instance Consistent_cmpEntry : Consistent cmpEntry.
Proof. unfold cmpEntry. repeat apply Consistent_lex; apply Consistent_key. Qed.

Lemma Separating_cmpNum : Separating cmpNum.
Proof. intros a b. unfold cmpNum. lia. Qed.

Lemma Separating_cmpEntry : Separating cmpEntry.
Proof.
  intros [i n y xs xe] [i' n' y' xs' xe']. unfold cmpEntry. simpl.
  rewrite !jsOr_zero. intros ((((Hi & Hn) & Hy) & Hs) & He).
  f_equal; lia.
Qed.

Section CollatedComparators.
Context {C : Collation} {HO : CollationOrder C}.

#[export] Instance Consistent_cmpBlob : Consistent cmpBlob.
Proof.
  unfold cmpBlob. repeat apply Consistent_lex; try apply Consistent_key.
  apply (Consistent_on V1Blob.n localeCompare).
Qed.

#[export] Instance Consistent_cmpRow : Consistent cmpRow.
Proof.
  unfold cmpRow. repeat apply Consistent_lex; try apply Consistent_key.
  apply (Consistent_on RawRow.name localeCompare).
Qed.

(** What the record comparator leaves undecided is the spelling of the
    name. *)
Lemma cmpRow_zero (a b : RawRow.t) :
  cmpRow a b = 0 ->
  localeCompare (RawRow.name a) (RawRow.name b) = 0
  /\ (RawRow.name a = RawRow.name b -> a = b).
Proof.
  destruct a as [i c n nu co [x y]], b as [i' c' n' nu' co' [x' y']].
  unfold cmpRow. simpl. rewrite !jsOr_zero.
  intros ((((((Hc & Hco) & Hn) & Hy) & Hx) & Hi) & Hnu).
  split; [exact Hn|]. intros ->.
  f_equal; try lia. f_equal; lia.
Qed.

(** Blobs are told apart by their group key, up to the spelling of the
    name. *)
Lemma cmpBlob_zero (a b : V1Blob.t) :
  cmpBlob a b = 0 ->
  V1Blob.c a = V1Blob.c b /\ V1Blob.id a = V1Blob.id b
  /\ localeCompare (V1Blob.n a) (V1Blob.n b) = 0.
Proof.
  unfold cmpBlob. rewrite !jsOr_zero. intros ((Hc & Hi) & Hn).
  repeat split; auto; lia.
Qed.
End CollatedComparators.

(** On records whose names are told apart, the record comparator tells the
    records apart. *)
Lemma cmpRow_apart {C : Collation} (names : list string)
  (l : list RawRow.t) :
  apartNames names -> incl (map RawRow.name l) names ->
  forall a b, In a l -> In b l -> cmpRow a b = 0 -> a = b.
Proof.
  intros Hap Hincl a b Ha Hb Hz.
  destruct (cmpRow_zero a b Hz) as [Hn Heq]. apply Heq.
  apply Hap; [apply Hincl, in_map, Ha|apply Hincl, in_map, Hb|exact Hn].
Qed.

Lemma Permutation_names (l l' : list RawRow.t) :
  Permutation l l' -> incl (map RawRow.name l) (map RawRow.name l').
Proof.
  intros HP n Hn. apply in_map_iff in Hn as (r & <- & Hr).
  apply in_map. now apply (Permutation_in _ HP).
Qed.

(** ** The code-unit collation has the laws *)

Lemma string_compare_refl (a : string) : String.compare a a = Eq.
Proof.
  induction a as [|ch a IH]; simpl; [reflexivity|].
  unfold Ascii.compare. now rewrite N.compare_refl.
Qed.

Lemma string_compare_trans (a b c : string) :
  String.compare a b <> Gt -> String.compare b c <> Gt ->
  String.compare a c <> Gt.
Proof.
  revert b c. induction a as [|x a IH]; intros [|y b] [|z c]; simpl;
    try congruence.
  unfold Ascii.compare.
  destruct (N.compare_spec (N_of_ascii x) (N_of_ascii y)) as [E1|L1|G1];
    destruct (N.compare_spec (N_of_ascii y) (N_of_ascii z)) as [E2|L2|G2];
    destruct (N.compare_spec (N_of_ascii x) (N_of_ascii z)) as [E3|L3|G3];
    try congruence; try lia.
  apply IH.
Qed.

#[export] Instance codeUnits_order : CollationOrder codeUnits.
Proof.
  split; simpl; unfold codeUnitCompare.
  - intros a b. rewrite (String.compare_antisym a b).
    now destruct (String.compare b a).
  - intros a b c Hab Hbc.
    pose proof (string_compare_trans a b c) as T.
    destruct (String.compare a b), (String.compare b c),
      (String.compare a c); try lia; exfalso; apply T; congruence.
Qed.

Lemma codeUnitCompare_zero (a b : string) :
  codeUnitCompare a b = 0 -> a = b.
Proof.
  unfold codeUnitCompare.
  destruct (String.compare a b) eqn:E; try discriminate.
  intros _. now apply String.compare_eq_iff.
Qed.

(** The order of the code units tells any names apart. *)
Lemma codeUnits_apart (names : list string) : @apartNames codeUnits names.
Proof. intros a b _ _. apply codeUnitCompare_zero. Qed.

(** Passing over a character leaves a consistent order. *)
#[export] Instance ignoringDel_order : CollationOrder ignoringDel.
Proof.
  apply (Consistent_on stripDel codeUnitCompare (HC := codeUnits_order)).
Qed.

(** ** The decoder on the encoder's output *)

Lemma asV1_toJs (b1 : V1Blob.t) : asV1 (toJs (BlobV1 b1)) = b1.
Proof. now destruct b1. Qed.

Lemma asV2_toJs (b2 : V2Blob.t) : asV2 (toJs (BlobV2 b2)) = b2.
Proof. now destruct b2. Qed.

Lemma expandLoop_toJs (bs : list Blob) (acc : list RawRow.t) :
  expandLoop (map toJs bs) acc = Ok (acc ++ flat_map expandBlob bs).
Proof.
  revert acc. induction bs as [|b bs IH]; intros acc.
  - simpl. now rewrite app_nil_r.
  - destruct b as [b1|b2]; cbn [map expandLoop flat_map expandBlob].
    + change (isV2 (toJs (BlobV1 b1))) with false.
      change (isV1 (toJs (BlobV1 b1))) with true. cbv iota.
      rewrite IH, asV1_toJs, app_assoc. reflexivity.
    + change (isV2 (toJs (BlobV2 b2))) with true. cbv iota.
      rewrite IH, asV2_toJs, app_assoc. reflexivity.
Qed.

Lemma blobsOf_payload (bs : list Blob) : blobsOf (payload bs) = map toJs bs.
Proof. destruct bs as [|b [|b' bs]]; reflexivity. Qed.

Lemma expandCompact_blobs {C : Collation} (doc : Compact) (bs : list Blob) :
  blobsOf doc = map toJs bs ->
  expandCompact doc = Ok (sortBy cmpRow (flat_map expandBlob bs)).
Proof.
  intros H. unfold expandCompact. now rewrite H, expandLoop_toJs.
Qed.

(** The two forms in which a compact document reaches the decoder: the
    array [compactFromRows] returns, and the payload written to disk. *)
Lemma encoded_blobs {C : Collation} (rows : list RawRow.t) (s : Z)
  (doc : Compact) :
  doc = Many (map toJs (compactFromRows rows s))
  \/ doc = payload (compactFromRows rows s) ->
  blobsOf doc = map toJs (compactFromRows rows s).
Proof. intros [->| ->]; [reflexivity|apply blobsOf_payload]. Qed.

Lemma notAfter_cmpRow {C : Collation} (a b : RawRow.t) :
  notAfter cmpRow a b <-> canonLe a b.
Proof.
  unfold notAfter, cmpRow, canonLe.
  rewrite jsOr_le, !jsOr_lt, !jsOr_zero. lia.
Qed.

(** C1 (amended) — round trip: decoding the document that
    [compactFromRows] produces gives the input records, each as many times
    as the input has it; and after the canonical sort it gives the input
    after the same sort whenever [localeCompare] is a consistent order that
    returns [0] on no two distinct names of the input.  The statement
    covers every input and every stride, so both the groups that are
    re-encoded as Tier-2 and those that stay Tier-1. *)
Theorem roundtrip {C : Collation} (rows : list RawRow.t) (s : Z)
  (doc : Compact) :
  doc = Many (map toJs (compactFromRows rows s))
  \/ doc = payload (compactFromRows rows s) ->
  exists decoded,
    expandCompact doc = Ok decoded
    /\ Permutation decoded rows
    /\ (CollationOrder C -> apartNames (map RawRow.name rows) ->
        canonicalSort decoded = canonicalSort rows).
Proof.
  intros Hdoc. apply encoded_blobs in Hdoc.
  rewrite (expandCompact_blobs doc _ Hdoc).
  pose proof (compactFromRows_rows rows s) as HP.
  eexists. split; [reflexivity|]. split.
  - eapply perm_trans; [apply sortBy_perm|exact HP].
  - intros HO Hap. unfold canonicalSort. rewrite sortBy_idem by exact _.
    apply sortBy_perm_eq; [exact _| |exact HP].
    apply (cmpRow_apart _ _ Hap), Permutation_names, HP.
Qed.

(** The two tiers at work: [scenario] is re-encoded as one progression
    run, [overlapping] stays in interval form. *)
Example scenario_encodes_as_tier2 :
  @compactFromRows codeUnits scenario 4 =
  [BlobV2 (V2Blob.mk 1 "A" 9 5 4 [V2Run.mk 0 1 1 1])].
Proof. reflexivity. Qed.

Example overlapping_encodes_as_tier1 :
  @compactFromRows codeUnits overlapping 4 =
  [BlobV1 (V1Blob.mk 1 "A" 9
             [V1Entry.mk 1 1 5 0 0; V1Entry.mk 2 2 5 0 0])].
Proof. reflexivity. Qed.

Lemma roundtrip_witness :
  exists decoded,
    @expandCompact codeUnits (@payload (@compactFromRows codeUnits scenario 4))
    = Ok decoded
    /\ Permutation decoded scenario
    /\ @canonicalSort codeUnits decoded = @canonicalSort codeUnits scenario.
Proof.
  destruct (@roundtrip codeUnits scenario 4 _ (or_intror eq_refl))
    as (decoded & Hd & HP & Hs).
  exists decoded. split; [exact Hd|]. split; [exact HP|].
  apply Hs; [exact _|apply codeUnits_apart].
Defined.

(** C1 as stated fails where two spellings of a name compare equal: the
    records of the two spellings are decoded group by group, and the sort
    leaves them in that order, which is not the order of the input. *)
Lemma roundtrip_order_lost :
  ~ @roundTripsInOrder ignoringDel twoSpellings 4.
Proof.
  intros H. specialize (H _ eq_refl). vm_compute in H. discriminate H.
Qed.

(** ** The encoder under a reordering of its input *)

Lemma columnsAt_perm (k : string) (rs rs' : list RawRow.t) :
  Permutation rs rs' ->
  sortBy cmpNum (columnsAt k rs) = sortBy cmpNum (columnsAt k rs').
Proof.
  intros HP. apply sortBy_perm_eq; [exact _| |].
  - intros a b _ _. apply Separating_cmpNum.
  - unfold columnsAt. now apply Permutation_map, Permutation_filter.
Qed.

Lemma entriesOf_perm (rs rs' : list RawRow.t) :
  Permutation rs rs' -> entriesOf rs = entriesOf rs'.
Proof.
  intros HP. unfold entriesOf. apply sortBy_perm_eq; [exact _| |].
  - intros a b _ _. apply Separating_cmpEntry.
  - unfold bucketsOf.
    rewrite (flat_map_map _ (fun k => (k, columnsAt k rs))),
      (flat_map_map _ (fun k => (k, columnsAt k rs'))).
    eapply perm_trans.
    + apply Permutation_flat_map, (firstBy_keys_perm bucketKeyOf), HP.
    + apply Permutation_of_eq, flat_map_ext. intros k.
      unfold bucketEntries. cbn [fst snd].
      now rewrite (columnsAt_perm k rs rs' HP).
Qed.

Lemma groupOf_perm (rows rows' : list RawRow.t) (r r' : RawRow.t) :
  Permutation rows rows' -> metaKeyOf r = metaKeyOf r' ->
  groupOf rows r = groupOf rows' r'.
Proof.
  intros HP Hk. unfold groupOf.
  pose proof (proj1 (metaKeyOf_inj r r') Hk) as Hm.
  unfold metaOf in Hm. injection Hm as -> -> ->.
  f_equal. apply entriesOf_perm. unfold groupMembers, sameKey.
  rewrite Hk. now apply Permutation_filter.
Qed.

Lemma blobKeyOf_groupOf (rows : list RawRow.t) (r : RawRow.t) :
  blobKeyOf (groupOf rows r) = metaKeyOf r.
Proof. reflexivity. Qed.

Lemma groupBlobs_In (rows : list RawRow.t) (b : V1Blob.t) :
  In b (groupBlobs rows) <-> exists r, In r rows /\ b = groupOf rows r.
Proof.
  unfold groupBlobs. rewrite in_map_iff. split.
  - intros (r & <- & Hr). exists r. split; [|reflexivity].
    now apply (firstBy_In metaKeyOf).
  - intros (r & Hr & ->).
    destruct (firstBy_covers metaKeyOf rows r Hr) as (r0 & Hr0 & Hk).
    exists r0. split; [|exact Hr0].
    now apply groupOf_perm.
Qed.

Lemma groupBlobs_NoDup (rows : list RawRow.t) : NoDup (groupBlobs rows).
Proof.
  apply (NoDup_map_inv blobKeyOf). unfold groupBlobs. rewrite map_map.
  apply (firstBy_NoDup metaKeyOf).
Qed.

Lemma groupBlobs_perm (rows rows' : list RawRow.t) :
  Permutation rows rows' ->
  Permutation (groupBlobs rows) (groupBlobs rows').
Proof.
  intros HP. apply NoDup_Permutation; try apply groupBlobs_NoDup.
  intros b. rewrite !groupBlobs_In. split; intros (r & Hr & ->).
  - exists r. split; [now apply (Permutation_in _ HP)|].
    now apply groupOf_perm.
  - exists r. split; [now apply (Permutation_in _ (Permutation_sym HP))|].
    apply groupOf_perm; [now apply Permutation_sym|reflexivity].
Qed.

(** Two blobs of one encoding that the blob comparator does not tell apart
    are the same blob, when the names of the input are told apart. *)
Lemma groupBlobs_separated {C : Collation} (rows : list RawRow.t)
  (a b : V1Blob.t) :
  apartNames (map RawRow.name rows) ->
  In a (groupBlobs rows) -> In b (groupBlobs rows) ->
  cmpBlob a b = 0 -> a = b.
Proof.
  intros Hap. rewrite !groupBlobs_In.
  intros (r1 & H1 & ->) (r2 & H2 & ->) Hz.
  apply cmpBlob_zero in Hz. cbn in Hz. destruct Hz as (Hc & Hi & Hn).
  apply Hap in Hn; [|now apply in_map|now apply in_map].
  apply groupOf_perm; [apply Permutation_refl|].
  apply metaKeyOf_inj. unfold metaOf. congruence.
Qed.

Lemma rowsToV1_perm {C : Collation} {HO : CollationOrder C}
  (rows rows' : list RawRow.t) :
  apartNames (map RawRow.name rows) ->
  Permutation rows rows' -> rowsToV1 rows = rowsToV1 rows'.
Proof.
  intros Hap HP. rewrite !rowsToV1_closed.
  apply sortBy_perm_eq; [exact _| |].
  - intros a b. now apply groupBlobs_separated.
  - now apply groupBlobs_perm.
Qed.

(** Without any law of the collation, the blobs of a reordered input are
    the same blobs, in some order. *)
Lemma rowsToV1_perm_blobs {C : Collation} (rows rows' : list RawRow.t) :
  Permutation rows rows' -> Permutation (rowsToV1 rows') (rowsToV1 rows).
Proof.
  intros HP. rewrite !rowsToV1_closed.
  eapply perm_trans; [apply sortBy_perm|].
  eapply perm_trans; [|apply Permutation_sym, sortBy_perm].
  now apply Permutation_sym, groupBlobs_perm.
Qed.

(** C7 (amended) — grouping order: encoding any reordering of the records
    gives the same blobs, each with the same entries in the same order;
    and it gives the identical compact document, as the array
    [compactFromRows] returns and as the payload written to disk, whenever
    [localeCompare] is a consistent order that returns [0] on no two
    distinct names of the input. *)
Theorem compactFromRows_shuffle {C : Collation} (rows rows' : list RawRow.t)
  (s : Z) :
  Permutation rows rows' ->
  Permutation (compactFromRows rows' s) (compactFromRows rows s)
  /\ (CollationOrder C -> apartNames (map RawRow.name rows) ->
      compactFromRows rows' s = compactFromRows rows s
      /\ payload (compactFromRows rows' s)
         = payload (compactFromRows rows s)).
Proof.
  intros HP. split.
  - unfold compactFromRows. now apply Permutation_map, rowsToV1_perm_blobs.
  - intros HO Hap.
    assert (E : compactFromRows rows' s = compactFromRows rows s).
    { unfold compactFromRows. now rewrite (rowsToV1_perm rows rows' Hap HP). }
    now rewrite E.
Qed.

Lemma compactFromRows_shuffle_witness :
  @compactFromRows codeUnits (List.rev scenario) 4
  = @compactFromRows codeUnits scenario 4
  /\ payload (@compactFromRows codeUnits (List.rev scenario) 4)
     = payload (@compactFromRows codeUnits scenario 4).
Proof.
  apply (proj2 (@compactFromRows_shuffle codeUnits scenario
                  (List.rev scenario) 4 (Permutation_rev scenario)));
    [exact _|apply codeUnits_apart].
Defined.

(** C7 as stated fails where two spellings of a name compare equal: their
    blobs come out in the order in which the spellings first occur in the
    input. *)
Lemma shuffle_reorders_equal_names :
  ~ @shuffleInvariant ignoringDel twoSpellings twoSpellingsShuffled 4.
Proof.
  intros H. assert (HP : Permutation twoSpellings twoSpellingsShuffled).
  { apply perm_swap. }
  specialize (H HP). vm_compute in H. discriminate H.
Qed.

(** ** The acceptance rule of the progression compactor *)

Lemma runsFrom_length (s : Z) (rest : list V1Entry.t) :
  forall (first prev : V1Entry.t) (count : Z),
    List.length (runsFrom s first count prev rest) =
    S (breaks s (prev :: rest)).
Proof.
  induction rest as [|cur rest IH]; intros first prev count;
    [reflexivity|].
  cbn [runsFrom breaks]. destruct (stepOK s prev cur).
  - now rewrite IH.
  - cbn [List.length]. now rewrite IH.
Qed.

(** The run count is one more than the number of steps that do not
    qualify. *)
Lemma maximalRuns_length (s : Z) (e : V1Entry.t) (rest : list V1Entry.t) :
  List.length (maximalRuns s (e :: rest)) = S (breaks s (e :: rest)).
Proof. apply runsFrom_length. Qed.

Lemma shape_head (y s : Z) (e0 : V1Entry.t) (rest : list V1Entry.t) :
  Forall (tier2Shape y s) (e0 :: rest) ->
  V1Entry.y e0 = y /\ tier2Candidate (V1Entry.y e0) s (e0 :: rest) = true.
Proof.
  intros H. inversion H as [|? ? [Hy Hw] _]; subst.
  split; [reflexivity|]. now apply tier2Candidate_shape.
Qed.

(** C3 — acceptance heuristic: on a non-empty group that meets the Tier-2
    preconditions (one row [y], every width equal to the stride), the
    compactor returns the Tier-2 blob made of the maximal runs exactly when
    there is one run or twice the run count is at most the entry count, and
    [null] otherwise; a group whose run count is more than half its entry
    count, and not 1, stays Tier-1 in the encoder's output. *)
Theorem tier2_acceptance {C : Collation} (v1 : V1Blob.t) (s y : Z) :
  V1Blob.e v1 <> [] ->
  Forall (tier2Shape y s) (V1Blob.e v1) ->
  let runs := maximalRuns s (sortBy cmpXs (V1Blob.e v1)) in
  let runCount := Z.of_nat (List.length runs) in
  let entryCount := Z.of_nat (List.length (V1Blob.e v1)) in
  (runCount = 1 \/ 2 * runCount <= entryCount ->
   v1ToV2IfPossible v1 s =
   Some (V2Blob.mk (V1Blob.c v1) (V1Blob.n v1) (V1Blob.id v1) y s runs))
  /\ (~ (runCount = 1 \/ 2 * runCount <= entryCount) ->
      v1ToV2IfPossible v1 s = None)
  /\ (runCount <> 1 -> entryCount < 2 * runCount ->
      forall rows, In v1 (rowsToV1 rows) ->
                   In (BlobV1 v1) (compactFromRows rows s)).
Proof.
  intros Hne Hall runs runCount entryCount.
  assert (Hv : v1ToV2IfPossible v1 s =
               if (runCount =? 1) || (runCount * 2 <=? entryCount)
               then Some (V2Blob.mk (V1Blob.c v1) (V1Blob.n v1)
                            (V1Blob.id v1) y s runs)
               else None).
  { rewrite v1ToV2_unfold. subst runs runCount entryCount.
    destruct (V1Blob.e v1) as [|e0 rest]; [congruence|].
    destruct (shape_head _ _ _ _ Hall) as [-> ->]. reflexivity. }
  repeat split.
  - intros Hacc. rewrite Hv.
    destruct (Z.eqb_spec runCount 1), (Z.leb_spec (runCount * 2) entryCount);
      simpl; auto; lia.
  - intros Hrej. rewrite Hv.
    destruct (Z.eqb_spec runCount 1), (Z.leb_spec (runCount * 2) entryCount);
      simpl; auto; exfalso; apply Hrej; lia.
  - intros H1 H2 rows Hin. unfold compactFromRows.
    apply in_map_iff. exists v1. split; [|exact Hin].
    rewrite Hv.
    destruct (Z.eqb_spec runCount 1), (Z.leb_spec (runCount * 2) entryCount);
      simpl; auto; lia.
Qed.

Lemma tier2_acceptance_witness :
  v1ToV2IfPossible scatteredGroup 4 = None
  /\ v1ToV2IfPossible stridedGroup 4 =
     Some (V2Blob.mk 1 "A" 9 5 4 [V2Run.mk 0 3 1 1; V2Run.mk 20 1 9 9]).
Proof.
  split.
  - apply (proj1 (proj2 (@tier2_acceptance codeUnits scatteredGroup 4 5
                           ltac:(discriminate)
                           ltac:(repeat constructor)))).
    vm_compute. intros [H|H]; [discriminate H|apply H; reflexivity].
  - apply (proj1 (@tier2_acceptance codeUnits stridedGroup 4 5
                    ltac:(discriminate) ltac:(repeat constructor))).
    right. vm_compute. discriminate.
Defined.

(** ** The preconditions of the progression compactor *)

Lemma tier2Candidate_false_y (s : Z) (e0 : V1Entry.t)
  (es : list V1Entry.t) (e1 e2 : V1Entry.t) :
  In e1 es -> In e2 es -> V1Entry.y e1 <> V1Entry.y e2 ->
  tier2Candidate (V1Entry.y e0) s es = false.
Proof.
  intros H1 H2 Hne. apply not_true_is_false. intros Ht.
  apply tier2Candidate_shape in Ht. rewrite Forall_forall in Ht.
  destruct (Ht e1 H1) as [Hy1 _], (Ht e2 H2) as [Hy2 _]. congruence.
Qed.

Lemma tier2Candidate_false_width (y s : Z) (es : list V1Entry.t)
  (e : V1Entry.t) :
  In e es -> V1Entry.xe e - V1Entry.xs e + 1 <> s ->
  tier2Candidate y s es = false.
Proof.
  intros H Hne. apply not_true_is_false. intros Ht.
  apply tier2Candidate_shape in Ht. rewrite Forall_forall in Ht.
  destruct (Ht e H) as [_ Hw]. contradiction.
Qed.

(** C4 — preconditions and the empty group: a non-empty group in which two
    entries differ in [y], or some entry's width is not the stride, is
    refused ([null]); a group with no entries gives the Tier-2 blob with
    [y = 0] and no runs. *)
Theorem tier2_preconditions (v1 : V1Blob.t) (s : Z) :
  (V1Blob.e v1 <> [] ->
   (exists e1 e2, In e1 (V1Blob.e v1) /\ In e2 (V1Blob.e v1)
                  /\ V1Entry.y e1 <> V1Entry.y e2)
   \/ (exists e, In e (V1Blob.e v1)
                 /\ V1Entry.xe e - V1Entry.xs e + 1 <> s) ->
   v1ToV2IfPossible v1 s = None)
  /\ (V1Blob.e v1 = [] ->
      v1ToV2IfPossible v1 s =
      Some (V2Blob.mk (V1Blob.c v1) (V1Blob.n v1) (V1Blob.id v1) 0 s [])).
Proof.
  split.
  - intros Hne Hbad. unfold v1ToV2IfPossible.
    destruct (V1Blob.e v1) as [|e0 rest] eqn:Ee; [congruence|].
    destruct Hbad as [(e1 & e2 & H1 & H2 & Hy)|(e & He & Hw)].
    + now rewrite (tier2Candidate_false_y s e0 _ e1 e2 H1 H2 Hy).
    + now rewrite (tier2Candidate_false_width _ s _ e He Hw).
  - intros He. unfold v1ToV2IfPossible. now rewrite He.
Qed.

Lemma tier2_preconditions_witness :
  v1ToV2IfPossible twoRowGroup 4 = None
  /\ v1ToV2IfPossible scatteredGroup 3 = None
  /\ v1ToV2IfPossible emptyGroup 4 = Some (V2Blob.mk 1 "A" 9 0 4 []).
Proof.
  split; [|split].
  - apply (proj1 (tier2_preconditions twoRowGroup 4)); [discriminate|].
    left. exists (V1Entry.mk 1 1 5 0 3), (V1Entry.mk 2 2 6 4 7).
    simpl. repeat split; auto. discriminate.
  - apply (proj1 (tier2_preconditions scatteredGroup 3)); [discriminate|].
    right. exists (V1Entry.mk 1 1 5 0 3). simpl. split; auto. discriminate.
  - apply (proj2 (tier2_preconditions emptyGroup 4)). reflexivity.
Defined.

(** ** Blobs of unrecognised shape *)

Lemma expandLoop_cons (blob : JsValue) (arr : list JsValue)
  (rows : list RawRow.t) :
  expandLoop (blob :: arr) rows =
  if isV2 blob then expandLoop arr (rows ++ expandV2 (asV2 blob))
  else if isV1 blob then expandLoop arr (rows ++ expandV1 (asV1 blob))
  else Throw "Unknown compact blob shape".
Proof. reflexivity. Qed.

Lemma queryLoop_cons (blob : JsValue) (arr : list JsValue) (x y : Z) :
  queryLoop (blob :: arr) x y =
  if isV2 blob then
    if negb (y =? V2Blob.y (asV2 blob)) then queryLoop arr x y
    else match queryRuns (asV2 blob) x y (V2Blob.seq (asV2 blob)) with
         | Some hit => Some hit
         | None => queryLoop arr x y
         end
  else if isV1 blob then
    match queryEntries (asV1 blob) x y (V1Blob.e (asV1 blob)) with
    | Some hit => Some hit
    | None => queryLoop arr x y
    end
  else queryLoop arr x y.
Proof. reflexivity. Qed.

Lemma expandLoop_unknown (arr : list JsValue) (acc : list RawRow.t) :
  (exists blob, In blob arr /\ isV2 blob = false /\ isV1 blob = false) ->
  expandLoop arr acc = Throw "Unknown compact blob shape".
Proof.
  revert acc. induction arr as [|b arr IH]; intros acc (blob & Hin & H2 & H1).
  - destruct Hin.
  - simpl. destruct Hin as [->|Hin].
    + now rewrite H2, H1.
    + destruct (isV2 b); [apply IH; eauto|].
      destruct (isV1 b); [apply IH; eauto|reflexivity].
Qed.

(** The decoder refuses a document as soon as one blob has neither shape. *)
Lemma expandCompact_unknown {C : Collation} (doc : Compact) :
  (exists blob, In blob (blobsOf doc)
                /\ isV2 blob = false /\ isV1 blob = false) ->
  expandCompact doc = Throw "Unknown compact blob shape".
Proof.
  intros H. unfold expandCompact. now rewrite expandLoop_unknown.
Qed.

(** The resolver passes over a blob that has neither shape. *)
Lemma queryLoop_skips_unknown (pre post : list JsValue) (blob : JsValue)
  (x y : Z) :
  isV2 blob = false -> isV1 blob = false ->
  queryLoop (pre ++ blob :: post) x y = queryLoop (pre ++ post) x y.
Proof.
  intros H2 H1. induction pre as [|b pre IH]; simpl.
  - now rewrite H2, H1.
  - now rewrite IH.
Qed.

(** C9 — unknown blob shape, at a document whose first blob is an object
    with neither array: the decoder throws; the resolver does not, it
    answers from the blobs that remain, and answers "no match" when the
    shapeless blob is the whole document. *)
Theorem unknown_shape_decoder_throws_resolver_skips :
  let doc := Many [shapeless; toJs (BlobV1 scenarioV1)] in
  @expandCompact codeUnits doc = Throw "Unknown compact blob shape"
  /\ queryOneCompact doc 2 5 =
     Ok (Some (QueryHit.mk 1 "A" 9 1 1 5 0 3 "V1"))
  /\ queryOneCompact (Single shapeless) 2 5 = Ok None.
Proof. repeat split. Qed.

(** ** Blobs that carry both arrays *)

Section TwoShapes.
Variables (o : JsBlob.t) (e' : option (list V1Entry.t)).
Hypothesis Hseq : isV2 (JsObj o) = true.

Lemma isV2_withE : isV2 (JsObj (withE o e')) = true.
Proof using Hseq. exact Hseq. Qed.

Lemma asV2_withE : asV2 (JsObj (withE o e')) = asV2 (JsObj o).
Proof. reflexivity. Qed.

Lemma expandLoop_withE (pre post : list JsValue) (acc : list RawRow.t) :
  expandLoop (pre ++ JsObj (withE o e') :: post) acc =
  expandLoop (pre ++ JsObj o :: post) acc.
Proof using Hseq.
  revert acc. induction pre as [|b pre IH]; intros acc.
  - rewrite !app_nil_l, !expandLoop_cons.
    now rewrite isV2_withE, Hseq, asV2_withE.
  - rewrite <- !app_comm_cons, !expandLoop_cons. now rewrite !IH.
Qed.

Lemma queryLoop_withE (pre post : list JsValue) (x y : Z) :
  queryLoop (pre ++ JsObj (withE o e') :: post) x y =
  queryLoop (pre ++ JsObj o :: post) x y.
Proof using Hseq.
  induction pre as [|b pre IH].
  - rewrite !app_nil_l, !queryLoop_cons.
    now rewrite isV2_withE, Hseq, asV2_withE.
  - rewrite <- !app_comm_cons, !queryLoop_cons. now rewrite !IH.
Qed.
End TwoShapes.

(** C10 — tier discrimination: a blob whose [seq] and [e] are both arrays
    is read as Tier-2 by the decoder and by the resolver, and its [e] is
    ignored: replacing [e] by anything, or removing it, changes neither
    result, wherever the blob stands in the document. *)
Theorem seq_tested_before_e {C : Collation} (o : JsBlob.t)
  (sq : list V2Run.t) (es : list V1Entry.t) :
  JsBlob.seq o = Some sq -> JsBlob.e o = Some es ->
  let v2 := V2Blob.mk (JsBlob.c o) (JsBlob.n o) (JsBlob.id o) (JsBlob.y o)
              (JsBlob.s o) sq in
  isV2 (JsObj o) = true /\ isV1 (JsObj o) = true
  /\ expandCompact (Single (JsObj o)) = Ok (sortBy cmpRow (expandV2 v2))
  /\ (forall x y,
        queryOneCompact (Single (JsObj o)) x y =
        Ok (if y =? JsBlob.y o then queryRuns v2 x y sq else None))
  /\ (forall e' pre post,
        expandCompact (Many (pre ++ JsObj (withE o e') :: post)) =
        expandCompact (Many (pre ++ JsObj o :: post)))
  /\ (forall e' pre post x y,
        queryOneCompact (Many (pre ++ JsObj (withE o e') :: post)) x y =
        queryOneCompact (Many (pre ++ JsObj o :: post)) x y).
Proof.
  intros Hs He v2.
  assert (H2 : isV2 (JsObj o) = true) by (simpl; now rewrite Hs).
  assert (Ha : asV2 (JsObj o) = v2) by (simpl; now rewrite Hs).
  repeat split.
  - exact H2.
  - simpl. now rewrite He.
  - unfold expandCompact. cbn [blobsOf]. rewrite expandLoop_cons.
    now rewrite H2, Ha.
  - intros x y. unfold queryOneCompact. cbn [blobsOf].
    rewrite queryLoop_cons, H2, Ha. subst v2. cbn [V2Blob.y V2Blob.seq].
    destruct (y =? JsBlob.y o); cbn [negb]; [|reflexivity].
    now destruct (queryRuns _ x y sq).
  - intros e' pre post. unfold expandCompact. cbn [blobsOf].
    now rewrite expandLoop_withE.
  - intros e' pre post x y. unfold queryOneCompact. cbn [blobsOf].
    now rewrite queryLoop_withE.
Qed.

Lemma seq_tested_before_e_witness :
  @expandCompact codeUnits (Single (JsObj twoShaped)) =
  Ok [sampleRow 1 1 0 5; sampleRow 1 1 1 5; sampleRow 1 1 2 5;
      sampleRow 1 1 3 5]
  /\ queryOneCompact (Single (JsObj twoShaped)) 2 5 =
     Ok (Some (QueryHit.mk 1 "A" 9 1 1 5 0 3 "V2")).
Proof.
  pose proof (@seq_tested_before_e codeUnits twoShaped
                [V2Run.mk 0 1 1 1] [V1Entry.mk 7 7 5 0 3]
                eq_refl eq_refl) as (_ & _ & Hd & Hq & _).
  split; [exact Hd|exact (Hq 2 5)].
Defined.

(** ** The decoder's output order *)

Lemma expandLoop_closed (arr : list JsValue) (acc : list RawRow.t) :
  expandLoop arr acc =
  if forallb knownShape arr then Ok (acc ++ flat_map pushedRows arr)
  else Throw "Unknown compact blob shape".
Proof.
  revert acc. induction arr as [|b arr IH]; intros acc.
  - simpl. now rewrite app_nil_r.
  - rewrite expandLoop_cons. cbn [forallb flat_map].
    unfold knownShape at 1, pushedRows at 1.
    destruct (isV2 b); [|destruct (isV1 b)]; cbn [orb andb];
      try reflexivity; rewrite IH, app_assoc; reflexivity.
Qed.

Lemma expandCompact_closed {C : Collation} (doc : Compact) :
  expandCompact doc =
  if forallb knownShape (blobsOf doc)
  then Ok (sortBy cmpRow (flat_map pushedRows (blobsOf doc)))
  else Throw "Unknown compact blob shape".
Proof.
  unfold expandCompact. rewrite expandLoop_closed.
  now destruct (forallb knownShape (blobsOf doc)).
Qed.

Lemma forallb_perm {A : Type} (p : A -> bool) (l l' : list A) :
  Permutation l l' -> forallb p l = forallb p l'.
Proof.
  induction 1 as [|x l l' _ IH|x y l|l l' l'' _ IH1 _ IH2]; simpl.
  - reflexivity.
  - now rewrite IH.
  - now rewrite !andb_assoc, (andb_comm (p y)).
  - congruence.
Qed.

Lemma StronglySorted_impl {A : Type} (R1 R2 : A -> A -> Prop)
  (l : list A) :
  (forall a b, R1 a b -> R2 a b) ->
  StronglySorted R1 l -> StronglySorted R2 l.
Proof.
  intros H. induction 1 as [|x l Hs IH Hx]; constructor; auto.
  eapply Forall_impl; [|exact Hx]. auto.
Qed.

(** C6 (amended) — canonical order: what [expandCompact] returns is sorted
    ascending by [(cityId, countryId, name, tileY, tileX, id, number)], the
    names as [localeCompare] orders them; two documents that decode to the
    same records, each as many times, decode to permutations of one
    another, both sorted, and to the same sequence when [localeCompare]
    returns [0] on no two distinct names among the records; so it is with
    the blobs of a document taken in another order. *)
Theorem expandCompact_canonical {C : Collation} {HO : CollationOrder C}
  (doc : Compact) (out : list RawRow.t) :
  expandCompact doc = Ok out ->
  StronglySorted canonLe out
  /\ (forall doc' out',
        expandCompact doc' = Ok out' -> Permutation out out' ->
        StronglySorted canonLe out'
        /\ (apartNames (map RawRow.name out) -> out' = out))
  /\ (forall blobs',
        Permutation (blobsOf doc) blobs' ->
        exists out',
          expandCompact (Many blobs') = Ok out'
          /\ Permutation out' out
          /\ (apartNames (map RawRow.name out) -> out' = out)).
Proof.
  assert (Hsorted : forall l, StronglySorted canonLe (sortBy cmpRow l)).
  { intros l. eapply StronglySorted_impl; [apply notAfter_cmpRow|].
    apply (sortBy_sorted cmpRow (HC := Consistent_cmpRow)). }
  assert (Heq : forall l l',
            Permutation (sortBy cmpRow l) (sortBy cmpRow l') ->
            apartNames (map RawRow.name (sortBy cmpRow l)) ->
            sortBy cmpRow l' = sortBy cmpRow l).
  { intros l l' HP Hap. symmetry.
    apply (sorted_perm_eq cmpRow (HC := Consistent_cmpRow)).
    - apply (cmpRow_apart _ _ Hap), incl_refl.
    - apply (sortBy_sorted cmpRow (HC := Consistent_cmpRow)).
    - apply (sortBy_sorted cmpRow (HC := Consistent_cmpRow)).
    - exact HP. }
  rewrite expandCompact_closed.
  destruct (forallb knownShape (blobsOf doc)) eqn:Hk; [|discriminate].
  intros [= <-]. split; [apply Hsorted|]. split.
  - intros doc' out'. rewrite expandCompact_closed.
    destruct (forallb knownShape (blobsOf doc')); [|discriminate].
    intros [= <-] HP. split; [apply Hsorted|]. now apply Heq.
  - intros blobs' HP. rewrite expandCompact_closed. cbn [blobsOf].
    rewrite <- (forallb_perm _ _ _ HP), Hk. eexists.
    split; [reflexivity|].
    assert (HP' : Permutation
                    (sortBy cmpRow (flat_map pushedRows blobs'))
                    (sortBy cmpRow (flat_map pushedRows (blobsOf doc)))).
    { eapply perm_trans; [apply sortBy_perm|].
      eapply perm_trans; [|apply Permutation_sym, sortBy_perm].
      apply Permutation_sym, Permutation_flat_map, HP. }
    split; [exact HP'|]. apply Heq. now apply Permutation_sym.
Qed.

Lemma expandCompact_canonical_witness :
  StronglySorted (@canonLe codeUnits)
    [sampleRow 1 1 0 5; sampleRow 1 1 1 5; sampleRow 1 1 2 5;
     sampleRow 1 1 3 5]
  /\ @expandCompact codeUnits
       (Many [toJs (BlobV2 (V2Blob.mk 1 "A" 9 5 2 [V2Run.mk 2 1 1 1]));
              toJs (BlobV1 (V1Blob.mk 1 "A" 9 [V1Entry.mk 1 1 5 0 1]))]) =
     Ok [sampleRow 1 1 0 5; sampleRow 1 1 1 5; sampleRow 1 1 2 5;
         sampleRow 1 1 3 5].
Proof.
  pose proof (@expandCompact_canonical codeUnits _
                (Many [toJs (BlobV1 (V1Blob.mk 1 "A" 9
                                       [V1Entry.mk 1 1 5 0 1]));
                       toJs (BlobV2 (V2Blob.mk 1 "A" 9 5 2
                                       [V2Run.mk 2 1 1 1]))])
                _ eq_refl) as (Hsorted & _ & Horder).
  split; [exact Hsorted|].
  destruct (Horder _ (perm_swap _ _ _)) as (out' & Hd & _ & Heq).
  rewrite Hd. f_equal. apply Heq, codeUnits_apart.
Defined.

(** C6 as stated fails where two spellings of a name compare equal: the
    blobs of [twoSpellings] in their two orders hold the same records and
    decode to different sequences. *)
Lemma blob_order_shows_in_equal_names :
  ~ @sameRecordsSameOutput ignoringDel
      (Many (map toJs (@compactFromRows ignoringDel twoSpellings 4)))
      (Many (List.rev
               (map toJs (@compactFromRows ignoringDel twoSpellings 4)))).
Proof.
  intros H. specialize (H _ _ eq_refl eq_refl).
  assert (E : [namedRow "A" 0; namedRow delName 1; namedRow "A" 1]
              = [namedRow "A" 0; namedRow "A" 1; namedRow delName 1]).
  { apply H. vm_compute. apply perm_skip, perm_swap. }
  discriminate E.
Qed.

(** ** Duplicate records *)

Lemma zrange_NoDup (lo hi : Z) : NoDup (zrange lo hi).
Proof.
  unfold zrange. apply Finite.Injective_map_NoDup; [|apply seq_NoDup].
  intros a b H. lia.
Qed.

Lemma entryRows_In (c : Z) (nm : string) (cid : Z) (e : V1Entry.t)
  (r : RawRow.t) :
  In r (entryRows c nm cid e) <->
  metaOf r = (c, nm, cid)
  /\ entryCovers (RawRow.id r) (RawRow.number r)
       (Coord.tileY (RawRow.coord r)) (Coord.tileX (RawRow.coord r)) e
     = true.
Proof.
  unfold entryRows, entryCovers, metaOf. rewrite in_map_iff.
  rewrite !andb_true_iff, !Z.eqb_eq, !Z.leb_le.
  split.
  - intros (x & <- & Hx). apply zrange_In in Hx. simpl. repeat split; lia.
  - intros (Hm & (((Hi & Hn) & Hy) & Hlo) & Hhi).
    exists (Coord.tileX (RawRow.coord r)). split; [|apply zrange_In; lia].
    destruct r as [i ci n' nu co [x y]]. simpl in *.
    injection Hm as -> -> ->. now subst.
Qed.

Lemma entryRows_NoDup (c : Z) (nm : string) (cid : Z) (e : V1Entry.t) :
  NoDup (entryRows c nm cid e).
Proof.
  unfold entryRows. apply Finite.Injective_map_NoDup; [|apply zrange_NoDup].
  intros a b H. now injection H.
Qed.

Lemma count_entryRows (c : Z) (nm : string) (cid : Z) (e : V1Entry.t)
  (r : RawRow.t) :
  metaOf r = (c, nm, cid) ->
  count_occ RawRow_eq_dec (entryRows c nm cid e) r =
  if entryCovers (RawRow.id r) (RawRow.number r)
       (Coord.tileY (RawRow.coord r)) (Coord.tileX (RawRow.coord r)) e
  then 1%nat else 0%nat.
Proof.
  intros Hm. destruct (entryCovers _ _ _ _ e) eqn:E.
  - apply NoDup_count_occ'; [apply entryRows_NoDup|].
    now apply entryRows_In.
  - apply count_occ_not_In. rewrite entryRows_In. intros [_ H]. congruence.
Qed.

Lemma count_expandV1 (b : V1Blob.t) (r : RawRow.t) :
  blobOfRow b r ->
  count_occ RawRow_eq_dec (expandV1 b) r = coverCount (V1Blob.e b) r.
Proof.
  intros Hm. rewrite expandV1_entryRows. unfold coverCount.
  induction (V1Blob.e b) as [|e es IH]; [reflexivity|].
  cbn [flat_map filter]. rewrite count_occ_app, count_entryRows by exact Hm.
  destruct (entryCovers _ _ _ _ e); cbn [List.length]; lia.
Qed.

Lemma expandV1_meta (b : V1Blob.t) (r : RawRow.t) :
  In r (expandV1 b) -> blobOfRow b r.
Proof.
  rewrite expandV1_entryRows. intros H.
  apply in_flat_map in H as (e & _ & He). now apply entryRows_In in He.
Qed.

Lemma blobOfRow_key (b : V1Blob.t) (r : RawRow.t) :
  blobOfRow b r -> blobKeyOf b = metaKeyOf r.
Proof.
  unfold blobOfRow, metaOf, blobKeyOf, metaKeyOf.
  now intros [= -> -> ->].
Qed.

Lemma count_other_blobs (blobs : list V1Blob.t) (r : RawRow.t) :
  (forall b, In b blobs -> blobKeyOf b <> metaKeyOf r) ->
  count_occ RawRow_eq_dec (flat_map expandV1 blobs) r = 0%nat.
Proof.
  intros H. apply count_occ_not_In. intros Hin.
  apply in_flat_map in Hin as (b & Hb & Hr).
  apply (H b Hb). now apply blobOfRow_key, expandV1_meta.
Qed.

Lemma count_own_blob (blobs : list V1Blob.t) (b : V1Blob.t) (r : RawRow.t) :
  NoDup (map blobKeyOf blobs) -> In b blobs -> blobOfRow b r ->
  count_occ RawRow_eq_dec (flat_map expandV1 blobs) r =
  count_occ RawRow_eq_dec (expandV1 b) r.
Proof.
  intros Hnd Hin Hm. apply blobOfRow_key in Hm.
  induction blobs as [|a blobs IH]; [destruct Hin|].
  inversion Hnd as [|? ? Ha Hl]; subst.
  cbn [flat_map]. rewrite count_occ_app.
  destruct Hin as [->|Hin].
  - rewrite count_other_blobs; [lia|].
    intros b' Hb' E. apply Ha. rewrite Hm, <- E. now apply in_map.
  - rewrite IH by assumption.
    assert (Hz : count_occ RawRow_eq_dec (expandV1 a) r = 0%nat);
      [|lia].
    apply count_occ_not_In. intros Hr.
    apply expandV1_meta, blobOfRow_key in Hr.
    apply Ha. rewrite Hr, <- Hm. now apply in_map.
Qed.

Lemma rowsToV1_keys_NoDup {C : Collation} (rows : list RawRow.t) :
  NoDup (map blobKeyOf (rowsToV1 rows)).
Proof.
  rewrite rowsToV1_closed.
  eapply Permutation_NoDup;
    [apply Permutation_map, Permutation_sym, sortBy_perm|].
  unfold groupBlobs. rewrite map_map. apply (firstBy_NoDup metaKeyOf).
Qed.

(** C5 (amended) — duplicate records are kept, not collapsed: the columns
    of a sub-key are sorted with their repetitions and run-merged as they
    are, and the entries of a group cover each tile as many times as the
    input gives it. *)
Theorem duplicates_kept {C : Collation} (rows : list RawRow.t) :
  (forall kv,
     flat_map (fun e => zrange (V1Entry.xs e) (V1Entry.xe e))
       (bucketEntries kv) = sortBy cmpNum (snd kv))
  /\ (forall b r,
        In b (rowsToV1 rows) -> blobOfRow b r ->
        coverCount (V1Blob.e b) r = count_occ RawRow_eq_dec rows r).
Proof.
  split.
  - intros kv. unfold bucketEntries. apply mergeRuns_columns.
  - intros b r Hb Hm.
    rewrite <- (count_expandV1 b r Hm).
    rewrite <- (count_own_blob (rowsToV1 rows) b r);
      auto using rowsToV1_keys_NoDup.
    apply Permutation_count_occ, rowsToV1_rows.
Qed.

Lemma duplicates_kept_witness :
  coverCount
    [V1Entry.mk 1 1 5 0 0; V1Entry.mk 1 1 5 0 0] (sampleRow 1 1 0 5)
  = 2%nat.
Proof.
  apply (proj2 (@duplicates_kept codeUnits duplicated)
           (V1Blob.mk 1 "A" 9 [V1Entry.mk 1 1 5 0 0; V1Entry.mk 1 1 5 0 0])
           (sampleRow 1 1 0 5)).
  - left. reflexivity.
  - reflexivity.
Defined.

(** C5 as stated fails on a record given twice: its tile is covered by two
    entries. *)
Lemma duplicates_not_collapsed : ~ @coveredOnce codeUnits duplicated.
Proof.
  intros H.
  specialize (H (V1Blob.mk 1 "A" 9
                   [V1Entry.mk 1 1 5 0 0; V1Entry.mk 1 1 5 0 0])
                (sampleRow 1 1 0 5)
                (or_introl eq_refl) (or_introl eq_refl) eq_refl).
  discriminate H.
Qed.

(** ** The resolver against the decoder *)

Lemma queryEntries_hit (b : V1Blob.t) (x y : Z) (es : list V1Entry.t)
  (h : QueryHit.t) :
  queryEntries b x y es = Some h ->
  exists e, In e es /\ V1Entry.y e = y
            /\ V1Entry.xs e <= x <= V1Entry.xe e
            /\ h = QueryHit.mk (V1Blob.c b) (V1Blob.n b) (V1Blob.id b)
                     (V1Entry.id e) (V1Entry.n e) (V1Entry.y e)
                     (V1Entry.xs e) (V1Entry.xe e) "V1".
Proof.
  induction es as [|e es IH]; cbn [queryEntries]; [discriminate|].
  destruct (Z.eqb_spec (V1Entry.y e) y) as [Hy|Hy]; cbn [negb].
  - destruct (Z.geb_spec x (V1Entry.xs e)), (Z.leb_spec x (V1Entry.xe e));
      cbn [andb].
    + intros [= <-]. exists e. repeat split; auto; try lia. now left.
    + intros Hq. destruct (IH Hq) as (e' & He' & Hr). exists e'.
      split; auto. now right.
    + intros Hq. destruct (IH Hq) as (e' & He' & Hr). exists e'.
      split; auto. now right.
    + intros Hq. destruct (IH Hq) as (e' & He' & Hr). exists e'.
      split; auto. now right.
  - intros Hq. destruct (IH Hq) as (e' & He' & Hr). exists e'. split; auto.
    now right.
Qed.

Lemma queryEntries_complete (b : V1Blob.t) (x y : Z) (es : list V1Entry.t) :
  (exists e, In e es /\ V1Entry.y e = y
             /\ V1Entry.xs e <= x <= V1Entry.xe e) ->
  queryEntries b x y es <> None.
Proof.
  induction es as [|e es IH]; intros (e' & Hin & Hy & Hx); [destruct Hin|].
  cbn [queryEntries].
  destruct (Z.eqb_spec (V1Entry.y e) y) as [Hye|Hye]; cbn [negb].
  - destruct (Z.geb_spec x (V1Entry.xs e)), (Z.leb_spec x (V1Entry.xe e));
      cbn [andb]; try discriminate;
      (destruct Hin as [->|Hin]; [lia|apply IH; eauto]).
  - destruct Hin as [->|Hin]; [congruence|apply IH; eauto].
Qed.

Lemma queryRuns_hit (b : V2Blob.t) (x y : Z) (sq : list V2Run.t)
  (h : QueryHit.t) :
  queryRuns b x y sq = Some h ->
  exists r q, In r sq /\ inMember b r q x
              /\ h = QueryHit.mk (V2Blob.c b) (V2Blob.n b) (V2Blob.id b)
                       (V2Run.id0 r + q) (V2Run.n0 r + q) y
                       (V2Run.x0 r + q * V2Blob.s b)
                       (V2Run.x0 r + q * V2Blob.s b + (V2Blob.s b - 1))
                       "V2".
Proof.
  induction sq as [|r sq IH]; cbn [queryRuns]; [discriminate|].
  assert (Hnext : queryRuns b x y sq = Some h ->
                  exists r0 q, In r0 (r :: sq) /\ inMember b r0 q x
                    /\ h = QueryHit.mk (V2Blob.c b) (V2Blob.n b)
                             (V2Blob.id b) (V2Run.id0 r0 + q)
                             (V2Run.n0 r0 + q) y
                             (V2Run.x0 r0 + q * V2Blob.s b)
                             (V2Run.x0 r0 + q * V2Blob.s b
                              + (V2Blob.s b - 1)) "V2").
  { intros H. destruct (IH H) as (r0 & q & Hin & Hr). exists r0, q.
    split; [now right|exact Hr]. }
  destruct (x <? V2Run.x0 r); [exact Hnext|].
  unfold floorQuot. destruct (V2Blob.s b =? 0); [exact Hnext|].
  set (q := (x - V2Run.x0 r) / V2Blob.s b).
  destruct (Z.ltb_spec q 0); cbn [orb]; [exact Hnext|].
  destruct (Z.geb_spec q (V2Run.k r)); [exact Hnext|].
  destruct (Z.geb_spec x (V2Run.x0 r + q * V2Blob.s b)); cbn [andb];
    [|exact Hnext].
  destruct (Z.leb_spec x (V2Run.x0 r + q * V2Blob.s b + (V2Blob.s b - 1)));
    [|exact Hnext].
  intros [= <-]. exists r, q. split; [now left|].
  split; [unfold inMember; lia|reflexivity].
Qed.

Lemma queryRuns_complete (b : V2Blob.t) (x y : Z) (sq : list V2Run.t) :
  (exists r i, In r sq /\ inMember b r i x) ->
  queryRuns b x y sq <> None.
Proof.
  induction sq as [|r sq IH]; intros (r' & i & Hin & Hm); [destruct Hin|].
  cbn [queryRuns].
  destruct Hin as [->|Hin].
  - destruct Hm as [Hi Hx].
    assert (Hs : 1 <= V2Blob.s b) by lia.
    assert (Hq : (x - V2Run.x0 r') / V2Blob.s b = i).
    { symmetry. apply (Z.div_unique_pos _ _ i
                         (x - V2Run.x0 r' - i * V2Blob.s b)); lia. }
    assert (Hx0 : V2Run.x0 r' <= x) by nia.
    destruct (Z.ltb_spec x (V2Run.x0 r')); [lia|].
    unfold floorQuot. destruct (Z.eqb_spec (V2Blob.s b) 0); [lia|].
    rewrite Hq.
    destruct (Z.ltb_spec i 0); [lia|].
    destruct (Z.geb_spec i (V2Run.k r')); [lia|]. cbn [orb].
    destruct (Z.geb_spec x (V2Run.x0 r' + i * V2Blob.s b)); [|lia].
    destruct (Z.leb_spec x
                (V2Run.x0 r' + i * V2Blob.s b + (V2Blob.s b - 1))); [|lia].
    discriminate.
  - assert (Hnext : queryRuns b x y sq <> None) by (apply IH; eauto).
    destruct (x <? V2Run.x0 r); [exact Hnext|].
    destruct (floorQuot _ _) as [q|]; [|exact Hnext].
    destruct (_ || _); [exact Hnext|].
    destruct (_ && _); [discriminate|exact Hnext].
Qed.

Lemma memberRows_In (b : V2Blob.t) (r : V2Run.t) (i : Z) (row : RawRow.t) :
  In row (memberRows b r i) <->
  exists x,
    V2Run.x0 r + i * V2Blob.s b <= x
    <= V2Run.x0 r + i * V2Blob.s b + (V2Blob.s b - 1)
    /\ row = RawRow.mk (V2Run.id0 r + i) (V2Blob.c b) (V2Blob.n b)
               (V2Run.n0 r + i) (V2Blob.id b) (Coord.mk x (V2Blob.y b)).
Proof.
  unfold memberRows. cbv zeta. rewrite in_map_iff. split.
  - intros (x & <- & Hx). apply zrange_In in Hx. eauto.
  - intros (x & Hx & ->). exists x. split; [reflexivity|].
    now apply zrange_In.
Qed.

Lemma expandV2_In (b : V2Blob.t) (row : RawRow.t) :
  In row (expandV2 b) <->
  exists r i, In r (V2Blob.seq b) /\ 0 <= i < V2Run.k r
              /\ In row (memberRows b r i).
Proof.
  rewrite expandV2_memberRows, in_flat_map. split.
  - intros (r & Hr & H). apply in_flat_map in H as (i & Hi & H).
    apply upto_In in Hi. eauto.
  - intros (r & i & Hr & Hi & H). exists r. split; [exact Hr|].
    apply in_flat_map. exists i. split; [now apply upto_In|exact H].
Qed.

Lemma queryBlob_hit (b : Blob) (x y : Z) (h : QueryHit.t) :
  queryBlob b x y = Some h ->
  exists r, In r (expandBlob b) /\ covers r x y /\ hitMatches h r.
Proof.
  destruct b as [b1|b2]; cbn [queryBlob expandBlob].
  - intros H. apply queryEntries_hit in H as (e & He & Hy & Hx & ->).
    exists (RawRow.mk (V1Entry.id e) (V1Blob.c b1) (V1Blob.n b1)
              (V1Entry.n e) (V1Blob.id b1) (Coord.mk x y)).
    split; [|now repeat split].
    rewrite expandV1_entryRows. apply in_flat_map. exists e.
    split; [exact He|]. apply entryRows_In. split; [reflexivity|].
    unfold entryCovers.
    cbn [RawRow.id RawRow.number RawRow.coord Coord.tileX Coord.tileY].
    rewrite !andb_true_iff, !Z.eqb_eq, !Z.leb_le. lia.
  - destruct (Z.eqb_spec y (V2Blob.y b2)) as [Hy|Hy]; [|discriminate].
    intros H. apply queryRuns_hit in H as (r & q & Hr & [Hq Hx] & ->).
    exists (RawRow.mk (V2Run.id0 r + q) (V2Blob.c b2) (V2Blob.n b2)
              (V2Run.n0 r + q) (V2Blob.id b2) (Coord.mk x y)).
    split; [|now repeat split].
    apply expandV2_In. exists r, q. repeat split; auto; try lia.
    apply memberRows_In. exists x. split; [exact Hx|]. now rewrite Hy.
Qed.

Lemma queryBlob_complete (b : Blob) (x y : Z) :
  (exists r, In r (expandBlob b) /\ covers r x y) ->
  queryBlob b x y <> None.
Proof.
  intros (row & Hin & Hx & Hy).
  destruct b as [b1|b2]; cbn [queryBlob expandBlob] in *.
  - rewrite expandV1_entryRows in Hin.
    apply in_flat_map in Hin as (e & He & Hrow).
    apply entryRows_In in Hrow as [_ Hc]. unfold entryCovers in Hc.
    rewrite !andb_true_iff, !Z.eqb_eq, !Z.leb_le in Hc.
    apply queryEntries_complete. exists e. split; [exact He|]. lia.
  - apply expandV2_In in Hin as (r & i & Hr & Hi & Hrow).
    apply memberRows_In in Hrow as (x' & Hx' & ->). cbn in Hx, Hy.
    subst x' y. rewrite Z.eqb_refl.
    apply queryRuns_complete. exists r, i. split; [exact Hr|].
    split; assumption.
Qed.

Lemma queryLoop_toJs (b : Blob) (bs : list Blob) (x y : Z) :
  queryLoop (map toJs (b :: bs)) x y =
  match queryBlob b x y with
  | Some h => Some h
  | None => queryLoop (map toJs bs) x y
  end.
Proof.
  cbn [map]. rewrite queryLoop_cons. destruct b as [b1|b2].
  - change (isV2 (toJs (BlobV1 b1))) with false.
    change (isV1 (toJs (BlobV1 b1))) with true. cbv iota.
    now rewrite asV1_toJs.
  - change (isV2 (toJs (BlobV2 b2))) with true. cbv iota.
    rewrite asV2_toJs. cbn [queryBlob].
    now destruct (y =? V2Blob.y b2).
Qed.

(** A hit is a decoded record on the queried tile. *)
Lemma queryLoop_hit (bs : list Blob) (x y : Z) (h : QueryHit.t) :
  queryLoop (map toJs bs) x y = Some h ->
  exists r, In r (flat_map expandBlob bs) /\ covers r x y /\ hitMatches h r.
Proof.
  induction bs as [|b bs IH]; [discriminate|].
  rewrite queryLoop_toJs. cbn [flat_map].
  destruct (queryBlob b x y) as [h'|] eqn:E.
  - intros [= ->]. apply queryBlob_hit in E as (r & Hr & Hc).
    exists r. split; [apply in_or_app; now left|exact Hc].
  - intros H. destruct (IH H) as (r & Hr & Hc).
    exists r. split; [apply in_or_app; now right|exact Hc].
Qed.

(** A decoded record on the queried tile gives a hit. *)
Lemma queryLoop_complete (bs : list Blob) (x y : Z) :
  (exists r, In r (flat_map expandBlob bs) /\ covers r x y) ->
  queryLoop (map toJs bs) x y <> None.
Proof.
  induction bs as [|b bs IH]; intros (r & Hr & Hc); [destruct Hr|].
  rewrite queryLoop_toJs. cbn [flat_map] in Hr.
  destruct (queryBlob b x y) as [h'|] eqn:E; [discriminate|].
  apply in_app_or in Hr as [Hr|Hr].
  - exfalso. apply (queryBlob_complete b x y); eauto.
  - apply IH. eauto.
Qed.

(** *** The hit is the first record on the tile *)

Lemma map_seq_shift {B : Type} (g h : nat -> B) (n : nat) :
  forall a b,
    (forall j, g (a + j)%nat = h (b + j)%nat) ->
    map g (List.seq a n) = map h (List.seq b n).
Proof.
  induction n as [|n IH]; intros a b H; [reflexivity|].
  cbn [List.seq map]. f_equal.
  - specialize (H 0%nat). now rewrite !Nat.add_0_r in H.
  - apply IH. intros j. specialize (H (S j)).
    now rewrite !Nat.add_succ_r in H.
Qed.

Lemma zrange_split (lo hi x : Z) :
  lo <= x <= hi ->
  zrange lo hi = zrange lo (x - 1) ++ x :: zrange (x + 1) hi.
Proof.
  intros H. unfold zrange.
  replace (Z.to_nat (hi - lo + 1))
    with (Z.to_nat (x - 1 - lo + 1) + S (Z.to_nat (hi - (x + 1) + 1)))%nat
    by lia.
  rewrite seq_app, map_app. f_equal. cbn [List.seq map Nat.add]. f_equal.
  - lia.
  - apply map_seq_shift. intros j. lia.
Qed.

(** A scan that stops at the first unit with an answer, over units that
    each stand for a list of records: the answer is for the first record
    with the property, in the order of the lists. *)
Section FirstMatch.
Context {U R H : Type} (f : U -> list R) (q : U -> option H)
  (scan : list U -> option H) (P : R -> Prop) (M : H -> R -> Prop).
Hypothesis scan_nil : scan [] = None.
Hypothesis scan_cons :
  forall u us,
    scan (u :: us) = match q u with Some h => Some h | None => scan us end.
Hypothesis q_none : forall u, q u = None -> forall r, In r (f u) -> ~ P r.
Hypothesis q_some :
  forall u h,
    q u = Some h ->
    exists pre r post,
      f u = pre ++ r :: post
      /\ (forall r0, In r0 pre -> ~ P r0) /\ P r /\ M h r.

Lemma scan_first (us : list U) (h : H) :
  scan us = Some h ->
  exists pre r post,
    flat_map f us = pre ++ r :: post
    /\ (forall r0, In r0 pre -> ~ P r0) /\ P r /\ M h r.
Proof using scan_nil scan_cons q_none q_some.
  induction us as [|u us IH]; [rewrite scan_nil; discriminate|].
  rewrite scan_cons. cbn [flat_map]. destruct (q u) as [h'|] eqn:E.
  - intros [= ->].
    destruct (q_some u h E) as (pre & r & post & Hf & Hpre & Hr).
    exists pre, r, (post ++ flat_map f us). split; [|now split].
    rewrite Hf, <- app_assoc. reflexivity.
  - intros Hs. destruct (IH Hs) as (pre & r & post & Hf & Hpre & Hr).
    exists (f u ++ pre), r, post. split; [|split; [|exact Hr]].
    + rewrite Hf, <- app_assoc. reflexivity.
    + intros r0 Hr0. apply in_app_or in Hr0 as [Hr0|Hr0];
        [now apply (q_none u E)|now apply Hpre].
Qed.
End FirstMatch.

Lemma queryEntries_cons (b : V1Blob.t) (x y : Z) (e : V1Entry.t)
  (es : list V1Entry.t) :
  queryEntries b x y (e :: es) =
  match queryEntries b x y [e] with
  | Some h => Some h
  | None => queryEntries b x y es
  end.
Proof.
  cbn [queryEntries]. destruct (negb _); [reflexivity|].
  now destruct (_ && _).
Qed.

Lemma queryRuns_cons (b : V2Blob.t) (x y : Z) (r : V2Run.t)
  (sq : list V2Run.t) :
  queryRuns b x y (r :: sq) =
  match queryRuns b x y [r] with
  | Some h => Some h
  | None => queryRuns b x y sq
  end.
Proof.
  cbn [queryRuns]. destruct (_ <? _); [reflexivity|]. cbv zeta.
  destruct (floorQuot _ _); [|reflexivity].
  destruct (_ || _); [reflexivity|]. now destruct (_ && _).
Qed.

(** The rows of an entry, and of a member of a run, around column [x]. *)
Lemma entryRows_split (c : Z) (nm : string) (cid : Z) (e : V1Entry.t)
  (x : Z) :
  V1Entry.xs e <= x <= V1Entry.xe e ->
  exists pre post,
    entryRows c nm cid e
    = pre
      ++ RawRow.mk (V1Entry.id e) c nm (V1Entry.n e) cid
           (Coord.mk x (V1Entry.y e)) :: post
    /\ forall r0, In r0 pre -> Coord.tileX (RawRow.coord r0) < x.
Proof.
  intros Hx. unfold entryRows.
  rewrite (zrange_split _ _ x Hx), map_app. cbn [map].
  eexists. eexists. split; [reflexivity|].
  intros r0 Hr0. apply in_map_iff in Hr0 as (x0 & <- & Hx0).
  apply zrange_In in Hx0. cbn. lia.
Qed.

Lemma memberRows_split (b : V2Blob.t) (r : V2Run.t) (i x : Z) :
  V2Run.x0 r + i * V2Blob.s b <= x
  <= V2Run.x0 r + i * V2Blob.s b + (V2Blob.s b - 1) ->
  exists pre post,
    memberRows b r i
    = pre
      ++ RawRow.mk (V2Run.id0 r + i) (V2Blob.c b) (V2Blob.n b)
           (V2Run.n0 r + i) (V2Blob.id b) (Coord.mk x (V2Blob.y b))
         :: post
    /\ forall r0, In r0 pre -> Coord.tileX (RawRow.coord r0) < x.
Proof.
  intros Hx. unfold memberRows. cbv zeta.
  rewrite (zrange_split _ _ x Hx), map_app. cbn [map].
  eexists. eexists. split; [reflexivity|].
  intros r0 Hr0. apply in_map_iff in Hr0 as (x0 & <- & Hx0).
  apply zrange_In in Hx0. cbn. lia.
Qed.

(** In one Tier-1 blob: the hit is for the first record on the tile. *)
Lemma queryEntries_first (b : V1Blob.t) (x y : Z) (h : QueryHit.t) :
  queryEntries b x y (V1Blob.e b) = Some h ->
  exists pre r post,
    expandV1 b = pre ++ r :: post
    /\ (forall r0, In r0 pre -> ~ covers r0 x y)
    /\ covers r x y /\ hitMatches h r.
Proof.
  rewrite expandV1_entryRows.
  apply (scan_first
           (entryRows (V1Blob.c b) (V1Blob.n b) (V1Blob.id b))
           (fun e => queryEntries b x y [e])
           (fun es => queryEntries b x y es)).
  - reflexivity.
  - intros e es. apply queryEntries_cons.
  - intros e Hn r Hr [Hcx Hcy].
    apply (queryEntries_complete b x y [e]); [|exact Hn].
    apply entryRows_In in Hr as [_ Hc]. unfold entryCovers in Hc.
    rewrite !andb_true_iff, !Z.eqb_eq, !Z.leb_le in Hc.
    exists e. split; [now left|]. lia.
  - intros e h' Hq.
    apply queryEntries_hit in Hq as (e' & [<-|[]] & Hy & Hx & ->).
    destruct (entryRows_split (V1Blob.c b) (V1Blob.n b) (V1Blob.id b) e x Hx)
      as (pre & post & Hf & Hpre).
    exists pre. eexists. exists post. split; [exact Hf|]. split.
    + intros r0 Hr0 [Hcx _]. specialize (Hpre r0 Hr0). lia.
    + split; [split; [reflexivity|exact Hy]|]. now repeat split.
Qed.

(** In one Tier-2 blob on row [y]: the same. *)
Lemma queryRuns_first (b : V2Blob.t) (x y : Z) (h : QueryHit.t) :
  y = V2Blob.y b ->
  queryRuns b x y (V2Blob.seq b) = Some h ->
  exists pre r post,
    expandV2 b = pre ++ r :: post
    /\ (forall r0, In r0 pre -> ~ covers r0 x y)
    /\ covers r x y /\ hitMatches h r.
Proof.
  intros Hy. rewrite expandV2_memberRows.
  apply (scan_first
           (fun r => flat_map (memberRows b r) (upto (V2Run.k r)))
           (fun r => queryRuns b x y [r])
           (fun sq => queryRuns b x y sq)).
  - reflexivity.
  - intros r sq. apply queryRuns_cons.
  - intros r Hn row Hrow [Hcx Hcy].
    apply (queryRuns_complete b x y [r]); [|exact Hn].
    apply in_flat_map in Hrow as (i & Hi & Hrow). apply upto_In in Hi.
    apply memberRows_In in Hrow as (x' & Hx' & ->). cbn in Hcx.
    subst x'. exists r, i. split; [now left|]. now split.
  - intros r h' Hq.
    apply queryRuns_hit in Hq as (r' & q & [<-|[]] & [Hq Hx] & ->).
    destruct (memberRows_split b r q x Hx) as (pre & post & Hf & Hpre).
    assert (Hs : 1 <= V2Blob.s b) by lia.
    unfold upto.
    rewrite (zrange_split 0 (V2Run.k r - 1) q) by lia.
    rewrite flat_map_app. cbn [flat_map]. rewrite Hf.
    exists (flat_map (memberRows b r) (zrange 0 (q - 1)) ++ pre).
    eexists. eexists. split; [rewrite <- !app_assoc; reflexivity|]. split.
    + intros r0 Hr0 [Hcx _]. apply in_app_or in Hr0 as [Hr0|Hr0].
      * apply in_flat_map in Hr0 as (i & Hi & Hr0).
        apply zrange_In in Hi.
        apply memberRows_In in Hr0 as (x' & Hx' & ->). cbn in Hcx. nia.
      * specialize (Hpre r0 Hr0). lia.
    + split; [split; [reflexivity|now rewrite Hy]|]. now repeat split.
Qed.

Lemma queryBlob_first (b : Blob) (x y : Z) (h : QueryHit.t) :
  queryBlob b x y = Some h ->
  exists pre r post,
    expandBlob b = pre ++ r :: post
    /\ (forall r0, In r0 pre -> ~ covers r0 x y)
    /\ covers r x y /\ hitMatches h r.
Proof.
  destruct b as [b1|b2]; cbn [queryBlob expandBlob].
  - apply queryEntries_first.
  - destruct (Z.eqb_spec y (V2Blob.y b2)) as [Hy|Hy]; [|discriminate].
    now apply queryRuns_first.
Qed.

(** In a document: the hit is for the first record on the tile, in the
    order in which the decoder's loop emits the records. *)
Lemma queryLoop_first_record (bs : list Blob) (x y : Z) (h : QueryHit.t) :
  queryLoop (map toJs bs) x y = Some h ->
  exists pre r post,
    flat_map expandBlob bs = pre ++ r :: post
    /\ (forall r0, In r0 pre -> ~ covers r0 x y)
    /\ covers r x y /\ hitMatches h r.
Proof.
  apply (scan_first expandBlob (fun b => queryBlob b x y)
           (fun bs => queryLoop (map toJs bs) x y)).
  - reflexivity.
  - intros b bs'. apply queryLoop_toJs.
  - intros b Hn r Hr Hc. apply (queryBlob_complete b x y); eauto.
  - intros b h'. apply queryBlob_first.
Qed.

(** C2 (amended) — query/decode agreement on an encoded document: when
    some decoded record lies on [(x, y)], the resolver returns a hit, and
    the hit carries the [(id, number)] and the group of a decoded record on
    that tile: the first one in document order, that is, in the order in
    which the decoder's loop emits the records before it sorts them.  The
    hit carries the [(id, number)] of every decoded record on the tile when
    these agree with one another.  When no decoded record lies on
    [(x, y)], the resolver returns no match. *)
Theorem query_agrees_with_decode {C : Collation} (rows : list RawRow.t)
  (s : Z) (doc : Compact) (x y : Z) (decoded : list RawRow.t) :
  doc = Many (map toJs (compactFromRows rows s))
  \/ doc = payload (compactFromRows rows s) ->
  expandCompact doc = Ok decoded ->
  ((exists r, In r decoded /\ covers r x y) ->
   exists h r',
     queryOneCompact doc x y = Ok (Some h)
     /\ In r' decoded /\ covers r' x y /\ hitMatches h r'
     /\ (exists pre post,
           expandLoop (blobsOf doc) [] = Ok (pre ++ r' :: post)
           /\ forall r, In r pre -> ~ covers r x y)
     /\ ((forall r1 r2,
            In r1 decoded -> covers r1 x y ->
            In r2 decoded -> covers r2 x y ->
            RawRow.id r1 = RawRow.id r2
            /\ RawRow.number r1 = RawRow.number r2) ->
         forall r, In r decoded -> covers r x y -> samePlace h r))
  /\ ((forall r, In r decoded -> ~ covers r x y) ->
      queryOneCompact doc x y = Ok None).
Proof.
  intros Hdoc Hdec. apply encoded_blobs in Hdoc.
  rewrite (expandCompact_blobs doc _ Hdoc) in Hdec.
  injection Hdec as <-.
  unfold queryOneCompact. rewrite Hdoc.
  set (bs := compactFromRows rows s).
  destruct (queryLoop (map toJs bs) x y) as [h|] eqn:E.
  - apply queryLoop_first_record in E
      as (pre & r' & post & Hf & Hpre & Hc & Hm).
    assert (Hr' : In r' (sortBy cmpRow (flat_map expandBlob bs))).
    { apply (sortBy_In cmpRow). rewrite Hf. apply in_or_app.
      right. now left. }
    split.
    + intros _. exists h, r'.
      split; [reflexivity|]. split; [exact Hr'|]. split; [exact Hc|].
      split; [exact Hm|]. split.
      * exists pre, post. split; [|exact Hpre].
        rewrite expandLoop_toJs. cbn [app]. now rewrite Hf.
      * intros Hagree r Hr Hcr. destruct Hm as [[Hi Hn] _].
        destruct (Hagree r r' Hr Hcr Hr' Hc) as [E1 E2].
        split; congruence.
    + intros Hnone. exfalso. apply (Hnone r' Hr' Hc).
  - split; [|reflexivity].
    intros (r & Hr & Hc). exfalso.
    apply (queryLoop_complete bs x y); [|exact E].
    exists r. split; [now apply (sortBy_In cmpRow)|exact Hc].
Qed.

Lemma query_agrees_with_decode_witness :
  (exists h,
     queryOneCompact (@payload (@compactFromRows codeUnits scenario 4)) 2 5
     = Ok (Some h)
     /\ hitMatches h (sampleRow 1 1 2 5))
  /\ queryOneCompact (@payload (@compactFromRows codeUnits scenario 4)) 4 5
     = Ok None.
Proof.
  split.
  - destruct (proj1 (@query_agrees_with_decode codeUnits scenario 4 _ 2 5
                       scenario (or_intror eq_refl) eq_refl))
      as (h & r' & Hq & _ & _ & Hm & _).
    + exists (sampleRow 1 1 2 5). split; [right; right; now left|].
      split; reflexivity.
    + exists h. split; [exact Hq|].
      injection Hq as <-. repeat split.
  - apply (proj2 (@query_agrees_with_decode codeUnits scenario 4 _ 4 5
                    scenario (or_intror eq_refl) eq_refl)).
    intros r Hr [Hx _].
    repeat (destruct Hr as [<-|Hr]; [discriminate Hx|]). destruct Hr.
Defined.

(** C2 as stated fails when two places are given on one tile: the decoded
    records hold both, and the hit can name only one of them. *)
Lemma query_names_one_of_two :
  ~ @queryMatchesEveryRecord codeUnits overlapping 4 0 5.
Proof.
  intros H.
  destruct (H [sampleRow 1 1 0 5; sampleRow 2 2 0 5] eq_refl) as [H1 _].
  destruct (H1 (sampleRow 2 2 0 5)) as (h & Hq & Hid & _).
  - right. now left.
  - split; reflexivity.
  - injection Hq as <-. discriminate Hid.
Qed.

(** ** Records that lack fields *)

Lemma loose_groupStep_throw (groups : JsMap Loose.Group.t)
  (r : Loose.RawRow.t) :
  Loose.RawRow.coord r = None ->
  Loose.groupStep groups r = Throw Loose.typeError.
Proof. intros H. unfold Loose.groupStep. now rewrite H. Qed.

Lemma loose_groupStep_ok (groups : JsMap Loose.Group.t)
  (r : Loose.RawRow.t) :
  Loose.RawRow.coord r <> None ->
  exists groups', Loose.groupStep groups r = Ok groups'.
Proof.
  intros H. unfold Loose.groupStep.
  destruct (Loose.RawRow.coord r); [eauto|congruence].
Qed.

Lemma loose_groupLoop_cons (r : Loose.RawRow.t)
  (rows : list Loose.RawRow.t) (groups : JsMap Loose.Group.t) :
  Loose.groupLoop (r :: rows) groups =
  match Loose.groupStep groups r with
  | Ok groups' => Loose.groupLoop rows groups'
  | Throw msg => Throw msg
  end.
Proof. reflexivity. Qed.

(** The grouping loop stops at the first record without [coord], and only
    there. *)
Lemma loose_groupLoop_ok (rows : list Loose.RawRow.t) :
  forall groups,
    (forall r, In r rows -> Loose.RawRow.coord r <> None) ->
    exists groups', Loose.groupLoop rows groups = Ok groups'.
Proof.
  induction rows as [|r rows IH]; intros groups H.
  - simpl. eauto.
  - rewrite loose_groupLoop_cons.
    destruct (loose_groupStep_ok groups r) as (g' & ->); [apply H; now left|].
    apply IH. intros r' Hr'. apply H. now right.
Qed.

Lemma loose_groupLoop_throw (pre post : list Loose.RawRow.t)
  (r : Loose.RawRow.t) :
  forall groups,
    (forall p, In p pre -> Loose.RawRow.coord p <> None) ->
    Loose.RawRow.coord r = None ->
    Loose.groupLoop (pre ++ r :: post) groups = Throw Loose.typeError.
Proof.
  induction pre as [|p pre IH]; intros groups Hpre Hr.
  - rewrite app_nil_l, loose_groupLoop_cons.
    now rewrite loose_groupStep_throw.
  - rewrite <- app_comm_cons, loose_groupLoop_cons.
    destruct (loose_groupStep_ok groups p) as (g' & ->);
      [apply Hpre; now left|].
    apply IH; auto. intros p' Hp'. apply Hpre. now right.
Qed.

Lemma mapGet_Forall {V : Type} (P : string * V -> Prop) (k : string)
  (m : JsMap V) (v : V) :
  Forall P m -> mapGet k m = Some v -> exists k', P (k', v).
Proof.
  induction 1 as [|[k' v'] m Hx Hm IH]; simpl; [discriminate|].
  destruct (String.eqb k k'); [intros [= ->]; eauto|exact IH].
Qed.

Lemma mapSet_Forall {V : Type} (P : string * V -> Prop) (k : string)
  (m : JsMap V) (v : V) :
  Forall P m -> P (k, v) -> Forall P (mapSet k v m).
Proof.
  induction 1 as [|[k' v'] m Hx Hm IH]; simpl; intros Hv.
  - repeat constructor. exact Hv.
  - destruct (String.eqb k k'); constructor; auto.
Qed.

Lemma loose_groupStep_named (groups groups' : JsMap Loose.Group.t)
  (r : Loose.RawRow.t) :
  namedGroups groups -> Loose.RawRow.name r <> None ->
  Loose.groupStep groups r = Ok groups' -> namedGroups groups'.
Proof.
  intros Hg Hn. unfold Loose.groupStep.
  destruct (Loose.RawRow.coord r) as [co|]; [|discriminate].
  intros [= <-]. apply mapSet_Forall; [exact Hg|].
  cbn [snd Loose.Group.n].
  destruct (mapGet _ groups) as [g|] eqn:E; [|exact Hn].
  destruct (mapGet_Forall _ _ _ _ Hg E) as (k' & H). exact H.
Qed.

Lemma loose_groupLoop_named (rows : list Loose.RawRow.t) :
  forall groups groups',
    namedGroups groups ->
    (forall r, In r rows -> Loose.RawRow.name r <> None) ->
    Loose.groupLoop rows groups = Ok groups' -> namedGroups groups'.
Proof.
  induction rows as [|r rows IH]; intros groups groups' Hg Hn.
  - simpl. now intros [= <-].
  - rewrite loose_groupLoop_cons.
    destruct (Loose.groupStep groups r) as [g1|] eqn:E; [|discriminate].
    apply IH.
    + eapply loose_groupStep_named; eauto. apply Hn. now left.
    + intros r' Hr'. apply Hn. now right.
Qed.

(** *** The insertion engine has the laws of [sort] *)

Section InsertionLaws.
Context {A : Type} (cmp : A -> A -> Result Loose.jsnum).

Lemma place_cons (p y : A) (sorted : list A) :
  Loose.place cmp p (y :: sorted) =
  match cmp p y with
  | Throw msg => Throw msg
  | Ok v =>
      if Loose.order v <? 0 then Ok (p :: y :: sorted)
      else match Loose.place cmp p sorted with
           | Ok r => Ok (y :: r)
           | Throw msg => Throw msg
           end
  end.
Proof. reflexivity. Qed.

Lemma insertAll_cons (p : A) (l sorted : list A) :
  Loose.insertAll cmp (p :: l) sorted =
  match Loose.place cmp p sorted with
  | Ok sorted' => Loose.insertAll cmp l sorted'
  | Throw msg => Throw msg
  end.
Proof. reflexivity. Qed.

Lemma place_perm (p : A) (sorted r : list A) :
  Loose.place cmp p sorted = Ok r -> Permutation r (p :: sorted).
Proof.
  revert r. induction sorted as [|y sorted IH]; intros r.
  - cbn. now intros [= <-].
  - rewrite place_cons. destruct (cmp p y) as [v|]; [|discriminate].
    destruct (Loose.order v <? 0); [now intros [= <-]|].
    destruct (Loose.place cmp p sorted) as [r'|]; [|discriminate].
    intros [= <-].
    eapply perm_trans; [apply perm_skip, IH; reflexivity|apply perm_swap].
Qed.

Lemma place_throws (p : A) (sorted : list A) (msg : string) :
  Loose.place cmp p sorted = Throw msg ->
  exists y, In y sorted /\ cmp p y = Throw msg.
Proof.
  induction sorted as [|y sorted IH]; [discriminate|].
  rewrite place_cons. destruct (cmp p y) as [v|m] eqn:E.
  - destruct (Loose.order v <? 0); [discriminate|].
    destruct (Loose.place cmp p sorted) as [r'|m]; [discriminate|].
    intros [= <-]. destruct IH as (y' & Hy' & Hc); [reflexivity|].
    exists y'. split; [now right|exact Hc].
  - intros [= <-]. exists y. split; [now left|exact E].
Qed.

Lemma insertAll_perm (l : list A) :
  forall sorted r,
    Loose.insertAll cmp l sorted = Ok r -> Permutation r (sorted ++ l).
Proof.
  induction l as [|p l IH]; intros sorted r.
  - cbn. intros [= <-]. now rewrite app_nil_r.
  - rewrite insertAll_cons.
    destruct (Loose.place cmp p sorted) as [s'|] eqn:E; [|discriminate].
    intros H. apply IH in H. apply place_perm in E.
    eapply perm_trans; [exact H|].
    eapply perm_trans; [apply Permutation_app_tail, E|].
    cbn [app]. apply Permutation_middle.
Qed.

Lemma insertAll_throws (l : list A) :
  forall sorted msg,
    Loose.insertAll cmp l sorted = Throw msg ->
    exists a b,
      In a (sorted ++ l) /\ In b (sorted ++ l) /\ cmp a b = Throw msg.
Proof.
  induction l as [|p l IH]; intros sorted msg; [discriminate|].
  rewrite insertAll_cons.
  destruct (Loose.place cmp p sorted) as [s'|m] eqn:E.
  - intros H. destruct (IH _ _ H) as (a & b & Ha & Hb & Hc).
    pose proof (place_perm _ _ _ E) as HP.
    assert (Hin : forall z, In z (s' ++ l) -> In z (sorted ++ p :: l)).
    { intros z Hz. apply in_app_or in Hz as [Hz|Hz].
      - apply (Permutation_in _ HP) in Hz. destruct Hz as [<-|Hz].
        + apply in_or_app. right. now left.
        + apply in_or_app. now left.
      - apply in_or_app. right. now right. }
    exists a, b. auto.
  - intros [= <-]. apply place_throws in E as (y & Hy & Hc).
    exists p, y. split; [apply in_or_app; right; now left|].
    split; [apply in_or_app; now left|exact Hc].
Qed.

(** Where the comparator throws nothing and answers as [f] does, the
    engine inserts as the typed insertion does. *)
Section Agreeing.
Variables (f : A -> A -> Z) (dom : list A).
Hypothesis agree :
  forall a b, In a dom -> In b dom ->
              exists v, cmp a b = Ok v /\ Loose.order v = f a b.

Lemma place_total (p : A) (sorted : list A) :
  In p dom -> incl sorted dom ->
  Loose.place cmp p sorted = Ok (insertLast f p sorted).
Proof using agree.
  intros Hp. induction sorted as [|y sorted IH]; intros Hs; [reflexivity|].
  rewrite place_cons. cbn [insertLast].
  destruct (agree p y Hp (Hs y (or_introl eq_refl))) as (v & -> & ->).
  destruct (f p y <? 0); [reflexivity|].
  rewrite IH; [reflexivity|]. intros z Hz. apply Hs. now right.
Qed.

Lemma insertAll_total (l : list A) :
  forall sorted,
    incl l dom -> incl sorted dom ->
    Loose.insertAll cmp l sorted =
    Ok (fold_left (fun s p => insertLast f p s) l sorted).
Proof using agree.
  induction l as [|p l IH]; intros sorted Hl Hs; [reflexivity|].
  rewrite insertAll_cons.
  rewrite place_total; [|apply Hl; now left|exact Hs].
  cbn [fold_left]. apply IH.
  - intros z Hz. apply Hl. now right.
  - intros z Hz. apply (Permutation_in _ (insertLast_perm f p sorted)) in Hz.
    destruct Hz as [<-|Hz]; [apply Hl; now left|now apply Hs].
Qed.
End Agreeing.
End InsertionLaws.

#[export] Instance insertion_laws : Loose.SortLaws Loose.insertion.
Proof.
  split; unfold Loose.arraySort, Loose.insertion.
  - intros A cmp [|x [|y l]] Hl; try reflexivity. cbn in Hl. lia.
  - intros A cmp l msg H. now apply insertAll_throws in H.
  - intros A cmp l l' H. now apply insertAll_perm in H.
  - intros A cmp f l HC Hag.
    rewrite (insertAll_total cmp f l Hag);
      [|apply incl_refl|intros z []].
    f_equal. apply (insertLast_sorts f l []).
Qed.

Lemma int_of_string_numToString (z : Z) :
  NilZero.int_of_string (numToString z) = Some (Z.to_int z).
Proof.
  unfold numToString. apply NilZero.isi.
  - destruct z; simpl; try discriminate.
    intros [= H]. now apply DecimalPos.Unsigned.to_uint_nonnil in H.
  - destruct z; simpl; try discriminate.
    intros [= H]. now apply DecimalPos.Unsigned.to_uint_nonnil in H.
Qed.

Lemma loose_Number_numToString (z : Z) :
  Loose.Number (numToString z) = Loose.Num z.
Proof.
  unfold Loose.Number. pose proof (int_of_string_numToString z) as H.
  destruct (numToString z); [discriminate H|].
  rewrite H. now rewrite DecimalZ.of_to.
Qed.

(** *** The encoder on records that lack fields, in any engine *)

Section LooseEncoder.
Context {C : Collation} {E : Loose.SortEngine} {EL : Loose.SortLaws E}.

(** Every group gets its blob: the sort of the entries throws nothing. *)
Lemma loose_groupToBlob_ok (g : Loose.Group.t) :
  exists es,
    Loose.groupToBlob g =
    Ok (Loose.V1Blob.mk (Loose.Group.c g) (Loose.Group.n g)
          (Loose.Group.id g) es)
    /\ Permutation es (flat_map Loose.bucketEntries (Loose.Group.bucket g)).
Proof.
  unfold Loose.groupToBlob.
  destruct (Loose.arraySort _ _ _) as [es|msg] eqn:Es.
  - exists es. split; [reflexivity|]. now apply Loose.sort_perm in Es.
  - apply Loose.sort_throws in Es as (a & b & _ & _ & H). discriminate H.
Qed.

Lemma loose_blobsLoop_cons (g : Loose.Group.t) (gs : list Loose.Group.t) :
  Loose.blobsLoop (g :: gs) =
  match Loose.groupToBlob g with
  | Throw msg => Throw msg
  | Ok b =>
      match Loose.blobsLoop gs with
      | Ok bs => Ok (b :: bs)
      | Throw msg => Throw msg
      end
  end.
Proof. reflexivity. Qed.

Lemma loose_blobsLoop_ok (gs : list Loose.Group.t) :
  exists bs,
    Loose.blobsLoop gs = Ok bs
    /\ map Loose.V1Blob.n bs = map Loose.Group.n gs.
Proof.
  induction gs as [|g gs (bs & Hbs & Hn)]; [now exists []|].
  rewrite loose_blobsLoop_cons.
  destruct (loose_groupToBlob_ok g) as (es & -> & _). rewrite Hbs.
  eexists. split; [reflexivity|]. cbn [map Loose.V1Blob.n]. now rewrite Hn.
Qed.

(** The comparator of the blobs throws only the [TypeError] of reading
    [localeCompare] of a name that is absent. *)
Lemma loose_cmpBlob_throw (a b : Loose.V1Blob.t) (msg : string) :
  Loose.cmpBlob a b = Throw msg ->
  msg = Loose.typeError /\ Loose.V1Blob.n a = None.
Proof.
  unfold Loose.cmpBlob. cbv zeta.
  destruct (Loose.truthy _); [discriminate|].
  destruct (Loose.V1Blob.n a); [discriminate|].
  intros [= <-]. now split.
Qed.

Lemma loose_groupLoop_one (r : Loose.RawRow.t) (co : Loose.Coord.t) :
  Loose.RawRow.coord r = Some co ->
  Loose.groupLoop [r] [] =
  Ok [((Loose.tplNum (Loose.RawRow.cityId r) ++ "|"
        ++ Loose.tplStr (Loose.RawRow.name r) ++ "|"
        ++ Loose.tplNum (Loose.RawRow.countryId r))%string,
       Loose.Group.mk (Loose.RawRow.cityId r) (Loose.RawRow.name r)
         (Loose.RawRow.countryId r)
         [((Loose.tplNum (Loose.RawRow.id r) ++ "|"
            ++ Loose.tplNum (Loose.RawRow.number r) ++ "|"
            ++ Loose.tplNum (Loose.Coord.tileY co))%string,
           [Loose.Coord.tileX co])])].
Proof.
  intros Hco. cbn [Loose.groupLoop]. unfold Loose.groupStep.
  rewrite Hco. reflexivity.
Qed.

Lemma hasBar_tplNum (v : option Z) : hasBar (Loose.tplNum v) = false.
Proof. destruct v; [apply hasBar_numToString|reflexivity]. Qed.

Lemma loose_Number_tplNum (v : option Z) :
  Loose.Number (Loose.tplNum v) = Loose.toNumber v.
Proof. destruct v; [apply loose_Number_numToString|reflexivity]. Qed.

(** The entries of a bucket that holds one column. *)
Lemma loose_bucketEntries_one (i n y x : option Z) :
  Loose.bucketEntries
    ((Loose.tplNum i ++ "|" ++ Loose.tplNum n ++ "|"
      ++ Loose.tplNum y)%string, [x]) =
  match x with
  | Some x' =>
      [Loose.V1Entry.mk (Loose.toNumber i) (Loose.toNumber n)
         (Loose.toNumber y) (Some x') (Some x')]
  | None => []
  end.
Proof.
  unfold Loose.bucketEntries. cbn [fst snd].
  change (Loose.tplNum i ++ "|" ++ Loose.tplNum n ++ "|"
          ++ Loose.tplNum y)%string
    with (Loose.tplNum i
          ++ String "|" (Loose.tplNum n ++ String "|" (Loose.tplNum y)))%string.
  rewrite split_bar by apply hasBar_tplNum.
  rewrite split_bar by apply hasBar_tplNum.
  rewrite split_noBar by apply hasBar_tplNum.
  cbn [nth]. rewrite !loose_Number_tplNum.
  now destruct x.
Qed.

Lemma loose_names_decide (rows : list Loose.RawRow.t) :
  (forall r, In r rows -> Loose.RawRow.name r <> None)
  \/ exists r, In r rows /\ Loose.RawRow.name r = None.
Proof.
  induction rows as [|r rows [IH|(r' & Hr' & Hn)]].
  - left. intros r [].
  - destruct (Loose.RawRow.name r) eqn:En.
    + left. intros r' [<-|Hr']; [congruence|now apply IH].
    + right. exists r. split; [now left|exact En].
  - right. exists r'. split; [now right|exact Hn].
Qed.

(** A record alone, with a [coord]. *)
Lemma loose_rowsToV1_one (r : Loose.RawRow.t) (co : Loose.Coord.t) :
  Loose.RawRow.coord r = Some co ->
  Loose.rowsToV1 [r] = Ok [Loose.loneBlob r co].
Proof.
  intros Hco. unfold Loose.rowsToV1.
  rewrite (loose_groupLoop_one r co Hco). cbn [map snd Loose.blobsLoop].
  unfold Loose.groupToBlob.
  cbn [Loose.Group.bucket Loose.Group.c Loose.Group.n Loose.Group.id
         flat_map].
  rewrite loose_bucketEntries_one, app_nil_r.
  rewrite Loose.sort_short by (destruct (Loose.Coord.tileX co); cbn; lia).
  now rewrite Loose.sort_short by (cbn; lia).
Qed.

(** C8 (amended) — no validation: [rowsToV1] checks no field; what it
    raises is the [TypeError] of one of its own property reads.  A record
    without [coord] raises it when the grouping loop reaches that record,
    after the records before it were grouped.  When every record has a
    [coord], every group gets its blob, and only the final sort of the
    blobs can raise: it returns the blobs rearranged when every record has
    a name or there is one group, and if it raises, some record has no
    name and there are two groups or more.  A record with a [coord] that
    is alone in the input is encoded whatever else it lacks: with [NaN]
    for a missing [id], [number] or [tileY], with the key left out for a
    missing [cityId], [name] or [countryId], and with no interval at all
    for a missing [tileX]. *)
Theorem encode_does_not_validate (rows : list Loose.RawRow.t) :
  (forall pre r post,
     rows = pre ++ r :: post ->
     (forall p, In p pre -> Loose.RawRow.coord p <> None) ->
     Loose.RawRow.coord r = None ->
     Loose.rowsToV1 rows = Throw Loose.typeError
     /\ exists groups, Loose.groupLoop pre [] = Ok groups)
  /\ ((forall r, In r rows -> Loose.RawRow.coord r <> None) ->
      exists groups unsorted,
        Loose.groupLoop rows [] = Ok groups
        /\ Loose.blobsLoop (map snd groups) = Ok unsorted
        /\ List.length unsorted = List.length groups
        /\ ((forall r, In r rows -> Loose.RawRow.name r <> None)
            \/ (List.length groups <= 1)%nat ->
            exists blobs,
              Loose.rowsToV1 rows = Ok blobs /\ Permutation blobs unsorted)
        /\ (forall msg,
              Loose.rowsToV1 rows = Throw msg ->
              msg = Loose.typeError
              /\ (2 <= List.length groups)%nat
              /\ exists r, In r rows /\ Loose.RawRow.name r = None))
  /\ (forall r co,
        rows = [r] -> Loose.RawRow.coord r = Some co ->
        Loose.rowsToV1 rows = Ok [Loose.loneBlob r co]).
Proof.
  split; [|split].
  - intros pre r post -> Hpre Hr. split.
    + unfold Loose.rowsToV1. now rewrite loose_groupLoop_throw.
    + now apply loose_groupLoop_ok.
  - intros Hco.
    destruct (loose_groupLoop_ok rows [] Hco) as (groups & Eg).
    destruct (loose_blobsLoop_ok (map snd groups)) as (unsorted & Eb & Hn).
    assert (Hlen : List.length unsorted = List.length groups).
    { apply (f_equal (@List.length _)) in Hn.
      now rewrite !length_map in Hn. }
    assert (Hnamed : (forall r, In r rows -> Loose.RawRow.name r <> None) ->
                     forall b, In b unsorted -> Loose.V1Blob.n b <> None).
    { intros Hall b Hb.
      assert (Hg : namedGroups groups).
      { eapply loose_groupLoop_named; [constructor|exact Hall|exact Eg]. }
      apply (in_map Loose.V1Blob.n) in Hb. rewrite Hn, map_map in Hb.
      apply in_map_iff in Hb as (kg & <- & Hkg).
      unfold namedGroups in Hg. rewrite Forall_forall in Hg.
      now apply Hg. }
    assert (Hthrow : forall msg,
              Loose.arraySort _ Loose.cmpBlob unsorted = Throw msg ->
              msg = Loose.typeError
              /\ (2 <= List.length groups)%nat
              /\ exists r, In r rows /\ Loose.RawRow.name r = None).
    { intros msg Hs.
      destruct (le_lt_dec (List.length unsorted) 1) as [Hle|Hgt].
      - rewrite Loose.sort_short in Hs by exact Hle. discriminate Hs.
      - apply Loose.sort_throws in Hs as (a & b & Ha & _ & Hc).
        apply loose_cmpBlob_throw in Hc as [-> Hna].
        split; [reflexivity|]. split; [lia|].
        destruct (loose_names_decide rows) as [Hall|Hex]; [|exact Hex].
        exfalso. now apply (Hnamed Hall a Ha). }
    exists groups, unsorted. unfold Loose.rowsToV1. rewrite Eg, Eb.
    split; [reflexivity|]. split; [reflexivity|]. split; [exact Hlen|].
    split; [|exact Hthrow].
    intros Hcase.
    destruct (Loose.arraySort _ Loose.cmpBlob unsorted) as [blobs|msg] eqn:Es.
    + exists blobs. split; [reflexivity|]. now apply Loose.sort_perm in Es.
    + exfalso. destruct (Hthrow msg eq_refl) as (_ & H2 & r & Hr & Hnone).
      destruct Hcase as [Hall|Hone]; [now apply (Hall r Hr)|lia].
  - intros r co -> Hco. now apply loose_rowsToV1_one.
Qed.
End LooseEncoder.

Lemma encode_does_not_validate_witness :
  @Loose.rowsToV1 codeUnits Loose.insertion
    [Loose.complete; Loose.withoutCoord]
  = Throw Loose.typeError
  /\ @Loose.rowsToV1 codeUnits Loose.insertion [Loose.withoutId]
     = Ok [Loose.V1Blob.mk (Some 1) (Some "A") (Some 9)
             [Loose.V1Entry.mk Loose.NaN (Loose.Num 1) (Loose.Num 5)
                (Some 0) (Some 0)]]
  /\ @Loose.rowsToV1 codeUnits Loose.insertion [Loose.withoutTileX]
     = Ok [Loose.V1Blob.mk (Some 1) (Some "A") (Some 9) []].
Proof.
  split; [|split].
  - apply (proj1 (@encode_does_not_validate codeUnits Loose.insertion _
                    [Loose.complete; Loose.withoutCoord])
             [Loose.complete] Loose.withoutCoord [] eq_refl).
    + intros p [<-|[]]. discriminate.
    + reflexivity.
  - apply (proj2 (proj2 (@encode_does_not_validate codeUnits
                           Loose.insertion _ [Loose.withoutId]))
             Loose.withoutId _ eq_refl eq_refl).
  - apply (proj2 (proj2 (@encode_does_not_validate codeUnits
                           Loose.insertion _ [Loose.withoutTileX]))
             Loose.withoutTileX _ eq_refl eq_refl).
Defined.

(** A record without a name next to a named one, in the insertion
    engine: the sort raises when the nameless blob is the one that
    arrives, and returns when it is the one already there. *)
Example nameless_record_last_throws :
  @Loose.rowsToV1 codeUnits Loose.insertion
    [Loose.complete; Loose.withoutName]
  = Throw Loose.typeError.
Proof. reflexivity. Qed.

Example nameless_record_first_returns :
  @Loose.rowsToV1 codeUnits Loose.insertion
    [Loose.withoutName; Loose.complete]
  = Ok [Loose.V1Blob.mk (Some 1) (Some "A") (Some 9)
          [Loose.V1Entry.mk (Loose.Num 1) (Loose.Num 1) (Loose.Num 5)
             (Some 0) (Some 0)];
        Loose.V1Blob.mk (Some 1) None (Some 9)
          [Loose.V1Entry.mk (Loose.Num 1) (Loose.Num 1) (Loose.Num 5)
             (Some 0) (Some 0)]].
Proof. reflexivity. Qed.

(** C8 as stated fails on a record without [id]: it is grouped and encoded
    with [NaN] for the identifier, and no error is raised. *)
Lemma record_without_id_is_encoded :
  ~ @Loose.validatesInput codeUnits Loose.insertion [Loose.withoutId].
Proof.
  intros H. destruct H as (msg & Hmsg).
  - exists Loose.withoutId. split; [now left|]. now left.
  - discriminate Hmsg.
Qed.

(** ** The loose model on well-formed records *)

Lemma mapGet_looseMap {V W : Type} (f : V -> W) (k : string) (m : JsMap V) :
  mapGet k (looseMap f m) = option_map f (mapGet k m).
Proof.
  induction m as [|[k' v] m IH]; simpl; [reflexivity|].
  now destruct (String.eqb k k').
Qed.

Lemma mapSet_looseMap {V W : Type} (f : V -> W) (k : string) (v : V)
  (m : JsMap V) :
  mapSet k (f v) (looseMap f m) = looseMap f (mapSet k v m).
Proof.
  induction m as [|[k' v'] m IH]; simpl; [reflexivity|].
  destruct (String.eqb k k'); simpl; [reflexivity|]. now rewrite IH.
Qed.

Lemma loose_groupStep_refines (groups : JsMap Group.t) (r : RawRow.t) :
  Loose.groupStep (looseMap looseGroup groups) (looseRow r) =
  Ok (looseMap looseGroup (groupStep groups r)).
Proof.
  unfold Loose.groupStep, groupStep.
  change (Loose.tplNum (Loose.RawRow.cityId (looseRow r)) ++ "|"
          ++ Loose.tplStr (Loose.RawRow.name (looseRow r)) ++ "|"
          ++ Loose.tplNum (Loose.RawRow.countryId (looseRow r)))%string
    with (metaKeyOf r).
  cbv zeta. rewrite mapGet_looseMap. cbn [Loose.RawRow.coord looseRow].
  change (Loose.tplNum (Loose.RawRow.id (looseRow r)) ++ "|"
          ++ Loose.tplNum (Loose.RawRow.number (looseRow r)) ++ "|"
          ++ Loose.tplNum
               (Loose.Coord.tileY
                  (Loose.Coord.mk (Some (Coord.tileX (RawRow.coord r)))
                     (Some (Coord.tileY (RawRow.coord r))))))%string
    with (bucketKeyOf r).
  f_equal. rewrite <- mapSet_looseMap. f_equal.
  unfold bucketStep.
  destruct (mapGet (metaKeyOf r) groups) as [g|]; cbn [option_map];
    unfold looseGroup; cbn [Loose.Group.c Loose.Group.n Loose.Group.id
                              Loose.Group.bucket Group.c Group.n Group.id
                              Group.bucket Loose.Coord.tileX];
    f_equal; rewrite <- mapSet_looseMap, mapGet_looseMap; f_equal;
    try reflexivity.
  destruct (mapGet (bucketKeyOf r) (Group.bucket g)); cbn [option_map];
    now rewrite map_app.
Qed.

Lemma loose_groupLoop_refines (rows : list RawRow.t) :
  forall groups,
    Loose.groupLoop (map looseRow rows) (looseMap looseGroup groups) =
    Ok (looseMap looseGroup (fold_left groupStep rows groups)).
Proof.
  induction rows as [|r rows IH]; intros groups; [reflexivity|].
  cbn [map fold_left]. rewrite loose_groupLoop_cons.
  now rewrite loose_groupStep_refines, IH.
Qed.

Lemma loose_sortColumns (xs : list Z) :
  Loose.sortColumns (map Some xs) = map Some (sortBy cmpNum xs).
Proof.
  unfold Loose.sortColumns.
  assert (Hd : Loose.definedOnes (map Some xs) = xs).
  { unfold Loose.definedOnes. induction xs as [|x xs IH]; [reflexivity|].
    cbn [map flat_map app]. now rewrite IH. }
  assert (Hu : Loose.undefinedOnes (map Some xs) = []).
  { clear Hd. unfold Loose.undefinedOnes.
    induction xs as [|x xs IH]; [reflexivity|].
    cbn [map filter]. exact IH. }
  now rewrite Hd, Hu, app_nil_r.
Qed.

Section LooseMerge.
Variables (rid n y : Z).

#[local] Abbreviation mkL :=
  (fun start prev =>
     Loose.V1Entry.mk (Loose.Num rid) (Loose.Num n) (Loose.Num y) start prev).

Lemma loose_mergeLoop (start prev : Z) (rest : list Z) :
  Loose.mergeLoop mkL (Some start) (Some prev) (map Some rest) =
  map looseEntry (mergeLoop (V1Entry.mk rid n y) start prev rest).
Proof.
  revert start prev. induction rest as [|cur rest IH]; intros start prev;
    [reflexivity|].
  cbn [map Loose.mergeLoop mergeLoop Loose.isNext].
  destruct (cur =? prev + 1); [apply IH|].
  cbn [map]. now rewrite IH.
Qed.

Lemma loose_mergeRuns (xs : list Z) :
  Loose.mergeRuns mkL (map Some xs) =
  map looseEntry (mergeRuns (V1Entry.mk rid n y) xs).
Proof.
  destruct xs as [|x0 rest]; [reflexivity|].
  unfold Loose.mergeRuns. cbn [map hd tl mergeRuns].
  apply loose_mergeLoop.
Qed.
End LooseMerge.

Lemma loose_bucketEntries (r0 : RawRow.t) (xs : list Z) :
  Loose.bucketEntries (bucketKeyOf r0, map Some xs) =
  map looseEntry (bucketEntries (bucketKeyOf r0, xs)).
Proof.
  rewrite bucketEntries_keyed. unfold Loose.bucketEntries.
  cbn [fst snd]. rewrite split_bucketKeyOf. cbn [nth].
  rewrite !loose_Number_numToString, loose_sortColumns.
  apply loose_mergeRuns.
Qed.

Lemma sortBy_map {A B : Type} (f : A -> B) (cmpA : A -> A -> Z)
  (cmpB : B -> B -> Z) (l : list A) :
  (forall a b, cmpB (f a) (f b) = cmpA a b) ->
  sortBy cmpB (map f l) = map f (sortBy cmpA l).
Proof.
  intros H. induction l as [|x l IH]; [reflexivity|].
  cbn [map sortBy fold_right]. change (fold_right (insertSorted cmpB) []
                                         (map f l))
    with (sortBy cmpB (map f l)).
  change (fold_right (insertSorted cmpA) [] l) with (sortBy cmpA l).
  rewrite IH. generalize (sortBy cmpA l). intros s.
  induction s as [|z s IHs]; [reflexivity|].
  cbn [map insertSorted]. rewrite H.
  destruct (cmpA x z <=? 0); [reflexivity|]. cbn [map]. now rewrite IHs.
Qed.

Lemma loose_or_Num (a b : Z) :
  Loose.or (Loose.Num a) (Loose.Num b) = Loose.Num (a ||| b).
Proof.
  unfold Loose.or, Loose.truthy, jsOr. now destruct (a =? 0).
Qed.

Lemma loose_cmpEntry (a b : V1Entry.t) :
  Loose.order (Loose.cmpEntry (looseEntry a) (looseEntry b)) = cmpEntry a b.
Proof.
  unfold Loose.cmpEntry, cmpEntry, looseEntry.
  cbn [Loose.V1Entry.id Loose.V1Entry.n Loose.V1Entry.y Loose.V1Entry.xs
         Loose.V1Entry.xe Loose.toNumber Loose.sub].
  now rewrite !loose_or_Num.
Qed.

Lemma tightEntry_looseEntry (e : V1Entry.t) :
  tightEntry (looseEntry e) = e.
Proof. now destruct e. Qed.

Lemma tightBlob_looseBlob (b : V1Blob.t) : tightBlob (looseBlob b) = b.
Proof.
  destruct b as [c n i es]. unfold tightBlob, looseBlob. cbn. f_equal.
  rewrite map_map. rewrite <- (map_id es) at 2.
  apply map_ext, tightEntry_looseEntry.
Qed.

Section LooseRefines.
Context {C : Collation} {E : Loose.SortEngine} {EL : Loose.SortLaws E}.

(** The blob of a group of the typed model, built by the loose code. *)
Lemma loose_groupToBlob (c : Z) (nm : string) (cid : Z)
  (rs : list RawRow.t) :
  Loose.groupToBlob (looseGroup (Group.mk c nm cid (bucketsOf rs))) =
  Ok (looseBlob (groupToBlob (Group.mk c nm cid (bucketsOf rs)))).
Proof.
  unfold Loose.groupToBlob, groupToBlob, looseBlob, looseGroup.
  cbn [Loose.Group.c Loose.Group.n Loose.Group.id Loose.Group.bucket
         Group.c Group.n Group.id Group.bucket V1Blob.c V1Blob.n V1Blob.id
         V1Blob.e].
  assert (Hes : flat_map Loose.bucketEntries
                  (looseMap (map Some) (bucketsOf rs))
                = map looseEntry (flat_map bucketEntries (bucketsOf rs))).
  { unfold bucketsOf, looseMap. rewrite !flat_map_map, map_flat_map.
    apply flat_map_ext. intros r0. cbn [fst snd].
    apply loose_bucketEntries. }
  rewrite Hes.
  rewrite (Loose.sort_stable _ _
             (fun a b => cmpEntry (tightEntry a) (tightEntry b))).
  - rewrite (sortBy_map looseEntry cmpEntry); [reflexivity|].
    intros a b. now rewrite !tightEntry_looseEntry.
  - apply (Consistent_on tightEntry cmpEntry).
  - intros a b Ha Hb. eexists. split; [reflexivity|].
    apply in_map_iff in Ha as (a0 & <- & _), Hb as (b0 & <- & _).
    rewrite loose_cmpEntry. now rewrite !tightEntry_looseEntry.
Qed.

Lemma loose_blobsLoop_refines (gs : list Group.t) :
  Forall (fun g => exists rs, Group.bucket g = bucketsOf rs) gs ->
  Loose.blobsLoop (map looseGroup gs) =
  Ok (map looseBlob (map groupToBlob gs)).
Proof.
  induction 1 as [|g gs (rs & Hg) _ IH]; [reflexivity|].
  cbn [map]. rewrite loose_blobsLoop_cons, IH.
  destruct g as [c nm cid bk]. cbn [Group.bucket] in Hg. subst bk.
  now rewrite loose_groupToBlob.
Qed.

Lemma loose_cmpBlob (a b : V1Blob.t) :
  Loose.cmpBlob (looseBlob a) (looseBlob b) = Ok (Loose.Num (cmpBlob a b)).
Proof.
  unfold Loose.cmpBlob, cmpBlob, looseBlob.
  cbn [Loose.V1Blob.c Loose.V1Blob.n Loose.V1Blob.id Loose.toNumber
         Loose.sub Loose.tplStr].
  rewrite loose_or_Num. unfold Loose.truthy.
  set (k := (V1Blob.c a - V1Blob.c b) ||| (V1Blob.id a - V1Blob.id b)).
  unfold jsOr. now destruct (k =? 0).
Qed.

(** On records that have every field, in an engine with the laws of
    [sort] and under a consistent collation, the loose model is the typed
    one. *)
Lemma loose_rowsToV1_refines {HO : CollationOrder C}
  (rows : list RawRow.t) :
  Loose.rowsToV1 (map looseRow rows) = Ok (map looseBlob (rowsToV1 rows)).
Proof.
  unfold Loose.rowsToV1.
  pose proof (loose_groupLoop_refines rows []) as H.
  change (looseMap looseGroup []) with (@nil (string * Loose.Group.t)) in H.
  rewrite H. clear H.
  change (fold_left groupStep rows []) with (groupRows rows).
  assert (Hsnd : map snd (looseMap looseGroup (groupRows rows))
                 = map looseGroup (map snd (groupRows rows))).
  { unfold looseMap. rewrite !map_map. reflexivity. }
  rewrite Hsnd, loose_blobsLoop_refines.
  - rewrite (Loose.sort_stable _ _
               (fun a b => cmpBlob (tightBlob a) (tightBlob b))).
    + f_equal. unfold rowsToV1.
      rewrite <- (map_map snd groupToBlob).
      apply (sortBy_map looseBlob cmpBlob).
      intros a b. now rewrite !tightBlob_looseBlob.
    + apply (Consistent_on tightBlob cmpBlob).
    + intros a b Ha Hb.
      apply in_map_iff in Ha as (a0 & <- & _), Hb as (b0 & <- & _).
      exists (Loose.Num (cmpBlob a0 b0)).
      split; [apply loose_cmpBlob|].
      cbn [Loose.order]. now rewrite !tightBlob_looseBlob.
  - rewrite groupRows_closed, map_map. apply Forall_forall.
    intros g Hg. apply in_map_iff in Hg as (r & <- & _).
    cbn [snd Group.bucket]. eauto.
Qed.
End LooseRefines.

(** * Further properties of the codec *)

(** ** Shape of the interval builder's output *)

Lemma rowsToV1_In {C : Collation} (rows : list RawRow.t) (b : V1Blob.t) :
  In b (rowsToV1 rows) <-> exists r, In r rows /\ b = groupOf rows r.
Proof. rewrite rowsToV1_closed, sortBy_In. apply groupBlobs_In. Qed.

Lemma blobKeyOf_meta (a b : V1Blob.t) :
  blobMeta a = blobMeta b -> blobKeyOf a = blobKeyOf b.
Proof. unfold blobMeta, blobKeyOf. now intros [= -> -> ->]. Qed.

Lemma NoDup_map_factor {A B D : Type} (f : A -> B) (g : A -> D)
  (l : list A) :
  (forall a b, f a = f b -> g a = g b) ->
  NoDup (map g l) -> NoDup (map f l).
Proof.
  intros H. induction l as [|x l IH]; simpl; intros Hnd; [constructor|].
  inversion Hnd as [|? ? Hx Hl]; subst. constructor; auto.
  intros Hin. apply Hx. apply in_map_iff in Hin as (z & Hz & Hi).
  apply in_map_iff. exists z. split; [now apply H|exact Hi].
Qed.

Lemma groupOf_nonempty (rows : list RawRow.t) (r : RawRow.t) :
  In r rows -> V1Blob.e (groupOf rows r) <> [].
Proof.
  intros Hr He.
  pose proof (expandV1_groupOf rows r) as HP.
  rewrite expandV1_entryRows, He in HP. cbn [flat_map] in HP.
  apply Permutation_nil in HP.
  assert (Hin : In r (groupMembers rows r)).
  { unfold groupMembers. apply filter_In. split; [exact Hr|].
    now apply sameKey_true. }
  rewrite HP in Hin. destruct Hin.
Qed.

(** X1 — groups: [rowsToV1] returns one blob for each distinct
    [(cityId, name, countryId)] of the input and no other, every blob has
    at least one entry, and the result is empty exactly for the empty
    input. *)
Theorem rowsToV1_one_blob_per_group {C : Collation}
  (rows : list RawRow.t) :
  NoDup (map blobMeta (rowsToV1 rows))
  /\ (forall m, In m (map blobMeta (rowsToV1 rows))
                <-> In m (map metaOf rows))
  /\ (forall b, In b (rowsToV1 rows) -> V1Blob.e b <> [])
  /\ (rowsToV1 rows = [] <-> rows = []).
Proof.
  assert (Hmeta : forall m, In m (map blobMeta (rowsToV1 rows))
                            <-> In m (map metaOf rows)).
  { intros m. rewrite !in_map_iff. split.
    - intros (b & <- & Hb). apply rowsToV1_In in Hb as (r & Hr & ->).
      exists r. split; [reflexivity|exact Hr].
    - intros (r & <- & Hr). exists (groupOf rows r).
      split; [reflexivity|]. apply rowsToV1_In. eauto. }
  split; [|split; [exact Hmeta|split]].
  - apply (NoDup_map_factor blobMeta blobKeyOf);
      [apply blobKeyOf_meta|apply rowsToV1_keys_NoDup].
  - intros b Hb. apply rowsToV1_In in Hb as (r & Hr & ->).
    now apply groupOf_nonempty.
  - split.
    + intros He. destruct rows as [|r rows]; [reflexivity|].
      exfalso. assert (Hin : In (metaOf r) (map metaOf (r :: rows)))
        by now left.
      apply Hmeta in Hin. rewrite He in Hin. destruct Hin.
    + intros ->. reflexivity.
Qed.

Lemma StronglySorted_strengthen {A : Type} (R R' : A -> A -> Prop)
  (l : list A) :
  NoDup l ->
  (forall a b, In a l -> In b l -> a <> b -> R a b -> R' a b) ->
  StronglySorted R l -> StronglySorted R' l.
Proof.
  intros Hnd H Hs. induction Hs as [|x l Hs IH Hx]; constructor.
  - inversion Hnd; subst. apply IH; auto.
    intros a b Ha Hb. apply H; now right.
  - inversion Hnd as [|? ? Hnx Hl]; subst.
    rewrite Forall_forall in *. intros y Hy.
    apply H; [now left|now right| |now apply Hx].
    intros ->. contradiction.
Qed.

Lemma cmpBlob_lt {C : Collation} (a b : V1Blob.t) :
  cmpBlob a b < 0 <-> blobLt a b.
Proof. unfold cmpBlob, blobLt. rewrite !jsOr_lt, jsOr_zero. lia. Qed.

Lemma notAfter_cmpEntry (a b : V1Entry.t) :
  notAfter cmpEntry a b <-> entryLe a b.
Proof.
  unfold notAfter, cmpEntry, entryLe.
  rewrite jsOr_le, !jsOr_lt, !jsOr_zero. lia.
Qed.

(** X2 — order of the output: the entries of each blob [rowsToV1] returns
    ascend by [(id, n, y, xs, xe)]; and the blobs ascend strictly by
    [(c, id, n)] when [localeCompare] is a consistent order that returns
    [0] on no two distinct names of the input. *)
Theorem rowsToV1_sorted {C : Collation} {HO : CollationOrder C}
  (rows : list RawRow.t) :
  apartNames (map RawRow.name rows) ->
  StronglySorted blobLt (rowsToV1 rows)
  /\ (forall b, In b (rowsToV1 rows) -> StronglySorted entryLe (V1Blob.e b)).
Proof.
  intros Hap. split.
  - apply (StronglySorted_strengthen (notAfter cmpBlob)).
    + eapply NoDup_map_inv, rowsToV1_keys_NoDup.
    + intros a b Ha Hb Hne Hle. apply cmpBlob_lt.
      unfold notAfter in Hle.
      assert (cmpBlob a b <> 0); [|lia].
      intros Hz. apply Hne.
      rewrite rowsToV1_closed in Ha, Hb. apply sortBy_In in Ha, Hb.
      now apply (groupBlobs_separated rows).
    + rewrite rowsToV1_closed.
      apply (sortBy_sorted cmpBlob (HC := Consistent_cmpBlob)).
  - intros b Hb. apply rowsToV1_In in Hb as (r & _ & ->).
    cbn [groupOf V1Blob.e]. unfold entriesOf.
    eapply StronglySorted_impl; [apply notAfter_cmpEntry|].
    apply (sortBy_sorted cmpEntry (HC := Consistent_cmpEntry)).
Qed.

Lemma rowsToV1_sorted_witness :
  StronglySorted (@blobLt codeUnits) (@rowsToV1 codeUnits scenario)
  /\ (forall b, In b (@rowsToV1 codeUnits scenario) ->
                StronglySorted entryLe (V1Blob.e b)).
Proof.
  apply (@rowsToV1_sorted codeUnits _ scenario), codeUnits_apart.
Defined.

Lemma rowsToV1_one_blob_per_group_witness :
  NoDup (map blobMeta (@rowsToV1 codeUnits scenario))
  /\ (@rowsToV1 codeUnits scenario = [] <-> scenario = []).
Proof.
  split.
  - apply (proj1 (@rowsToV1_one_blob_per_group codeUnits scenario)).
  - apply (proj2 (proj2 (proj2
             (@rowsToV1_one_blob_per_group codeUnits scenario)))).
Defined.

(** ** The intervals of a group *)

Section MergedIntervals.
Variables (rid n y : Z).

#[local] Abbreviation mkE := (V1Entry.mk rid n y).

Lemma mergeLoop_intervals (start prev : Z) (rest : list Z) :
  start <= prev ->
  Forall (fun e => V1Entry.xs e <= V1Entry.xe e)
    (mergeLoop mkE start prev rest).
Proof.
  revert start prev. induction rest as [|cur rest IH]; intros start prev H;
    cbn [mergeLoop].
  - repeat constructor. exact H.
  - destruct (cur =? prev + 1) eqn:E.
    + apply Z.eqb_eq in E. apply IH. lia.
    + constructor; [exact H|]. apply IH. lia.
Qed.

Lemma mergeRuns_intervals (xs : list Z) :
  Forall (fun e => V1Entry.xs e <= V1Entry.xe e) (mergeRuns mkE xs).
Proof.
  destruct xs as [|x0 rest]; [constructor|].
  apply mergeLoop_intervals. lia.
Qed.

Lemma mergeLoop_lower (start prev : Z) (rest : list Z) :
  start <= prev -> StronglySorted Z.lt (prev :: rest) ->
  Forall (fun e => start <= V1Entry.xs e) (mergeLoop mkE start prev rest).
Proof.
  revert start prev. induction rest as [|cur rest IH];
    intros start prev H Hs; cbn [mergeLoop].
  - repeat constructor. simpl. lia.
  - inversion Hs as [|? ? Hs' Hp]; subst.
    inversion Hp as [|? ? Hpc _]; subst.
    destruct (cur =? prev + 1).
    + apply IH; [lia|exact Hs'].
    + constructor; [simpl; lia|].
      eapply Forall_impl; [|apply (IH cur cur); [lia|exact Hs']].
      intros e He. simpl in He. lia.
Qed.

(** On strictly ascending columns the loop emits intervals with a free
    column between any two of them. *)
Lemma mergeLoop_apart (start prev : Z) (rest : list Z) :
  start <= prev -> StronglySorted Z.lt (prev :: rest) ->
  StronglySorted apart (mergeLoop mkE start prev rest).
Proof.
  revert start prev. induction rest as [|cur rest IH];
    intros start prev H Hs; cbn [mergeLoop].
  - repeat constructor.
  - inversion Hs as [|? ? Hs' Hp]; subst.
    inversion Hp as [|? ? Hpc _]; subst.
    destruct (Z.eqb_spec cur (prev + 1)) as [E|E].
    + apply IH; [lia|exact Hs'].
    + constructor; [apply IH; [lia|exact Hs']|].
      eapply Forall_impl; [|apply (mergeLoop_lower cur cur); [lia|exact Hs']].
      intros e He. unfold apart. simpl in *. lia.
Qed.

Lemma mergeRuns_apart (xs : list Z) :
  StronglySorted Z.lt xs -> StronglySorted apart (mergeRuns mkE xs).
Proof.
  destruct xs as [|x0 rest]; [constructor|].
  apply mergeLoop_apart. lia.
Qed.
End MergedIntervals.

Lemma sortBy_cmpNum_strict (xs : list Z) :
  NoDup xs -> StronglySorted Z.lt (sortBy cmpNum xs).
Proof.
  intros Hnd. apply (StronglySorted_strengthen (notAfter cmpNum)).
  - eapply Permutation_NoDup; [apply Permutation_sym, sortBy_perm|exact Hnd].
  - intros a b _ _ Hne Hle. unfold notAfter, cmpNum in Hle. lia.
  - apply (sortBy_sorted cmpNum (HC := Consistent_cmpNum)).
Qed.

Lemma StronglySorted_either {A : Type} (R : A -> A -> Prop) (l : list A)
  (a b : A) :
  StronglySorted R l -> In a l -> In b l -> a = b \/ R a b \/ R b a.
Proof.
  induction 1 as [|x l Hs IH Hx]; [intros []|].
  rewrite Forall_forall in Hx.
  intros [->|Ha] [->|Hb]; auto.
Qed.

(** An entry of a group, traced to the bucket it was merged from. *)
Lemma entriesOf_In (rs : list RawRow.t) (e : V1Entry.t) :
  In e (entriesOf rs) <->
  exists r0, In r0 rs
    /\ In e (mergeRuns
               (V1Entry.mk (RawRow.id r0) (RawRow.number r0)
                  (Coord.tileY (RawRow.coord r0)))
               (sortBy cmpNum (columnsAt (bucketKeyOf r0) rs))).
Proof.
  unfold entriesOf, bucketsOf. rewrite sortBy_In, !flat_map_map, in_flat_map.
  split.
  - intros (r0 & Hr0 & He). exists r0.
    split; [now apply (firstBy_In bucketKeyOf)|].
    now rewrite <- bucketEntries_keyed.
  - intros (r & Hr & He).
    destruct (firstBy_covers bucketKeyOf rs r Hr) as (r0 & Hr0 & Hk).
    exists r0. split; [exact Hr0|].
    rewrite Hk, bucketEntries_keyed. exact He.
Qed.

Lemma recordAt_In (b : V1Blob.t) (e : V1Entry.t) (x : Z) :
  In e (V1Blob.e b) -> V1Entry.xs e <= x <= V1Entry.xe e ->
  In (recordAt b e x) (expandV1 b).
Proof.
  intros He Hx. rewrite expandV1_entryRows. apply in_flat_map.
  exists e. split; [exact He|]. unfold entryRows, recordAt.
  apply in_map_iff. exists x. split; [reflexivity|now apply zrange_In].
Qed.

(** X3 — tiles: every interval [rowsToV1] emits is non-empty and each of
    its columns is a tile the input gives to that place on that row; and
    every input record lies in an interval of its group. *)
Theorem rowsToV1_tiles_exact {C : Collation} (rows : list RawRow.t) :
  (forall b e,
     In b (rowsToV1 rows) -> In e (V1Blob.e b) ->
     V1Entry.xs e <= V1Entry.xe e
     /\ forall x, V1Entry.xs e <= x <= V1Entry.xe e ->
                  In (recordAt b e x) rows)
  /\ (forall r,
        In r rows ->
        exists b e,
          In b (rowsToV1 rows) /\ In e (V1Blob.e b)
          /\ V1Entry.xs e <= Coord.tileX (RawRow.coord r) <= V1Entry.xe e
          /\ r = recordAt b e (Coord.tileX (RawRow.coord r))).
Proof.
  split.
  - intros b e Hb He. split.
    + apply rowsToV1_In in Hb as (r & _ & ->). cbn [groupOf V1Blob.e] in He.
      apply entriesOf_In in He as (r0 & _ & He).
      pose proof (mergeRuns_intervals (RawRow.id r0) (RawRow.number r0)
                    (Coord.tileY (RawRow.coord r0))
                    (sortBy cmpNum
                       (columnsAt (bucketKeyOf r0) (groupMembers rows r))))
        as Hall.
      rewrite Forall_forall in Hall. now apply Hall.
    + intros x Hx.
      apply (Permutation_in _ (rowsToV1_rows rows)).
      apply in_flat_map. exists b. split; [exact Hb|].
      now apply recordAt_In.
  - intros r Hr.
    apply (Permutation_in _ (Permutation_sym (rowsToV1_rows rows))) in Hr.
    apply in_flat_map in Hr as (b & Hb & Hr).
    rewrite expandV1_entryRows in Hr.
    apply in_flat_map in Hr as (e & He & Hr).
    unfold entryRows in Hr. apply in_map_iff in Hr as (x & <- & Hx).
    apply zrange_In in Hx. exists b, e. cbn. auto.
Qed.

Lemma rowsToV1_tiles_exact_witness :
  exists b e,
    In b (@rowsToV1 codeUnits scenario) /\ In e (V1Blob.e b)
    /\ V1Entry.xs e <= 2 <= V1Entry.xe e
    /\ sampleRow 1 1 2 5 = recordAt b e 2.
Proof.
  apply (proj2 (@rowsToV1_tiles_exact codeUnits scenario)
           (sampleRow 1 1 2 5)).
  right. right. now left.
Defined.

Lemma NoDup_map_on {A B : Type} (f : A -> B) (l : list A) :
  (forall a b, In a l -> In b l -> f a = f b -> a = b) ->
  NoDup l -> NoDup (map f l).
Proof.
  intros Hinj Hnd. induction Hnd as [|x l Hx Hl IH]; simpl; constructor.
  - intros Hin. apply in_map_iff in Hin as (z & Hz & Hi).
    apply Hx. rewrite (Hinj x z); auto; [now left|now right].
  - apply IH. intros a b Ha Hb. apply Hinj; now right.
Qed.

(** Records of one group and one sub-key differ in their column only. *)
Lemma columnsAt_NoDup (rows : list RawRow.t) (r r0 : RawRow.t) :
  NoDup rows ->
  NoDup (columnsAt (bucketKeyOf r0) (groupMembers rows r)).
Proof.
  intros Hnd. unfold columnsAt. apply NoDup_map_on.
  - intros a b Ha Hb Hx.
    apply filter_In in Ha as [Ha Hka], Hb as [Hb Hkb].
    apply String.eqb_eq, bucketKeyOf_inj in Hka, Hkb.
    apply groupMembers_meta in Ha, Hb.
    rewrite <- (row_rebuilt a r0 _ _ _ Ha Hka).
    rewrite <- (row_rebuilt b r0 _ _ _ Hb Hkb).
    now rewrite Hx.
  - unfold groupMembers. now apply NoDup_filter, NoDup_filter.
Qed.

(** X4 — maximal runs: when no record is given twice, two intervals of the
    same place on the same row in a blob of [rowsToV1] are the same
    interval or have at least one free column between them; they never
    overlap or touch. *)
Theorem rowsToV1_intervals_apart {C : Collation} (rows : list RawRow.t)
  (b : V1Blob.t) (e1 e2 : V1Entry.t) :
  NoDup rows ->
  In b (rowsToV1 rows) -> In e1 (V1Blob.e b) -> In e2 (V1Blob.e b) ->
  sameSub e1 e2 ->
  e1 = e2 \/ apart e1 e2 \/ apart e2 e1.
Proof.
  intros Hnd Hb H1 H2 (Hi & Hn & Hy).
  apply rowsToV1_In in Hb as (r & _ & ->). cbn [groupOf V1Blob.e] in H1, H2.
  apply entriesOf_In in H1 as (r1 & _ & H1), H2 as (r2 & _ & H2).
  destruct (mergeRuns_fields _ _ _ _ _ H1) as (I1 & N1 & Y1).
  destruct (mergeRuns_fields _ _ _ _ _ H2) as (I2 & N2 & Y2).
  assert (Hk : bucketKeyOf r1 = bucketKeyOf r2).
  { apply bucketKeyOf_inj. unfold subOf. congruence. }
  assert (Hs : subOf r1 = subOf r2) by now apply bucketKeyOf_inj.
  unfold subOf in Hs. injection Hs as Ei En Ey.
  rewrite Hk, Ei, En, Ey in H1.
  eapply StronglySorted_either; [|exact H1|exact H2].
  apply mergeRuns_apart, sortBy_cmpNum_strict.
  now apply columnsAt_NoDup.
Qed.

Lemma rowsToV1_intervals_apart_witness :
  V1Entry.mk 1 1 5 0 1 = V1Entry.mk 1 1 5 3 3
  \/ apart (V1Entry.mk 1 1 5 0 1) (V1Entry.mk 1 1 5 3 3)
  \/ apart (V1Entry.mk 1 1 5 3 3) (V1Entry.mk 1 1 5 0 1).
Proof.
  apply (@rowsToV1_intervals_apart codeUnits
           [sampleRow 1 1 0 5; sampleRow 1 1 3 5; sampleRow 1 1 1 5]
           (V1Blob.mk 1 "A" 9 [V1Entry.mk 1 1 5 0 1; V1Entry.mk 1 1 5 3 3])).
  - repeat constructor; simpl; intuition discriminate.
  - left. reflexivity.
  - left. reflexivity.
  - right. left. reflexivity.
  - repeat split.
Defined.

(** ** Shape of the progression compactor's output *)

Lemma runTotal_cons (r : V2Run.t) (sq : list V2Run.t) :
  runTotal (r :: sq) = V2Run.k r + runTotal sq.
Proof. reflexivity. Qed.

Lemma runsFrom_structure (s : Z) (rest : list V1Entry.t) :
  forall (first prev : V1Entry.t) (count : Z),
    1 <= count ->
    Forall (fun r => 1 <= V2Run.k r) (runsFrom s first count prev rest)
    /\ runTotal (runsFrom s first count prev rest)
       = count + Z.of_nat (List.length rest)
    /\ Forall (fun r => exists e, In e (first :: rest) /\ startsAt r e)
         (runsFrom s first count prev rest).
Proof.
  induction rest as [|cur rest IH]; intros first prev count Hc;
    cbn [runsFrom].
  - split; [|split].
    + repeat constructor. exact Hc.
    + cbn. lia.
    + repeat constructor. exists first. split; [now left|now repeat split].
  - destruct (stepOK s prev cur).
    + destruct (IH first cur (count + 1)) as (Hk & Ht & Hst); [lia|].
      split; [exact Hk|split; [rewrite Ht; cbn [List.length]; lia|]].
      eapply Forall_impl; [|exact Hst].
      intros r (e & [He|He] & Hr); exists e; (split; [|exact Hr]).
      * now left.
      * right. now right.
    + destruct (IH cur cur 1) as (Hk & Ht & Hst); [lia|].
      split; [|split].
      * constructor; [exact Hc|exact Hk].
      * rewrite runTotal_cons, Ht. cbn [List.length V2Run.k]. lia.
      * constructor.
        -- exists first. split; [now left|now repeat split].
        -- eapply Forall_impl; [|exact Hst].
           intros r (e & He & Hr). exists e. split; [now right|exact Hr].
Qed.

(** What the compactor returns when it accepts a group that starts with
    [e0]: the maximal runs of the entries sorted by start column. *)
Lemma v1ToV2_accepted (v1 : V1Blob.t) (s : Z) (v2 : V2Blob.t)
  (e0 : V1Entry.t) (rest : list V1Entry.t) :
  V1Blob.e v1 = e0 :: rest ->
  v1ToV2IfPossible v1 s = Some v2 ->
  Forall (tier2Shape (V1Entry.y e0) s) (V1Blob.e v1)
  /\ exists e1 rest1,
       Permutation (e1 :: rest1) (V1Blob.e v1)
       /\ v2 = V2Blob.mk (V1Blob.c v1) (V1Blob.n v1) (V1Blob.id v1)
                 (V1Entry.y e0) s (runsFrom s e1 1 e1 rest1).
Proof.
  intros Ee. rewrite v1ToV2_unfold, Ee.
  destruct (tier2Candidate _ _ _) eqn:Et; [|discriminate].
  apply tier2Candidate_shape in Et.
  destruct (sortBy_cons_inv cmpXs e0 rest) as (e1 & rest1 & Hs).
  pose proof (sortBy_perm cmpXs (e0 :: rest)) as HP. rewrite Hs in *.
  cbv zeta. destruct (_ || _); [|discriminate]. intros H.
  split; [exact Et|]. exists e1, rest1. split; [exact HP|].
  apply (f_equal (fun o => match o with Some b => b | None => v2 end)) in H.
  now subst v2.
Qed.

(** X5 — runs of an accepted group: when [v1ToV2IfPossible] accepts a
    non-empty group, the blob keeps the group key and the stride, every
    entry is on the blob's row with the stride as width, there is at least
    one run, every run counts at least one entry and starts at an entry of
    the group, and the counts add up to the number of entries. *)
Theorem v1ToV2_run_structure (v1 : V1Blob.t) (s : Z) (v2 : V2Blob.t) :
  V1Blob.e v1 <> [] ->
  v1ToV2IfPossible v1 s = Some v2 ->
  (V2Blob.c v2, V2Blob.n v2, V2Blob.id v2) = blobMeta v1
  /\ V2Blob.s v2 = s
  /\ Forall (tier2Shape (V2Blob.y v2) s) (V1Blob.e v1)
  /\ V2Blob.seq v2 <> []
  /\ Forall (fun r => 1 <= V2Run.k r) (V2Blob.seq v2)
  /\ Forall (fun r => exists e, In e (V1Blob.e v1) /\ startsAt r e)
       (V2Blob.seq v2)
  /\ runTotal (V2Blob.seq v2) = Z.of_nat (List.length (V1Blob.e v1)).
Proof.
  intros Hne Hv.
  destruct (V1Blob.e v1) as [|e0 rest] eqn:Ee; [congruence|].
  destruct (v1ToV2_accepted v1 s v2 e0 rest Ee Hv)
    as (Et & e1 & rest1 & HP & ->).
  rewrite Ee in Et, HP.
  cbn [V2Blob.c V2Blob.n V2Blob.id V2Blob.s V2Blob.y V2Blob.seq].
  destruct (runsFrom_structure s rest1 e1 e1 1) as (Hk & Ht & Hst); [lia|].
  split; [reflexivity|]. split; [reflexivity|]. split; [exact Et|].
  split; [|split; [exact Hk|split]].
  - intros Hnil.
    pose proof (runsFrom_length s rest1 e1 e1 1) as Hl.
    rewrite Hnil in Hl. discriminate.
  - eapply Forall_impl; [|exact Hst].
    intros r (e & He & Hr). exists e. split; [|exact Hr].
    now apply (Permutation_in _ HP).
  - rewrite Ht. apply Permutation_length in HP.
    cbn [List.length] in *. lia.
Qed.

Lemma v1ToV2_run_structure_witness :
  runTotal [V2Run.mk 0 3 1 1; V2Run.mk 20 1 9 9] = 4.
Proof.
  apply (proj2 (proj2 (proj2 (proj2 (proj2 (proj2
           (v1ToV2_run_structure stridedGroup 4
              (V2Blob.mk 1 "A" 9 5 4 [V2Run.mk 0 3 1 1; V2Run.mk 20 1 9 9])
              ltac:(discriminate) eq_refl))))))).
Defined.

Lemma runsFrom_unbroken (s : Z) (rest : list V1Entry.t) :
  forall (first prev : V1Entry.t) (count : Z),
    breaks s (prev :: rest) = 0%nat ->
    runsFrom s first count prev rest =
    [V2Run.mk (V1Entry.xs first) (count + Z.of_nat (List.length rest))
       (V1Entry.id first) (V1Entry.n first)].
Proof.
  induction rest as [|cur rest IH]; intros first prev count Hb.
  - cbn [runsFrom List.length]. do 2 f_equal. lia.
  - cbn [runsFrom]. cbn [breaks] in Hb.
    destruct (stepOK s prev cur); [|discriminate].
    rewrite IH by exact Hb. do 2 f_equal. cbn [List.length]. lia.
Qed.

(** X6 — unbroken progression: a non-empty group on one row, of intervals
    as wide as the stride, whose entries sorted by start column progress at
    every step, is always accepted, as one run that counts every entry; in
    particular a group of a single entry as wide as the stride. *)
Theorem unbroken_group_is_one_run (v1 : V1Blob.t) (s y : Z)
  (e1 : V1Entry.t) (rest1 : list V1Entry.t) :
  Forall (tier2Shape y s) (V1Blob.e v1) ->
  sortBy cmpXs (V1Blob.e v1) = e1 :: rest1 ->
  breaks s (e1 :: rest1) = 0%nat ->
  v1ToV2IfPossible v1 s =
  Some (V2Blob.mk (V1Blob.c v1) (V1Blob.n v1) (V1Blob.id v1) y s
          [V2Run.mk (V1Entry.xs e1) (Z.of_nat (List.length (V1Blob.e v1)))
             (V1Entry.id e1) (V1Entry.n e1)]).
Proof.
  intros Hall Hs Hb. rewrite v1ToV2_unfold.
  pose proof (sortBy_length cmpXs (V1Blob.e v1)) as Hl.
  destruct (V1Blob.e v1) as [|e0 rest] eqn:Ee;
    [rewrite Hs in Hl; discriminate|].
  destruct (shape_head _ _ _ _ Hall) as [Hy Ht]. rewrite Ht, Hs. cbv zeta.
  cbn [maximalRuns]. rewrite (runsFrom_unbroken s rest1 e1 e1 1 Hb).
  cbn [List.length Z.of_nat]. rewrite Hy.
  replace (1 + Z.of_nat (List.length rest1))
    with (Z.of_nat (List.length (e0 :: rest)))
    by (rewrite <- Hl, Hs; cbn [List.length]; lia).
  reflexivity.
Qed.

Lemma unbroken_group_is_one_run_witness :
  v1ToV2IfPossible scenarioV1 4 =
  Some (V2Blob.mk 1 "A" 9 5 4 [V2Run.mk 0 1 1 1]).
Proof.
  apply (unbroken_group_is_one_run scenarioV1 4 5 (V1Entry.mk 1 1 5 0 3) []).
  - repeat constructor.
  - reflexivity.
  - reflexivity.
Defined.

(** ** Shape of the encoder's output *)

Lemma rowsToV1_nonempty {C : Collation} (rows : list RawRow.t)
  (b : V1Blob.t) :
  In b (rowsToV1 rows) -> V1Blob.e b <> [].
Proof.
  intros Hb. apply rowsToV1_In in Hb as (r & Hr & ->).
  now apply groupOf_nonempty.
Qed.

Lemma rowsToV1_intervals {C : Collation} (rows : list RawRow.t)
  (b : V1Blob.t) :
  In b (rowsToV1 rows) ->
  Forall (fun e => V1Entry.xs e <= V1Entry.xe e) (V1Blob.e b).
Proof.
  intros Hb. apply rowsToV1_In in Hb as (r & _ & ->).
  apply Forall_forall. intros e He. cbn [groupOf V1Blob.e] in He.
  apply entriesOf_In in He as (r0 & _ & He).
  pose proof (mergeRuns_intervals (RawRow.id r0) (RawRow.number r0)
                (Coord.tileY (RawRow.coord r0))
                (sortBy cmpNum
                   (columnsAt (bucketKeyOf r0) (groupMembers rows r))))
    as Hall.
  rewrite Forall_forall in Hall. now apply Hall.
Qed.

(** X7 — encoder output: [compactFromRows] returns one blob for each blob
    of [rowsToV1], in the same order and with the same group key; a blob it
    leaves in Tier-1 has at least one interval and no interval is empty; a
    blob it re-encodes as Tier-2 carries the requested stride, which is then
    at least 1, and at least one run, each counting at least one entry. *)
Theorem compactFromRows_wellformed {C : Collation} (rows : list RawRow.t)
  (s : Z) :
  map metaOfBlob (compactFromRows rows s) = map blobMeta (rowsToV1 rows)
  /\ Forall (wellFormedBlob s) (compactFromRows rows s).
Proof.
  unfold compactFromRows. split.
  - rewrite map_map. apply map_ext_in. intros b Hb.
    destruct (v1ToV2IfPossible b s) as [v2|] eqn:Ev; [|reflexivity].
    destruct (V1Blob.e b) as [|e0 rest] eqn:Ee;
      [now apply rowsToV1_nonempty in Hb|].
    destruct (v1ToV2_accepted b s v2 e0 rest Ee Ev) as (_ & ? & ? & _ & ->).
    reflexivity.
  - apply Forall_forall. intros x Hx.
    apply in_map_iff in Hx as (b & <- & Hb).
    pose proof (rowsToV1_nonempty rows b Hb) as Hne.
    pose proof (rowsToV1_intervals rows b Hb) as Hiv.
    destruct (v1ToV2IfPossible b s) as [v2|] eqn:Ev;
      cbn [wellFormedBlob]; [|now split].
    destruct (V1Blob.e b) as [|e0 rest] eqn:Ee; [congruence|].
    destruct (v1ToV2_accepted b s v2 e0 rest Ee Ev)
      as (Et & e1 & rest1 & _ & ->).
    cbn [V2Blob.s V2Blob.seq].
    destruct (runsFrom_structure s rest1 e1 e1 1) as (Hk & _ & _); [lia|].
    split; [reflexivity|]. split; [|split; [|exact Hk]].
    + rewrite Ee in Et. inversion Et as [|? ? [_ Hw] _]; subst.
      inversion Hiv; subst. lia.
    + intros Hnil.
      pose proof (runsFrom_length s rest1 e1 e1 1) as Hl.
      rewrite Hnil in Hl. discriminate.
Qed.

(** ** Decoding and querying what the encoder produced *)

(** X8 — decoding an encoded document: when [localeCompare] is a
    consistent order that returns [0] on no two distinct names of the
    input, the decoder returns the input records in canonical order,
    whatever stride the encoder was given, and encoding the decoder's
    output gives the encoder's document again. *)
Theorem decode_of_encode {C : Collation} {HO : CollationOrder C}
  (rows : list RawRow.t) (s : Z) (doc : Compact) :
  doc = Many (map toJs (compactFromRows rows s))
  \/ doc = payload (compactFromRows rows s) ->
  apartNames (map RawRow.name rows) ->
  expandCompact doc = Ok (canonicalSort rows)
  /\ forall s', compactFromRows (canonicalSort rows) s'
                = compactFromRows rows s'.
Proof.
  intros Hdoc Hap. apply encoded_blobs in Hdoc. split.
  - rewrite (expandCompact_blobs doc _ Hdoc). f_equal.
    unfold canonicalSort. apply sortBy_perm_eq; [exact _| |].
    + apply (cmpRow_apart _ _ Hap), Permutation_names,
        compactFromRows_rows.
    + apply compactFromRows_rows.
  - intros s'. unfold compactFromRows, canonicalSort.
    rewrite (rowsToV1_perm (sortBy cmpRow rows) rows);
      [reflexivity| |apply sortBy_perm].
    intros a b Ha Hb. apply Hap.
    + now apply (Permutation_names _ _ (sortBy_perm cmpRow rows)).
    + now apply (Permutation_names _ _ (sortBy_perm cmpRow rows)).
Qed.

Lemma decode_of_encode_witness :
  @expandCompact codeUnits
    (payload (@compactFromRows codeUnits (List.rev scenario) 4))
  = Ok scenario.
Proof.
  apply (proj1 (@decode_of_encode codeUnits _ (List.rev scenario) 4 _
                  (or_intror eq_refl) (codeUnits_apart _))).
Defined.

(** X9 — the resolver on an encoded document, against the input: the
    resolver finds nothing exactly when no input record lies on the queried
    tile, and a hit carries the [(id, number)] and the group of an input
    record on that tile. *)
Theorem query_of_encode {C : Collation} (rows : list RawRow.t) (s : Z)
  (doc : Compact) (x y : Z) :
  doc = Many (map toJs (compactFromRows rows s))
  \/ doc = payload (compactFromRows rows s) ->
  (queryOneCompact doc x y = Ok None
   <-> forall r, In r rows -> ~ covers r x y)
  /\ (forall h, queryOneCompact doc x y = Ok (Some h) ->
                exists r, In r rows /\ covers r x y /\ hitMatches h r).
Proof.
  intros Hdoc. apply encoded_blobs in Hdoc.
  unfold queryOneCompact. rewrite Hdoc.
  pose proof (compactFromRows_rows rows s) as HP.
  split; [split|].
  - intros Hq r Hr Hc.
    apply (queryLoop_complete (compactFromRows rows s) x y).
    + exists r. split; [|exact Hc].
      now apply (Permutation_in _ (Permutation_sym HP)).
    + congruence.
  - intros Hnone.
    destruct (queryLoop _ x y) as [h|] eqn:E; [|reflexivity].
    apply queryLoop_hit in E as (r & Hr & Hc & _).
    exfalso. apply (Hnone r); [|exact Hc].
    now apply (Permutation_in _ HP).
  - intros h [= E]. apply queryLoop_hit in E as (r & Hr & Hc & Hm).
    exists r. split; [|now split]. now apply (Permutation_in _ HP).
Qed.

Lemma query_of_encode_witness :
  queryOneCompact (payload (@compactFromRows codeUnits scenario 4)) 7 5
  = Ok None.
Proof.
  apply (proj1 (@query_of_encode codeUnits scenario 4 _ 7 5
                  (or_intror eq_refl))).
  intros r Hr [Hx _].
  repeat (destruct Hr as [<-|Hr]; [discriminate Hx|]). destruct Hr.
Defined.

(** ** Documents of any provenance *)

Lemma readable_cons (b : JsValue) (arr : list JsValue) :
  readable (b :: arr) =
  match readBlob b with Some x => x :: readable arr | None => readable arr
  end.
Proof. unfold readable. cbn [flat_map]. now destruct (readBlob b). Qed.

Lemma readable_app (a b : list JsValue) :
  readable (a ++ b) = readable a ++ readable b.
Proof. unfold readable. apply flat_map_app. Qed.

Lemma readable_toJs (bs : list Blob) : readable (map toJs bs) = bs.
Proof.
  induction bs as [|b bs IH]; [reflexivity|].
  cbn [map]. rewrite readable_cons, IH.
  destruct b as [b1|b2]; unfold readBlob.
  - change (isV2 (toJs (BlobV1 b1))) with false.
    change (isV1 (toJs (BlobV1 b1))) with true. cbv iota.
    now rewrite asV1_toJs.
  - change (isV2 (toJs (BlobV2 b2))) with true. cbv iota.
    now rewrite asV2_toJs.
Qed.

Lemma readable_In (arr : list JsValue) (b : Blob) :
  In b (readable arr) <-> exists x, In x arr /\ readBlob x = Some b.
Proof.
  unfold readable. rewrite in_flat_map. split; intros (x & Hx & H); exists x.
  - split; [exact Hx|]. destruct (readBlob x) as [b'|]; [|destruct H].
    destruct H as [->|[]]. reflexivity.
  - split; [exact Hx|]. rewrite H. now left.
Qed.

(** The resolver sees a document through the blobs it reads in it. *)
Lemma queryLoop_readable (arr : list JsValue) (x y : Z) :
  queryLoop arr x y = queryLoop (map toJs (readable arr)) x y.
Proof.
  induction arr as [|b arr IH]; [reflexivity|].
  rewrite queryLoop_cons, readable_cons. unfold readBlob.
  destruct (isV2 b); [|destruct (isV1 b)].
  - rewrite queryLoop_toJs. cbn [queryBlob]. rewrite <- IH.
    now destruct (y =? V2Blob.y (asV2 b)).
  - rewrite queryLoop_toJs. cbn [queryBlob]. now rewrite <- IH.
  - exact IH.
Qed.

Lemma pushedRows_readable (arr : list JsValue) :
  forallb knownShape arr = true ->
  flat_map pushedRows arr = flat_map expandBlob (readable arr).
Proof.
  induction arr as [|b arr IH]; [reflexivity|].
  cbn [forallb flat_map]. rewrite andb_true_iff. intros [Hk Hall].
  rewrite readable_cons, IH by exact Hall.
  unfold knownShape in Hk. unfold pushedRows at 1, readBlob.
  destruct (isV2 b); [reflexivity|].
  destruct (isV1 b); [reflexivity|discriminate].
Qed.

Lemma expandCompact_readable {C : Collation} (doc : Compact)
  (decoded : list RawRow.t) :
  expandCompact doc = Ok decoded ->
  decoded = sortBy cmpRow (flat_map expandBlob (readable (blobsOf doc))).
Proof.
  rewrite expandCompact_closed.
  destruct (forallb knownShape (blobsOf doc)) eqn:Hk; [|discriminate].
  intros [= <-]. now rewrite pushedRows_readable.
Qed.

(** X10 — query/decode agreement on any document: for every document the
    decoder accepts, whoever wrote it, the resolver finds nothing exactly
    when no decoded record lies on the queried tile, and a hit carries the
    [(id, number)] and the group of a decoded record on that tile. *)
Theorem query_agrees_on_any_document {C : Collation} (doc : Compact)
  (decoded : list RawRow.t) (x y : Z) :
  expandCompact doc = Ok decoded ->
  (queryOneCompact doc x y = Ok None
   <-> forall r, In r decoded -> ~ covers r x y)
  /\ (forall h, queryOneCompact doc x y = Ok (Some h) ->
                exists r, In r decoded /\ covers r x y /\ hitMatches h r).
Proof.
  intros Hd. apply expandCompact_readable in Hd. subst decoded.
  unfold queryOneCompact. rewrite queryLoop_readable.
  set (bs := readable (blobsOf doc)).
  split; [split|].
  - intros Hq r Hr Hc. apply (queryLoop_complete bs x y).
    + exists r. split; [now apply (sortBy_In cmpRow)|exact Hc].
    + congruence.
  - intros Hnone.
    destruct (queryLoop _ x y) as [h|] eqn:E; [|reflexivity].
    apply queryLoop_hit in E as (r & Hr & Hc & _).
    exfalso. apply (Hnone r); [|exact Hc]. now apply (sortBy_In cmpRow).
  - intros h [= E]. apply queryLoop_hit in E as (r & Hr & Hc & Hm).
    exists r. split; [|now split]. now apply (sortBy_In cmpRow).
Qed.

Lemma query_agrees_on_any_document_witness :
  exists r,
    In r [sampleRow 1 1 0 5; sampleRow 1 1 1 5; sampleRow 1 1 2 5;
          sampleRow 1 1 3 5]
    /\ covers r 2 5
    /\ hitMatches (QueryHit.mk 1 "A" 9 1 1 5 0 3 "V2") r.
Proof.
  apply (proj2 (@query_agrees_on_any_document codeUnits
                  (Single (JsObj twoShaped)) _ 2 5 eq_refl)).
  reflexivity.
Defined.

Lemma readBlob_known (b : JsValue) :
  knownShape b = true <-> readBlob b <> None.
Proof.
  unfold knownShape, readBlob.
  destruct (isV2 b); [|destruct (isV1 b)]; cbn [orb]; split; congruence.
Qed.

Lemma readable_filter (arr : list JsValue) :
  readable (filter knownShape arr) = readable arr.
Proof.
  induction arr as [|b arr IH]; [reflexivity|].
  cbn [filter]. destruct (knownShape b) eqn:Hk.
  - now rewrite !readable_cons, IH.
  - rewrite readable_cons, IH.
    destruct (readBlob b) eqn:Hr; [|reflexivity].
    assert (knownShape b = true) by (apply readBlob_known; congruence).
    congruence.
Qed.

Lemma forallb_filter_same {A : Type} (p : A -> bool) (l : list A) :
  forallb p (filter p l) = true.
Proof.
  apply forallb_forall. intros x Hx. now apply filter_In in Hx.
Qed.

(** X11 — blobs of unknown shape, on documents whose [seq] and [e] arrays
    hold elements of the declared types: the decoder accepts a document
    exactly when every blob has an array [seq] or an array [e]; otherwise
    it throws, always with the message ["Unknown compact blob shape"] and
    without partial output.  The resolver never throws: it answers as it
    does on the document with those blobs removed, which the decoder
    accepts. *)
Theorem decoder_all_or_nothing {C : Collation} (doc : Compact) :
  ((exists out, expandCompact doc = Ok out)
   <-> forall b, In b (blobsOf doc) -> knownShape b = true)
  /\ (forall msg, expandCompact doc = Throw msg ->
                  msg = "Unknown compact blob shape"%string)
  /\ (forall x y,
        queryOneCompact doc x y =
        queryOneCompact (Many (filter knownShape (blobsOf doc))) x y)
  /\ exists out,
       expandCompact (Many (filter knownShape (blobsOf doc))) = Ok out.
Proof.
  split; [|split; [|split]].
  - rewrite expandCompact_closed, <- forallb_forall.
    destruct (forallb knownShape (blobsOf doc)); split; eauto.
    + intros [out H]. discriminate H.
    + discriminate.
  - intros msg. rewrite expandCompact_closed.
    destruct (forallb knownShape (blobsOf doc)); [discriminate|].
    now intros [= <-].
  - intros x y. unfold queryOneCompact. cbn [blobsOf].
    now rewrite queryLoop_readable, (queryLoop_readable (filter _ _)),
      readable_filter.
  - rewrite expandCompact_closed. cbn [blobsOf].
    rewrite forallb_filter_same. eauto.
Qed.

Lemma decoder_all_or_nothing_witness :
  @expandCompact codeUnits (Many [shapeless; toJs (BlobV1 scenarioV1)])
  = Throw "Unknown compact blob shape"
  /\ queryOneCompact (Many [shapeless; toJs (BlobV1 scenarioV1)]) 2 5
     = queryOneCompact (Many [toJs (BlobV1 scenarioV1)]) 2 5.
Proof.
  destruct (@decoder_all_or_nothing codeUnits
              (Many [shapeless; toJs (BlobV1 scenarioV1)]))
    as (_ & Hmsg & Hq & _).
  split; [|exact (Hq 2 5)].
  destruct (@expandCompact codeUnits
              (Many [shapeless; toJs (BlobV1 scenarioV1)])) as [out|msg] eqn:E.
  - discriminate E.
  - now rewrite (Hmsg msg eq_refl).
Defined.

Lemma queryLoop_app (a b : list JsValue) (x y : Z) :
  queryLoop (a ++ b) x y =
  match queryLoop a x y with
  | Some h => Some h
  | None => queryLoop b x y
  end.
Proof.
  induction a as [|v a IH]; [reflexivity|].
  rewrite <- app_comm_cons, !queryLoop_cons, IH.
  destruct (isV2 v); [|destruct (isV1 v)].
  - destruct (negb _); [reflexivity|]. now destruct (queryRuns _ _ _ _).
  - now destruct (queryEntries _ _ _ _).
  - reflexivity.
Qed.

Lemma forallb_app_eq {A : Type} (p : A -> bool) (l l' : list A) :
  forallb p (l ++ l') = forallb p l && forallb p l'.
Proof.
  induction l as [|x l IH]; simpl; [reflexivity|].
  now rewrite IH, andb_assoc.
Qed.

(** X12 — documents in sequence: on the concatenation of two blob arrays
    the resolver returns the hit of the first array if there is one and
    the answer of the second otherwise; the decoder accepts the
    concatenation when it accepts both, and then returns the canonical sort
    of the two outputs together; it throws as soon as it throws on one.
    The decoder's part asks of [localeCompare] only that it is a consistent
    order. *)
Theorem documents_concatenate {C : Collation} (a b : list JsValue) :
  (forall x y,
     queryOneCompact (Many (a ++ b)) x y =
     match queryOneCompact (Many a) x y with
     | Ok (Some h) => Ok (Some h)
     | _ => queryOneCompact (Many b) x y
     end)
  /\ (CollationOrder C ->
      forall oa ob,
        expandCompact (Many a) = Ok oa -> expandCompact (Many b) = Ok ob ->
        expandCompact (Many (a ++ b)) = Ok (canonicalSort (oa ++ ob)))
  /\ (forall msg,
        expandCompact (Many a) = Throw msg
        \/ expandCompact (Many b) = Throw msg ->
        expandCompact (Many (a ++ b)) = Throw msg).
Proof.
  split; [|split].
  - intros x y. unfold queryOneCompact. cbn [blobsOf].
    rewrite queryLoop_app. now destruct (queryLoop a x y).
  - intros HO oa ob. rewrite !expandCompact_closed. cbn [blobsOf].
    rewrite forallb_app_eq.
    destruct (forallb knownShape a); [|discriminate].
    destruct (forallb knownShape b); [|discriminate].
    intros [= <-] [= <-]. cbn [andb]. f_equal. unfold canonicalSort.
    rewrite flat_map_app. symmetry.
    apply (sortBy_app_sorted cmpRow (HC := Consistent_cmpRow)).
  - intros msg. rewrite !expandCompact_closed. cbn [blobsOf].
    rewrite forallb_app_eq.
    destruct (forallb knownShape a), (forallb knownShape b); cbn [andb];
      intros [H|H]; congruence.
Qed.

Lemma documents_concatenate_witness :
  @expandCompact codeUnits
    (Many ([toJs (BlobV1 scenarioV1)] ++ [JsObj twoShaped]))
  = Ok (@canonicalSort codeUnits (scenario ++ scenario)).
Proof.
  apply (proj1 (proj2 (@documents_concatenate codeUnits
                         [toJs (BlobV1 scenarioV1)] [JsObj twoShaped]))
           _ scenario scenario eq_refl eq_refl).
Defined.

(** ** The hit the resolver returns *)

Lemma queryBlob_geometry (b : Blob) (x y : Z) (h : QueryHit.t) :
  queryBlob b x y = Some h -> hitHolds h x y /\ hitFrom h b.
Proof.
  destruct b as [b1|b2]; cbn [queryBlob].
  - intros H. apply queryEntries_hit in H as (e & _ & Hy & Hx & ->).
    unfold hitHolds, hitFrom. cbn. auto.
  - destruct (Z.eqb_spec y (V2Blob.y b2)) as [Hy|Hy]; [|discriminate].
    intros H. apply queryRuns_hit in H as (r & q & _ & [_ Hx] & ->).
    unfold hitHolds, hitFrom. cbn. repeat split; auto; lia.
Qed.

Lemma queryLoop_first (bs : list Blob) (x y : Z) (h : QueryHit.t) :
  queryLoop (map toJs bs) x y = Some h ->
  exists pre b post,
    bs = pre ++ b :: post
    /\ Forall (fun b' => queryBlob b' x y = None) pre
    /\ queryBlob b x y = Some h.
Proof.
  induction bs as [|b bs IH]; [discriminate|].
  rewrite queryLoop_toJs. destruct (queryBlob b x y) as [h'|] eqn:E.
  - intros [= ->]. exists [], b, bs. repeat split; auto.
  - intros H. destruct (IH H) as (pre & b' & post & -> & Hpre & Hb).
    exists (b :: pre), b', post. repeat split; auto.
Qed.

(** X13 — the hit: on any document, a hit's interval holds the queried
    column, its row is the queried row, and it comes from the first blob, in
    document order, that has a record on the queried tile: it names that
    blob's group and tier, and a Tier-2 hit is as wide as the blob's
    stride. *)
Theorem first_blob_wins (doc : Compact) (x y : Z) (h : QueryHit.t) :
  queryOneCompact doc x y = Ok (Some h) ->
  hitHolds h x y
  /\ exists pre b post,
       readable (blobsOf doc) = pre ++ b :: post
       /\ (forall b' r, In b' pre -> In r (expandBlob b') -> ~ covers r x y)
       /\ (exists r, In r (expandBlob b) /\ covers r x y /\ hitMatches h r)
       /\ hitFrom h b.
Proof.
  unfold queryOneCompact. rewrite queryLoop_readable. intros [= H].
  apply queryLoop_first in H as (pre & b & post & Hbs & Hpre & Hb).
  destruct (queryBlob_geometry b x y h Hb) as [Hh Hf].
  split; [exact Hh|]. exists pre, b, post.
  split; [exact Hbs|]. split; [|split; [|exact Hf]].
  - intros b' r Hb' Hr Hc. rewrite Forall_forall in Hpre.
    apply (queryBlob_complete b' x y); eauto.
  - now apply queryBlob_hit.
Qed.

Lemma first_blob_wins_witness :
  hitHolds (QueryHit.mk 1 "A" 9 1 1 5 0 3 "V1") 2 5.
Proof.
  apply (first_blob_wins
           (Many [shapeless; toJs (BlobV1 scenarioV1); JsObj twoShaped])
           2 5 _ eq_refl).
Defined.

(** ** Tier-2 blobs that stand for no record *)

(** X14 — degenerate Tier-2 blob: a Tier-2 blob whose stride is zero or
    negative, or whose runs all have a count of zero or less, decodes to no
    record, and the resolver finds nothing in it at any tile; the division
    by the stride is never the cause of a hit or of an error. *)
Theorem degenerate_tier2_is_empty (b : V2Blob.t) :
  V2Blob.s b <= 0 \/ Forall (fun r => V2Run.k r <= 0) (V2Blob.seq b) ->
  expandV2 b = []
  /\ forall x y, queryRuns b x y (V2Blob.seq b) = None.
Proof.
  intros Hdeg.
  assert (Hno : forall r i x, In r (V2Blob.seq b) -> ~ inMember b r i x).
  { intros r i x Hr [Hi Hx]. destruct Hdeg as [Hs|Hk]; [lia|].
    rewrite Forall_forall in Hk. specialize (Hk r Hr). lia. }
  split.
  - destruct (expandV2 b) as [|row l] eqn:E; [reflexivity|].
    assert (Hin : In row (expandV2 b)) by (rewrite E; now left).
    apply expandV2_In in Hin as (r & i & Hr & Hi & Hrow).
    apply memberRows_In in Hrow as (x & Hx & _).
    exfalso. apply (Hno r i x Hr). now split.
  - intros x y. destruct (queryRuns b x y (V2Blob.seq b)) as [h|] eqn:E;
      [|reflexivity].
    apply queryRuns_hit in E as (r & q & Hr & Hm & _).
    exfalso. exact (Hno r q x Hr Hm).
Qed.

Lemma degenerate_tier2_is_empty_witness :
  expandV2 zeroStride = []
  /\ forall x y, queryRuns zeroStride x y (V2Blob.seq zeroStride) = None.
Proof.
  apply (degenerate_tier2_is_empty zeroStride). left. simpl. lia.
Defined.

(** ** The payload written to disk *)

(** X15 — payload: unwrapping a one-blob array into the blob itself, as
    [doCompressFile] does before writing, changes nothing for the decoder
    or the resolver, which wrap a lone blob into an array again; the
    payload is a lone blob exactly when the encoder returned one blob. *)
Theorem payload_is_transparent {C : Collation} (bs : list Blob) :
  expandCompact (payload bs) = expandCompact (Many (map toJs bs))
  /\ (forall x y,
        queryOneCompact (payload bs) x y =
        queryOneCompact (Many (map toJs bs)) x y)
  /\ ((exists v, payload bs = Single v) <-> List.length bs = 1%nat).
Proof.
  split; [|split].
  - unfold expandCompact. now rewrite blobsOf_payload.
  - intros x y. unfold queryOneCompact. now rewrite blobsOf_payload.
  - destruct bs as [|b [|b' bs]]; cbn [payload List.length]; split;
      try discriminate; eauto.
    + intros [v H]. discriminate H.
    + intros [v H]. discriminate H.
Qed.

(** ** The typed model against the records as parsed *)

(** X16 — records with every property: on them [rowsToV1], run as it is on
    parsed objects with the JavaScript reading of absent properties,
    raises no error and returns the blobs the typed model returns, in every
    engine whose [sort] has the laws of [SortLaws] and under every
    collation that is a consistent order. *)
Theorem complete_records_encode {C : Collation} {HO : CollationOrder C}
  {E : Loose.SortEngine} {EL : Loose.SortLaws E} (rows : list RawRow.t) :
  Loose.rowsToV1 (map looseRow rows) = Ok (map looseBlob (rowsToV1 rows))
  /\ forall r, In r (map looseRow rows) -> ~ Loose.malformed r.
Proof.
  split; [apply loose_rowsToV1_refines|].
  intros r Hr. apply in_map_iff in Hr as (r0 & <- & _).
  unfold Loose.malformed, looseRow. cbn.
  intros [H|[H|[H|[H|[H|[H|H]]]]]]; discriminate H.
Qed.

Lemma complete_records_encode_witness :
  @Loose.rowsToV1 codeUnits Loose.insertion (map looseRow scenario)
  = Ok (map looseBlob (@rowsToV1 codeUnits scenario)).
Proof.
  apply (proj1 (@complete_records_encode codeUnits _ Loose.insertion _
                  scenario)).
Defined.

(** ** Size of the encoding *)

Lemma list_sum_flat_map {A B : Type} (f : A -> list B) (g : A -> nat)
  (l : list A) :
  (forall x, In x l -> (g x <= List.length (f x))%nat) ->
  (list_sum (map g l) <= List.length (flat_map f l))%nat.
Proof.
  induction l as [|x l IH]; intros H; [apply le_n|].
  change (g x + list_sum (map g l)
          <= List.length (f x ++ flat_map f l))%nat.
  rewrite length_app. apply Nat.add_le_mono.
  - apply H. now left.
  - apply IH. intros y Hy. apply H. now right.
Qed.

Lemma list_sum_le {A : Type} (g h : A -> nat) (l : list A) :
  (forall x, In x l -> (g x <= h x)%nat) ->
  (list_sum (map g l) <= list_sum (map h l))%nat.
Proof.
  induction l as [|x l IH]; intros H; [apply le_n|].
  change (g x + list_sum (map g l) <= h x + list_sum (map h l))%nat.
  apply Nat.add_le_mono.
  - apply H. now left.
  - apply IH. intros y Hy. apply H. now right.
Qed.

Lemma list_sum_ones {A : Type} (l : list A) :
  list_sum (map (fun _ => 1%nat) l) = List.length l.
Proof.
  induction l as [|x l IH]; [reflexivity|].
  change (S (list_sum (map (fun _ => 1%nat) l)) = S (List.length l)).
  now rewrite IH.
Qed.

Lemma expandV1_length (b : V1Blob.t) :
  Forall (fun e => V1Entry.xs e <= V1Entry.xe e) (V1Blob.e b) ->
  (List.length (V1Blob.e b) <= List.length (expandV1 b))%nat.
Proof.
  intros Hiv. rewrite expandV1_entryRows, <- list_sum_ones.
  apply list_sum_flat_map. intros e He.
  rewrite Forall_forall in Hiv. specialize (Hiv e He).
  unfold entryRows. rewrite length_map.
  assert (Hin : In (V1Entry.xs e) (zrange (V1Entry.xs e) (V1Entry.xe e)))
    by (apply zrange_In; lia).
  destruct (zrange _ _); [destruct Hin|cbn; lia].
Qed.

Lemma runTotal_length (sq : list V2Run.t) :
  Forall (fun r => 1 <= V2Run.k r) sq ->
  Z.of_nat (List.length sq) <= runTotal sq.
Proof.
  induction 1 as [|r sq Hr _ IH]; [cbn; lia|].
  rewrite runTotal_cons. cbn [List.length]. lia.
Qed.

(** X22 — size: the encoder never emits more blobs than it emits intervals
    and runs, nor more intervals and runs than it was given records. *)
Theorem encoding_never_expands {C : Collation} (rows : list RawRow.t)
  (s : Z) :
  (List.length (compactFromRows rows s)
   <= unitsOf (compactFromRows rows s))%nat
  /\ (unitsOf (compactFromRows rows s) <= List.length rows)%nat.
Proof.
  assert (Hb : forall x, In x (compactFromRows rows s) ->
                 (1 <= unitCount x <= List.length (expandBlob x))%nat).
  { intros x Hx. unfold compactFromRows in Hx.
    apply in_map_iff in Hx as (b & <- & Hb).
    pose proof (rowsToV1_nonempty rows b Hb) as Hne.
    pose proof (expandV1_length b (rowsToV1_intervals rows b Hb)) as Hlen.
    destruct (v1ToV2IfPossible b s) as [v2|] eqn:Ev;
      cbn [unitCount expandBlob].
    - rewrite (Permutation_length (v1ToV2_rows b s v2 Ev)).
      destruct (V1Blob.e b) as [|e0 rest] eqn:Ee; [congruence|].
      destruct (v1ToV2_accepted b s v2 e0 rest Ee Ev)
        as (_ & e1 & rest1 & HP & ->).
      cbn [V2Blob.seq].
      destruct (runsFrom_structure s rest1 e1 e1 1) as (Hk & Ht & _);
        [lia|].
      apply runTotal_length in Hk. apply Permutation_length in HP.
      pose proof (runsFrom_length s rest1 e1 e1 1) as Hl.
      rewrite Ee in HP. cbn [List.length] in *. lia.
    - destruct (V1Blob.e b); [congruence|cbn [List.length] in *; lia]. }
  split.
  - rewrite <- (list_sum_ones (compactFromRows rows s)).
    apply list_sum_le. intros x Hx. now apply Hb.
  - rewrite <- (Permutation_length (compactFromRows_rows rows s)).
    apply list_sum_flat_map. intros x Hx. now apply Hb.
Qed.

(** ** The worker pool *)

Lemma firstn_S_some {A : Type} (l : list A) (k : nat) (x : A) :
  nth_error l k = Some x -> firstn (S k) l = firstn k l ++ [x].
Proof.
  revert k. induction l as [|y l IH]; intros [|k]; cbn; try discriminate.
  - now intros [= ->].
  - intros H. f_equal. now apply IH.
Qed.

Lemma firstn_S_none {A : Type} (l : list A) (k : nat) :
  nth_error l k = None -> firstn (S k) l = firstn k l.
Proof.
  intros H. apply nth_error_None in H.
  rewrite !firstn_all2; auto with arith.
Qed.

Lemma nth_error_indexed {A : Type} (l : list A) (a k : nat) :
  nth_error (combine l (List.seq a (List.length l))) k =
  option_map (fun x => (x, (a + k)%nat)) (nth_error l k).
Proof.
  revert a k. induction l as [|x l IH]; intros a [|k]; cbn;
    try reflexivity.
  - now rewrite Nat.add_0_r.
  - rewrite IH. now rewrite Nat.add_succ_r.
Qed.

Lemma indexed_indices {A : Type} (l : list A) (a : nat) :
  map snd (combine l (List.seq a (List.length l)))
  = List.seq a (List.length l).
Proof.
  revert a. induction l as [|x l IH]; intros a; cbn; [reflexivity|].
  now rewrite IH.
Qed.

(** A call leaves the calls in flight for the settled ones, and the calls
    [k] are made. *)
Lemma settle_perm {A : Type} (p q s st k : list A) (c : A) :
  Permutation (p ++ c :: q ++ s) st ->
  Permutation (p ++ k ++ q ++ s ++ [c]) (st ++ k).
Proof.
  intros H. eapply perm_trans; [|apply Permutation_app_tail, H].
  rewrite <- app_assoc. apply Permutation_app_head.
  eapply perm_trans; [|apply Permutation_app_comm].
  apply Permutation_app_head. rewrite app_assoc.
  apply Permutation_sym, Permutation_cons_append.
Qed.

Section PoolTheory.
Context {T : Type}.
Variables (items : list T) (rejects : T -> nat -> bool).

#[local] Abbreviation state := (@Pool.state T).
#[local] Abbreviation enter := (Pool.enter items).
#[local] Abbreviation spawn := (Pool.spawn items).
#[local] Abbreviation start := (Pool.start items).
#[local] Abbreviation resume := (Pool.resume items rejects).
#[local] Abbreviation run := (Pool.run items rejects).
#[local] Abbreviation allCalls := (Pool.allCalls items).
#[local] Abbreviation invariant := (Pool.invariant items rejects).

Lemma allCalls_length : List.length allCalls = List.length items.
Proof.
  unfold Pool.allCalls. rewrite length_combine, length_seq.
  apply Nat.min_id.
Qed.

Lemma allCalls_nth (k : nat) :
  nth_error allCalls k = option_map (fun x => (x, k)) (nth_error items k).
Proof. unfold Pool.allCalls. now rewrite nth_error_indexed. Qed.

Lemma allCalls_indices : map snd allCalls = List.seq 0 (List.length items).
Proof.
  unfold Pool.allCalls. apply indexed_indices.
Qed.

Lemma inflight_app (ws ws' : list (@Pool.worker T)) :
  Pool.inflight (ws ++ ws') = Pool.inflight ws ++ Pool.inflight ws'.
Proof. unfold Pool.inflight. apply flat_map_app. Qed.

Lemma inflight_cons (w : @Pool.worker T) (ws : list (@Pool.worker T)) :
  Pool.inflight (w :: ws) = Pool.inflight [w] ++ Pool.inflight ws.
Proof. apply (inflight_app [w] ws). Qed.

Lemma inflight_length (ws : list (@Pool.worker T)) :
  (List.length (Pool.inflight ws) <= List.length ws)%nat.
Proof.
  induction ws as [|w ws IH]; [apply le_n|].
  rewrite inflight_cons, length_app. destruct w; cbn in *; lia.
Qed.

Lemma finished_inflight (st : state) :
  Pool.finished st = true <-> Pool.inflight (Pool.workers st) = [].
Proof.
  unfold Pool.finished. induction (Pool.workers st) as [|w ws IH].
  - now split.
  - rewrite inflight_cons. destruct w; cbn [forallb Pool.exited andb].
    + split; discriminate.
    + exact IH.
Qed.

Lemma setWorker_length (w : nat) (wk : @Pool.worker T)
  (ws : list (@Pool.worker T)) :
  List.length (Pool.setWorker w wk ws) = List.length ws.
Proof.
  revert w. induction ws as [|x ws IH]; intros [|w]; cbn; auto.
Qed.

Lemma setWorker_split (w : nat) (wk x : @Pool.worker T)
  (ws : list (@Pool.worker T)) :
  nth_error ws w = Some x ->
  exists pre post,
    ws = pre ++ x :: post /\ Pool.setWorker w wk ws = pre ++ wk :: post.
Proof.
  revert w. induction ws as [|y ws IH]; intros [|w]; cbn;
    try discriminate.
  - intros [= ->]. now exists [], ws.
  - intros H. destruct (IH w H) as (pre & post & -> & E).
    exists (y :: pre), post. cbn. now rewrite E.
Qed.

(** One pass through the head of the loop. *)
Lemma enter_spec (st st' : state) (w : @Pool.worker T) :
  enter st = (st', w) ->
  Pool.cursor st' = S (Pool.cursor st)
  /\ Pool.workers st' = Pool.workers st
  /\ Pool.settled st' = Pool.settled st
  /\ Pool.logged st' = Pool.logged st
  /\ Pool.started st' = Pool.started st ++ Pool.inflight [w]
  /\ (Pool.started st = firstn (Pool.cursor st) allCalls ->
      Pool.started st' = firstn (S (Pool.cursor st)) allCalls).
Proof.
  unfold Pool.enter. cbv zeta.
  destruct (nth_error items (Pool.cursor st)) as [it|] eqn:E;
    intros [= <- <-]; cbn; repeat split; auto.
  - intros ->. symmetry. apply firstn_S_some.
    now rewrite allCalls_nth, E.
  - now rewrite app_nil_r.
  - intros ->. symmetry. apply firstn_S_none.
    now rewrite allCalls_nth, E.
Qed.

Lemma init_invariant : invariant Pool.init.
Proof.
  unfold Pool.invariant. cbn. repeat split. constructor.
Qed.

Lemma spawn_invariant (st : state) :
  invariant st ->
  invariant (spawn st)
  /\ List.length (Pool.workers (spawn st))
     = S (List.length (Pool.workers st))
  /\ Pool.settled (spawn st) = Pool.settled st.
Proof.
  intros (Hs & Hp & Hc & Hl). unfold Pool.spawn.
  destruct (enter st) as [st' w] eqn:E.
  apply enter_spec in E as (Ec & Ew & Et & El & Es & Ef).
  unfold Pool.invariant.
  cbn [Pool.cursor Pool.workers Pool.started Pool.settled Pool.logged].
  rewrite Ec, Ew, Et, El, Es.
  rewrite length_app. cbn [List.length].
  split; [|split; [lia|reflexivity]].
  split; [rewrite <- Es; now apply Ef|].
  split; [|split; [lia|exact Hl]].
  rewrite inflight_app, <- app_assoc.
  eapply perm_trans;
    [apply Permutation_app_head, Permutation_app_comm|].
  rewrite app_assoc. now apply Permutation_app_tail.
Qed.

Lemma start_invariant (limit : Z) :
  invariant (start limit)
  /\ List.length (Pool.workers (start limit)) = Pool.workerCount limit
  /\ Pool.settled (start limit) = [].
Proof.
  unfold Pool.start. induction (Pool.workerCount limit) as [|n IH].
  - split; [apply init_invariant|now split].
  - change (Nat.iter (S n) spawn Pool.init)
      with (spawn (Nat.iter n spawn Pool.init)).
    destruct IH as (Hi & Hn & Hs).
    destruct (spawn_invariant _ Hi) as (Hi' & Hn' & Hs').
    split; [exact Hi'|]. split; congruence.
Qed.

Lemma resume_invariant (st st' : state) (w : nat) :
  invariant st -> resume st w = Some st' ->
  invariant st'
  /\ List.length (Pool.workers st') = List.length (Pool.workers st)
  /\ List.length (Pool.settled st') = S (List.length (Pool.settled st)).
Proof.
  intros (Hs & Hp & Hc & Hl). unfold Pool.resume.
  destruct (nth_error (Pool.workers st) w) as [[it idx|]|] eqn:Ew;
    try discriminate.
  cbv zeta.
  destruct (enter _) as [st2 wk] eqn:E.
  apply enter_spec in E as (Ec & Ews & Et & El & Es & Ef).
  cbn [Pool.cursor Pool.workers Pool.started Pool.settled Pool.logged]
    in Ec, Ews, Et, El, Es, Ef.
  intros [= <-].
  destruct (setWorker_split w wk _ _ Ew) as (pre & post & Hws & Hset).
  unfold Pool.invariant.
  cbn [Pool.cursor Pool.workers Pool.started Pool.settled Pool.logged].
  rewrite Ec, Ews, Et, El, Es, Hset.
  rewrite Hws in Hp, Hc. rewrite Hws.
  rewrite !length_app in *. cbn [List.length] in *.
  split; [|split; [reflexivity|lia]].
  split; [rewrite <- Es; now apply Ef|].
  split; [|split; [lia|]].
  - rewrite inflight_app, (inflight_cons wk), <- !app_assoc.
    rewrite inflight_app, (inflight_cons (Pool.Awaiting it idx)) in Hp.
    change (Pool.inflight [Pool.Awaiting it idx]) with [(it, idx)] in Hp.
    rewrite <- !app_assoc in Hp. cbn [app] in Hp.
    now apply settle_perm.
  - rewrite filter_app. cbn [filter]. unfold Pool.rejected at 2. cbn [fst snd].
    rewrite <- Hl. destruct (rejects it idx); [reflexivity|].
    now rewrite app_nil_r.
Qed.

Lemma run_invariant (sched : list nat) :
  forall st st',
    invariant st -> run st sched = Some st' ->
    invariant st'
    /\ List.length (Pool.workers st') = List.length (Pool.workers st)
    /\ List.length (Pool.settled st')
       = (List.length (Pool.settled st) + List.length sched)%nat.
Proof.
  induction sched as [|w sched IH]; intros st st' Hi; cbn [Pool.run].
  - intros [= <-]. split; [exact Hi|]. split; [reflexivity|].
    cbn. lia.
  - destruct (resume st w) as [st1|] eqn:E; [|discriminate].
    intros Hr. destruct (resume_invariant _ _ _ Hi E) as (Hi1 & Hw1 & Hs1).
    destruct (IH _ _ Hi1 Hr) as (Hi' & Hw' & Hs').
    split; [exact Hi'|]. split; [congruence|].
    rewrite Hs', Hs1. cbn [List.length]. lia.
Qed.

(** The counts of a pool that was started and resumed along [sched]. *)
Lemma pool_accounting (limit : Z) (sched : list nat) (st : state) :
  run (start limit) sched = Some st ->
  invariant st
  /\ List.length (Pool.workers st) = Pool.workerCount limit
  /\ List.length (Pool.settled st) = List.length sched
  /\ (1 <= Pool.workerCount limit)%nat.
Proof.
  intros Hr. destruct (start_invariant limit) as (Hi & Hn & Hs).
  destruct (run_invariant sched _ _ Hi Hr) as (Hi' & Hn' & Hs').
  rewrite Hs in Hs'. cbn [List.length] in Hs'.
  split; [exact Hi'|]. split; [congruence|]. split; [lia|].
  unfold Pool.workerCount. lia.
Qed.

Lemma inflight_count (st : state) :
  invariant st ->
  (List.length (Pool.inflight (Pool.workers st))
   + List.length (Pool.settled st)
   = Nat.min (List.length (Pool.workers st) + List.length (Pool.settled st))
       (List.length items))%nat.
Proof.
  intros (Hs & Hp & Hc & _). apply Permutation_length in Hp.
  rewrite length_app, Hs, length_firstn, allCalls_length, Hc in Hp.
  exact Hp.
Qed.

Lemma finished_count (st : state) :
  invariant st -> (1 <= List.length (Pool.workers st))%nat ->
  (List.length (Pool.settled st) <= List.length items)%nat
  /\ (Pool.finished st = true
      <-> List.length (Pool.settled st) = List.length items).
Proof.
  intros Hi Hn. pose proof (inflight_count st Hi) as Hc.
  split; [lia|]. rewrite finished_inflight, <- length_zero_iff_nil. lia.
Qed.

(** X17 — dispatch order: whatever the order in which the calls settle,
    and whether they fail or not, after [j] of them have settled
    [runWithLimit] has called [fn] on exactly the first
    [min(max(1, limit) + j, items.length)] items, each with its own index,
    in index order. *)
Theorem runWithLimit_dispatch_in_order (limit : Z) (sched : list nat)
  (st : state) :
  run (start limit) sched = Some st ->
  Pool.started st
  = firstn (Pool.workerCount limit + List.length sched) allCalls.
Proof.
  intros Hr.
  destruct (pool_accounting limit sched st Hr)
    as ((Hs & _ & Hc & _) & Hn & Hj & _).
  now rewrite Hs, Hc, Hn, Hj.
Qed.

Lemma NoDup_firstn {A : Type} (k : nat) (l : list A) :
  NoDup l -> NoDup (firstn k l).
Proof.
  intros H. rewrite <- (firstn_skipn k l) in H.
  now apply NoDup_app_remove_r in H.
Qed.

(** X18 — concurrency bound, for an integer [limit]: at every moment at
    most [max(1, limit)] calls are in flight; the calls in flight and the
    settled ones are together the calls made, no index among them twice;
    and what was logged is the rejected calls among the settled ones, in
    the order they settled. *)
Theorem runWithLimit_bounded (limit : Z) (sched : list nat) (st : state) :
  run (start limit) sched = Some st ->
  (List.length (Pool.inflight (Pool.workers st))
   <= Pool.workerCount limit)%nat
  /\ Permutation (Pool.inflight (Pool.workers st) ++ Pool.settled st)
       (Pool.started st)
  /\ NoDup (map snd (Pool.inflight (Pool.workers st) ++ Pool.settled st))
  /\ Pool.logged st = filter (Pool.rejected rejects) (Pool.settled st).
Proof.
  intros Hr.
  destruct (pool_accounting limit sched st Hr)
    as ((Hs & Hp & Hc & Hl) & Hn & Hj & _).
  split; [rewrite <- Hn; apply inflight_length|].
  split; [exact Hp|]. split; [|exact Hl].
  eapply Permutation_NoDup;
    [apply Permutation_map, Permutation_sym, Hp|].
  rewrite Hs, <- firstn_map, allCalls_indices.
  apply NoDup_firstn, seq_NoDup.
Qed.

(** X19 — completion: a pool over [items.length] items sees at most that
    many calls settle, and [Promise.all(workers)] is fulfilled exactly when
    that many have; by then [fn] was called on every item once, with its
    index, in index order, and every call has settled.  With no items the
    pool is finished at once and calls nothing. *)
Theorem runWithLimit_completion (limit : Z) (sched : list nat)
  (st : state) :
  run (start limit) sched = Some st ->
  (List.length sched <= List.length items)%nat
  /\ (Pool.finished st = true <-> List.length sched = List.length items)
  /\ (Pool.finished st = true ->
      Pool.started st = allCalls /\ Permutation (Pool.settled st) allCalls).
Proof.
  intros Hr.
  destruct (pool_accounting limit sched st Hr) as (Hi & Hn & Hj & H1).
  destruct (finished_count st Hi) as [Hle Hfin]; [lia|].
  rewrite Hj in Hle, Hfin. split; [exact Hle|]. split; [exact Hfin|].
  intros Hf. destruct Hi as (Hs & Hp & Hc & _).
  pose proof (proj1 Hfin Hf) as Hlen.
  assert (Hall : Pool.started st = allCalls).
  { rewrite Hs. apply firstn_all2. rewrite allCalls_length, Hc. lia. }
  split; [exact Hall|].
  apply finished_inflight in Hf. rewrite Hf in Hp. now rewrite <- Hall.
Qed.

Lemma unfinished_worker (ws : list (@Pool.worker T)) :
  forallb Pool.exited ws = false ->
  exists w it idx, nth_error ws w = Some (Pool.Awaiting it idx).
Proof.
  induction ws as [|x ws IH]; [discriminate|].
  destruct x as [it idx|]; cbn [forallb Pool.exited andb].
  - intros _. now exists 0%nat, it, idx.
  - intros H. destruct (IH H) as (w & it & idx & Hw).
    now exists (S w), it, idx.
Qed.

Lemma resume_enabled (st : state) :
  Pool.finished st = false -> exists w st', resume st w = Some st'.
Proof.
  intros H. apply unfinished_worker in H as (w & it & idx & Hw).
  exists w. unfold Pool.resume. rewrite Hw. cbv zeta.
  destruct (enter _) as [st2 wk]. eauto.
Qed.

Lemma pool_completes (k : nat) :
  forall st,
    invariant st -> (1 <= List.length (Pool.workers st))%nat ->
    (List.length items - List.length (Pool.settled st) = k)%nat ->
    exists more st',
      run st more = Some st' /\ Pool.finished st' = true
      /\ List.length more = k.
Proof.
  induction k as [|k IH]; intros st Hi Hn Hk;
    destruct (finished_count st Hi Hn) as [Hle Hfin].
  - exists [], st. split; [reflexivity|]. split; [|reflexivity].
    apply Hfin. lia.
  - destruct (Pool.finished st) eqn:Hf.
    + assert (List.length (Pool.settled st) = List.length items)
        by now apply Hfin.
      lia.
    + destruct (resume_enabled st Hf) as (w & st1 & Hw).
      destruct (resume_invariant _ _ _ Hi Hw) as (Hi1 & Hn1 & Hs1).
      destruct (IH st1 Hi1) as (more & st' & Hr & Hf' & Hm); [lia|lia|].
      exists (w :: more), st'. cbn [Pool.run List.length].
      rewrite Hw. auto.
Qed.

(** X20 — no deadlock: while the pool is not finished some worker is
    waiting for a call, and when that call settles the worker goes on; so
    every run of the pool extends to a finished one, by exactly as many
    settlements as there are calls still to settle. *)
Theorem runWithLimit_no_deadlock (limit : Z) (sched : list nat)
  (st : state) :
  run (start limit) sched = Some st ->
  (Pool.finished st = false -> exists w st', resume st w = Some st')
  /\ exists more st',
       run st more = Some st' /\ Pool.finished st' = true
       /\ List.length more
          = (List.length items - List.length sched)%nat.
Proof.
  intros Hr.
  destruct (pool_accounting limit sched st Hr) as (Hi & Hn & Hj & H1).
  split; [apply resume_enabled|].
  rewrite <- Hj. apply pool_completes; [exact Hi|lia|reflexivity].
Qed.

Lemma start_oneAtATime (limit : Z) :
  limit <= 1 -> Pool.oneAtATime (start limit).
Proof.
  intros H. unfold Pool.start, Pool.workerCount.
  replace (Z.max 1 limit) with 1 by lia.
  change (Nat.iter (Z.to_nat 1) spawn Pool.init) with (spawn Pool.init).
  unfold Pool.spawn, Pool.enter. cbn [Pool.cursor Pool.init].
  destruct (nth_error items 0) as [it|]; eexists; split; reflexivity.
Qed.

Lemma resume_oneAtATime (st st' : state) (w : nat) :
  Pool.oneAtATime st -> resume st w = Some st' ->
  w = 0%nat /\ Pool.oneAtATime st'.
Proof.
  intros (wk & Hw & Hs). unfold Pool.resume. rewrite Hw.
  destruct w as [|w]; [|destruct w; discriminate].
  cbn [nth_error]. destruct wk as [it idx|]; [|discriminate].
  cbv zeta. unfold Pool.enter. cbn [Pool.cursor Pool.workers Pool.started
    Pool.settled Pool.logged].
  rewrite Hs.
  destruct (nth_error items (Pool.cursor st)) as [it'|];
    intros [= <-]; (split; [reflexivity|]); eexists;
    cbn [Pool.workers Pool.started Pool.settled Pool.setWorker];
    (split; [reflexivity|]);
    cbn [Pool.inflight flat_map app];
    now rewrite <- ?app_assoc, ?app_nil_r.
Qed.

Lemma run_oneAtATime (sched : list nat) :
  forall st st',
    Pool.oneAtATime st -> run st sched = Some st' ->
    Forall (fun w => w = 0%nat) sched /\ Pool.oneAtATime st'.
Proof.
  induction sched as [|w sched IH]; intros st st' H1; cbn [Pool.run].
  - intros [= <-]. now split.
  - destruct (resume st w) as [st1|] eqn:E; [|discriminate].
    intros Hr. destruct (resume_oneAtATime _ _ _ H1 E) as [-> H1'].
    destruct (IH _ _ H1' Hr) as [Hall H1''].
    split; [now constructor|exact H1''].
Qed.

(** X21 — a limit of 1 or less: with [limit <= 1], zero and negative
    limits included, there is one worker, and the calls settle in index
    order: a call is made only when the one before it has settled. *)
Theorem runWithLimit_sequential (limit : Z) (sched : list nat)
  (st : state) :
  limit <= 1 ->
  run (start limit) sched = Some st ->
  Pool.workerCount limit = 1%nat
  /\ Pool.settled st = firstn (List.length sched) allCalls
  /\ Pool.started st = firstn (S (List.length sched)) allCalls.
Proof.
  intros Hl Hr.
  assert (Hn : Pool.workerCount limit = 1%nat)
    by (unfold Pool.workerCount; lia).
  destruct (pool_accounting limit sched st Hr)
    as ((Hs & _ & Hc & _) & Hw & Hj & _).
  destruct (run_oneAtATime sched _ _ (start_oneAtATime limit Hl) Hr)
    as (_ & wk & _ & Hst).
  rewrite Hw, Hn, Hj in Hc. rewrite Hc in Hs. cbn [Nat.add] in Hs.
  split; [exact Hn|]. split; [|exact Hs].
  assert (E : firstn (List.length sched) (Pool.started st)
              = Pool.settled st).
  { rewrite Hst, firstn_app, <- Hj, Nat.sub_diag, firstn_all.
    cbn [firstn]. apply app_nil_r. }
  rewrite <- E, Hs, firstn_firstn. f_equal. lia.
Qed.
End PoolTheory.

Lemma runWithLimit_dispatch_in_order_witness :
  Pool.started twoSettled
  = firstn (Pool.workerCount 2 + 2) (Pool.allCalls sampleFiles).
Proof.
  apply (runWithLimit_dispatch_in_order sampleFiles secondFails 2
           [1%nat; 0%nat] twoSettled ltac:(vm_compute; reflexivity)).
Defined.

Lemma runWithLimit_bounded_witness :
  Pool.logged twoSettled
  = filter (Pool.rejected secondFails) (Pool.settled twoSettled).
Proof.
  apply (proj2 (proj2 (proj2
           (runWithLimit_bounded sampleFiles secondFails 2
              [1%nat; 0%nat] twoSettled ltac:(vm_compute; reflexivity))))).
Defined.

Lemma runWithLimit_completion_witness :
  Pool.started allSettled = Pool.allCalls sampleFiles
  /\ Permutation (Pool.settled allSettled) (Pool.allCalls sampleFiles).
Proof.
  apply (proj2 (proj2
           (runWithLimit_completion sampleFiles secondFails 2
              [1%nat; 0%nat; 1%nat] allSettled
              ltac:(vm_compute; reflexivity)))).
  reflexivity.
Defined.

Lemma runWithLimit_no_deadlock_witness :
  exists more st',
    Pool.run sampleFiles secondFails twoSettled more = Some st'
    /\ Pool.finished st' = true
    /\ List.length more = (List.length sampleFiles - 2)%nat.
Proof.
  apply (proj2 (runWithLimit_no_deadlock sampleFiles secondFails 2
                  [1%nat; 0%nat] twoSettled ltac:(vm_compute; reflexivity))).
Defined.

Lemma runWithLimit_sequential_witness :
  Pool.settled oneByOne = firstn 2 (Pool.allCalls sampleFiles).
Proof.
  apply (proj1 (proj2
           (runWithLimit_sequential sampleFiles secondFails 0
              [0%nat; 0%nat] oneByOne ltac:(lia)
              ltac:(vm_compute; reflexivity)))).
Defined.
